(** * chashmap: a separate-chaining hash map over raw byte buffers

    A shallow embedding of [src/chashmap.c] (with the declarations of
    [include/chashmap.h]) and the properties of its operations.

    Conventions of the embedding.
    - A C buffer, that is a [const void *] together with the [size_t] that
      says how many bytes it holds, is a [list Byte.byte]; a pointer argument
      that may be [NULL] is an [option].
    - [size_t] and [uint64_t] are 64-bit (LP64): values are [Z] and every
      operation that can wrap is written with [wrap64].
    - [float] is IEEE binary32, every operation rounded to nearest even,
      computed with the standard library's [SpecFloat] at precision 24 and
      [emax] 128.
    - A bucket chain (entries linked by [next]) is the list of its entries,
      head first; the bucket array is the list of its chains.
    - [malloc]/[calloc] take their answer from an allocation script: the list
      of the answers to the coming requests ([true]: memory is granted).
    - Dereferencing [NULL], indexing outside an array and dividing by zero
      are undefined behaviour in C: the embedding stops with [Fault]. *)

From Stdlib Require Import ZArith List Lia Bool QArith Qpower Strings.Byte.
From Stdlib Require Import Floats.SpecFloat.
From stdpp Require Import base list.

Open Scope Z_scope.

(** ** Machine integers and floats *)

Definition wrap64 (z : Z) : Z := z mod 2 ^ 64.

Definition float := spec_float.

(** [(float) n] for an unsigned integer [n]. *)
Definition float_of_size (n : Z) : float := binary_normalize 24 128 n 0 false.

Definition float_div (x y : float) : float := SFdiv 24 128 x y.

(** [0.0f] *)
Definition float_zero : float := S754_zero false.

(** ** Allocation and undefined behaviour: a state and error monad *)

Definition script := list bool.

Inductive outcome (A : Type) : Type :=
| Done (a : A) (s : script)
| Fault.
Arguments Done {A} a s.
Arguments Fault {A}.

Definition M (A : Type) : Type := script -> outcome A.

Definition ret {A} (a : A) : M A := fun s => Done a s.

Definition bind {A B} (c : M A) (k : A -> M B) : M B :=
  fun s => match c s with
           | Done a s' => k a s'
           | Fault => Fault
           end.

Definition fault {A} : M A := fun _ => Fault.

Notation "x <- c ;; k" := (bind c (fun x => k))
  (at level 100, c at next level, right associativity).

(** One allocation request. An exhausted script grants everything. *)
Definition malloc : M bool :=
  fun s => match s with
           | [] => Done true []
           | granted :: s' => Done granted s'
           end.

(** [calloc(nmemb, size)] returns [NULL] when [nmemb * size] does not fit
    [size_t], without asking for memory. *)
Definition calloc (nmemb size : Z) : M bool :=
  if nmemb * size <? 2 ^ 64 then malloc else ret false.

(** Reading through a pointer that may be [NULL]. *)
Definition deref {A} (p : option A) : M A :=
  match p with
  | Some a => ret a
  | None => fault
  end.

(** ** Data model ([include/chashmap.h]) *)

Definition buffer := list Byte.byte.

Definition len (b : buffer) : Z := Z.of_nat (length b).

(** The type of hash functions: from the key buffer to a [uint64_t]. *)
Definition hash_func_t := buffer -> Z.

(** The type of key comparisons: both buffers hold [key_size] bytes, and an
    [int] other than zero means equal. *)
Definition eq_func_t := buffer -> buffer -> Z.

(** [struct HashMapEntry]. [key] stands for the fields [key] and [key_size];
    [value] is [None] when the pointer is [NULL]; [next] is the rest of the
    chain the entry sits in. *)
Record HashMapEntry : Type := {
  key : buffer;
  value : option buffer;
  value_size : Z
}.

Definition key_size (entry : HashMapEntry) : Z := len (key entry).

Definition chain := list HashMapEntry.

(** [HashMap]. [buckets] is [None] when the pointer is [NULL]. [hash_func]
    and [eq_func] are the functions the two pointers lead to: [hashmap_init]
    stores pointers that are not [NULL], and [hashmap_destroy], which resets
    them, works on [HashMapMemory] below. *)
Record HashMap : Type := {
  buckets : option (list chain);
  capacity : Z;
  size : Z;
  hash_func : hash_func_t;
  eq_func : eq_func_t;
  load_factor : float
}.

Definition DEFAULT_INITIAL_CAPACITY : Z := 16.

(** [0.75f] *)
Definition DEFAULT_LOAD_FACTOR : float := S754_finite false 12582912 (-24).

(** The size of a pointer to an entry. *)
Definition sizeof_ptr : Z := 8.

(** ** Default hash and equality *)

Definition hash_step (hash : Z) (b : Byte.byte) : Z :=
  let hash := wrap64 (hash + Z.of_N (Byte.to_N b)) in
  let hash := wrap64 (hash + Z.shiftl hash 10) in
  Z.lxor hash (Z.shiftr hash 6).

(** Jenkins' one-at-a-time hash. *)
Definition default_hash (data : buffer) : Z :=
  let hash := fold_left hash_step data 0 in
  let hash := wrap64 (hash + Z.shiftl hash 3) in
  let hash := Z.lxor hash (Z.shiftr hash 11) in
  wrap64 (hash + Z.shiftl hash 15).

(** [memcmp] over the bytes both buffers hold. *)
Fixpoint memcmp (data1 data2 : buffer) : Z :=
  match data1, data2 with
  | b1 :: rest1, b2 :: rest2 =>
      match N.compare (Byte.to_N b1) (Byte.to_N b2) with
      | Lt => -1
      | Gt => 1
      | Eq => memcmp rest1 rest2
      end
  | _, _ => 0
  end.

Definition default_eq (data1 data2 : buffer) : Z :=
  if memcmp data1 data2 =? 0 then 1 else 0.

(** ** hashmap_init *)

Definition set_buckets (m : HashMap) (bs : option (list chain)) : HashMap :=
  {| buckets := bs; capacity := capacity m; size := size m;
     hash_func := hash_func m; eq_func := eq_func m;
     load_factor := load_factor m |}.

(** The result is the returned [int] and the new content of [*map]; [map] is
    [None] for a [NULL] pointer, otherwise whatever the memory held. *)
Definition hashmap_init (map : option HashMap) (capacity : Z)
    (hash_func : option hash_func_t) (eq_func : option eq_func_t)
    (load_factor : float) : M (Z * option HashMap) :=
  match map with
  | None => ret (-1, None)
  | Some old =>
      let capacity :=
        if capacity =? 0 then DEFAULT_INITIAL_CAPACITY else capacity in
      let load_factor :=
        if SFleb load_factor float_zero then DEFAULT_LOAD_FACTOR
        else load_factor in
      let m := {| buckets := buckets old;
                  capacity := capacity;
                  size := 0;
                  hash_func := default default_hash hash_func;
                  eq_func := default default_eq eq_func;
                  load_factor := load_factor |} in
      granted <- calloc capacity sizeof_ptr ;;
      if granted
      then ret (0, Some (set_buckets m (Some (replicate (Z.to_nat capacity) []))))
      else ret (-1, Some (set_buckets m None))
  end.

(** ** Reading the map *)

Definition set_size (m : HashMap) (n : Z) : HashMap :=
  {| buckets := buckets m; capacity := capacity m; size := n;
     hash_func := hash_func m; eq_func := eq_func m;
     load_factor := load_factor m |}.

(** [map->buckets[index]] *)
Definition bucket_at (buckets : option (list chain)) (index : Z) : M chain :=
  bs <- deref buckets ;;
  deref (bs !! Z.to_nat index).

(** [map->buckets[index] = entry] *)
Definition store_bucket (m : HashMap) (index : Z) (entry : chain) : HashMap :=
  set_buckets m (option_map (fun bs => <[Z.to_nat index := entry]> bs) (buckets m)).

(** [map->hash_func(key_data, key_size) % map->capacity] *)
Definition bucket_index (m : HashMap) (key_data : buffer) : M Z :=
  let hash_val := wrap64 (hash_func m key_data) in
  if capacity m =? 0 then fault else ret (hash_val mod capacity m).

(** [entry->key_size == key_size && map->eq_func(entry->key, key_data, key_size)] *)
Definition keys_match (m : HashMap) (entry : HashMapEntry) (key_data : buffer) : bool :=
  (key_size entry =? len key_data) && negb (eq_func m (key entry) key_data =? 0).

(** [memcpy(dest, src, n)], as the bytes written to [dest]. *)
Definition memcpy (src : option buffer) (n : Z) : M buffer :=
  bytes <- deref src ;;
  if n <=? len bytes then ret (take (Z.to_nat n) bytes) else fault.

(** ** hashmap_resize *)

(** The body of the inner loop: the entry becomes the head of its new chain. *)
Definition rehash_entry (m : HashMap) (new_capacity : Z)
    (new_buckets : list chain) (entry : HashMapEntry) : list chain :=
  let hash_val := wrap64 (hash_func m (key entry)) in
  let new_index := hash_val mod new_capacity in
  alter (cons entry) (Z.to_nat new_index) new_buckets.

(** The outer loop, from bucket [i] on, with [todo] buckets to go. *)
Fixpoint rehash_buckets (m : HashMap) (new_capacity : Z) (i : Z) (todo : nat)
    (new_buckets : list chain) : M (list chain) :=
  match todo with
  | O => ret new_buckets
  | S todo' =>
      entry <- bucket_at (buckets m) i ;;
      rehash_buckets m new_capacity (i + 1) todo'
        (fold_left (rehash_entry m new_capacity) entry new_buckets)
  end.

Definition hashmap_resize (m : HashMap) (new_capacity : Z) : M (Z * HashMap) :=
  if new_capacity <? 1 then ret (-1, m)
  else
    granted <- calloc new_capacity sizeof_ptr ;;
    if negb granted then ret (-1, m)
    else
      new_buckets <- rehash_buckets m new_capacity 0 (Z.to_nat (capacity m))
                       (replicate (Z.to_nat new_capacity) []) ;;
      ret (0, {| buckets := Some new_buckets; capacity := new_capacity;
                 size := size m; hash_func := hash_func m;
                 eq_func := eq_func m; load_factor := load_factor m |}).

(** ** hashmap_create_entry *)

Definition hashmap_create_entry (key val : buffer) : M (option HashMapEntry) :=
  entry_granted <- malloc ;;
  if negb entry_granted then ret None
  else
    key_granted <- malloc ;;
    if negb key_granted then ret None
    else
      value_granted <- malloc ;;
      if negb value_granted then ret None
      else ret (Some {| key := key; value := Some val; value_size := len val |}).

(** ** hashmap_insert *)

(** [(float)map->size / (float)map->capacity] *)
Definition current_load (m : HashMap) : float :=
  float_div (float_of_size (size m)) (float_of_size (capacity m)).

(** [current_load >= map->load_factor] *)
Definition load_exceeded (m : HashMap) : bool :=
  SFleb (load_factor m) (current_load m).

(** Lines 106-116: the growth step. The status of the resize is only logged. *)
Definition insert_grow (m : HashMap) : M HashMap :=
  if load_exceeded m
  then
    resized <- hashmap_resize m (wrap64 (capacity m * 2)) ;;
    ret (snd resized)
  else ret m.

(** The [while] loop of lines 123-138 over a chain. [None]: the loop ran off
    the end of the chain; [Some (status, chain)]: the function returned
    [status] from inside the loop, and [chain] is the chain as it leaves it. *)
Fixpoint insert_walk (m : HashMap) (key_data val_data : buffer) (entry : chain)
    : M (option (Z * chain)) :=
  match entry with
  | [] => ret None
  | e :: next =>
      if keys_match m e key_data
      then
        granted <- malloc ;;
        if negb granted
        then ret (Some (-1, {| key := key e; value := None;
                               value_size := value_size e |} :: next))
        else ret (Some (0, {| key := key e; value := Some val_data;
                              value_size := len val_data |} :: next))
      else
        walked <- insert_walk m key_data val_data next ;;
        ret (option_map (fun r => (fst r, e :: snd r)) walked)
  end.

(** Lines 118-149: placing the pair in the table. *)
Definition insert_place (m : HashMap) (key_data val_data : buffer) : M (Z * HashMap) :=
  index <- bucket_index m key_data ;;
  entry <- bucket_at (buckets m) index ;;
  walked <- insert_walk m key_data val_data entry ;;
  match walked with
  | Some (status, entry') => ret (status, store_bucket m index entry')
  | None =>
      new_entry <- hashmap_create_entry key_data val_data ;;
      match new_entry with
      | None => ret (-1, m)
      | Some new_entry =>
          ret (0, set_size (store_bucket m index (new_entry :: entry))
                           (wrap64 (size m + 1)))
      end
  end.

Definition hashmap_insert (map : option HashMap) (key_data : option buffer)
    (val_data : buffer) : M (Z * option HashMap) :=
  match map, key_data with
  | Some m, Some key_data =>
      if len key_data =? 0 then ret (-1, map)
      else
        m <- insert_grow m ;;
        placed <- insert_place m key_data val_data ;;
        ret (fst placed, Some (snd placed))
  | _, _ => ret (-1, map)
  end.

(** ** hashmap_get *)

(** What a call of [hashmap_get] leaves behind: the returned [int] and what
    it wrote through [out_val] and [out_size] ([None]: nothing written). *)
Record get_result : Type := {
  status : Z;
  out_val : option (option buffer);
  out_size : option Z
}.

(** The [while] loop of lines 163-182. [out] is [out_val && out_size]. *)
Fixpoint get_walk (m : HashMap) (key_data : buffer) (out : bool) (entry : chain)
    : M get_result :=
  match entry with
  | [] => ret {| status := 0; out_val := None; out_size := None |}
  | e :: next =>
      if keys_match m e key_data
      then
        if out
        then
          granted <- malloc ;;
          if negb granted
          then ret {| status := -1; out_val := Some None; out_size := None |}
          else
            copy <- memcpy (value e) (value_size e) ;;
            ret {| status := 1; out_val := Some (Some copy);
                   out_size := Some (value_size e) |}
        else ret {| status := 1; out_val := None; out_size := None |}
      else get_walk m key_data out next
  end.

(** [out_val] and [out_size] say whether the two pointers are given. *)
Definition hashmap_get (map : option HashMap) (key_data : option buffer)
    (out_val out_size : bool) : M get_result :=
  match map, key_data with
  | Some m, Some key_data =>
      if len key_data =? 0
      then ret {| status := -1; out_val := None; out_size := None |}
      else
        index <- bucket_index m key_data ;;
        entry <- bucket_at (buckets m) index ;;
        get_walk m key_data (out_val && out_size) entry
  | _, _ => ret {| status := -1; out_val := None; out_size := None |}
  end.

(** ** hashmap_remove *)

(** The [while] loop of lines 198-218: the chain without its first entry that
    matches, or [None] when the loop ran off the end. *)
Fixpoint remove_walk (m : HashMap) (key_data : buffer) (entry : chain) : option chain :=
  match entry with
  | [] => None
  | e :: next =>
      if keys_match m e key_data then Some next
      else option_map (cons e) (remove_walk m key_data next)
  end.

Definition hashmap_remove (map : option HashMap) (key_data : option buffer)
    : M (Z * option HashMap) :=
  match map, key_data with
  | Some m, Some key_data =>
      if len key_data =? 0 then ret (-1, map)
      else
        index <- bucket_index m key_data ;;
        entry <- bucket_at (buckets m) index ;;
        match remove_walk m key_data entry with
        | Some entry' =>
            ret (1, Some (set_size (store_bucket m index entry') (wrap64 (size m - 1))))
        | None => ret (0, map)
        end
  | _, _ => ret (-1, map)
  end.

(** * Invariants and observations *)

(** Every entry of the map, bucket by bucket, each chain head first. *)
Definition entries (m : HashMap) : list HashMapEntry :=
  concat (default [] (buckets m)).

(** The comparison [keys_match] makes, on two key buffers. *)
Definition same_key (m : HashMap) (a b : buffer) : bool :=
  (len a =? len b) && negb (eq_func m a b =? 0).

(** The bucket a key belongs to in a table of [cap] buckets. *)
Definition home (m : HashMap) (cap : Z) (k : buffer) : nat :=
  Z.to_nat (wrap64 (hash_func m k) mod cap).

(** Every entry sits in the bucket its key hashes to. *)
Definition placed (m : HashMap) (cap : Z) (bs : list chain) : Prop :=
  forall (i : nat) (c : chain) (e : HashMapEntry),
    bs !! i = Some c -> e ∈ c -> home m cap (key e) = i.

(** The bucket array is there, has [capacity] slots with [capacity >= 1], and
    every entry is in its bucket. *)
Definition table_ok (m : HashMap) : Prop :=
  exists bs : list chain,
    buckets m = Some bs /\ Z.of_nat (length bs) = capacity m /\
    1 <= capacity m /\ placed m (capacity m) bs.

(** [size] counts the entries (and is a [size_t]). *)
Definition size_ok (m : HashMap) : Prop :=
  size m = Z.of_nat (length (entries m)) /\ size m < 2 ^ 64.

(** The structural invariant of an initialized map. *)
Definition structural (m : HashMap) : Prop := table_ok m /\ size_ok m.

(** The bucket array was granted by [calloc]. *)
Definition array_fits (m : HashMap) : Prop :=
  capacity m * sizeof_ptr < 2 ^ 64.

(** The threshold kept by [hashmap_init]: not [load_factor <= 0.0f]. *)
Definition threshold_ok (m : HashMap) : Prop :=
  SFleb (load_factor m) float_zero = false.

(** No two keys of a list compare equal. *)
Inductive distinct_keys (m : HashMap) : list buffer -> Prop :=
| distinct_nil : distinct_keys m []
| distinct_cons (k : buffer) (l : list buffer) :
    (forall k', k' ∈ l -> same_key m k k' = false) ->
    distinct_keys m l ->
    distinct_keys m (k :: l).

Definition keys_unique (m : HashMap) : Prop :=
  distinct_keys m (key <$> entries m).

(** The maps use the same strategy functions and threshold. *)
Definition same_funcs (m m' : HashMap) : Prop :=
  hash_func m' = hash_func m /\ eq_func m' = eq_func m /\
  load_factor m' = load_factor m.

(** The contract of the two strategy functions: the comparison is an
    equivalence on keys, and keys that compare equal have the same hash. *)
Record lawful (m : HashMap) : Prop := {
  same_key_refl : forall a, same_key m a a = true;
  same_key_sym : forall a b, same_key m a b = true -> same_key m b a = true;
  same_key_trans : forall a b c,
    same_key m a b = true -> same_key m b c = true -> same_key m a c = true;
  same_key_hash : forall a b,
    same_key m a b = true -> wrap64 (hash_func m a) = wrap64 (hash_func m b)
}.

(** An initialized map whose keys can be looked up. *)
Definition valid (m : HashMap) : Prop :=
  table_ok m /\ keys_unique m /\ lawful m.

(** The first entry of a chain that matches the key. *)
Fixpoint chain_find (m : HashMap) (key_data : buffer) (entry : chain)
    : option HashMapEntry :=
  match entry with
  | [] => None
  | e :: next =>
      if keys_match m e key_data then Some e else chain_find m key_data next
  end.

(** The entry the walks of insert, get and remove stop at for a key. *)
Definition hashmap_lookup (m : HashMap) (key_data : buffer) : option HashMapEntry :=
  match buckets m with
  | Some bs =>
      match bs !! home m (capacity m) key_data with
      | Some entry => chain_find m key_data entry
      | None => None
      end
  | None => None
  end.

(** What the update branch leaves in the entry: the new value when its buffer
    was granted, a [NULL] value and the old size when it was not. *)
Definition updated (e : HashMapEntry) (val_data : buffer) (granted : bool)
    : HashMapEntry :=
  if granted
  then {| key := key e; value := Some val_data; value_size := len val_data |}
  else {| key := key e; value := None; value_size := value_size e |}.

(** The two loops of [hashmap_resize] over a whole bucket array. *)
Definition rehash_all (m : HashMap) (new_capacity : Z) (bs new_buckets : list chain)
    : list chain :=
  fold_left (fun nb entry => fold_left (rehash_entry m new_capacity) entry nb)
    bs new_buckets.

(** A new bucket array under construction in [hashmap_resize]: it has
    [new_capacity] slots and its entries are in their buckets. *)
Definition rehash_target (m : HashMap) (new_capacity : Z) (nb : list chain) : Prop :=
  length nb = Z.to_nat new_capacity /\ placed m new_capacity nb.

(** A script that grants every request. *)
Definition all_granted (s : script) : Prop := Forall (fun b => b = true) s.

(** ** Sequences of mutating calls *)

Inductive op : Type :=
| OpInsert (key_data val_data : buffer)
| OpRemove (key_data : buffer)
| OpResize (new_capacity : Z).

(** One call on the map [m]; the returned status is dropped. *)
Definition run_op (o : op) (m : HashMap) : M HashMap :=
  match o with
  | OpInsert k v =>
      r <- hashmap_insert (Some m) (Some k) v ;; ret (default m (snd r))
  | OpRemove k =>
      r <- hashmap_remove (Some m) (Some k) ;; ret (default m (snd r))
  | OpResize n =>
      r <- hashmap_resize m n ;; ret (snd r)
  end.

Fixpoint run_ops (ops : list op) (m : HashMap) : M HashMap :=
  match ops with
  | [] => ret m
  | o :: rest => m' <- run_op o m ;; run_ops rest m'
  end.

(** The key an insert or a remove is for. *)
Definition op_key (o : op) : option buffer :=
  match o with
  | OpInsert k _ => Some k
  | OpRemove k => Some k
  | OpResize _ => None
  end.

(** The call leaves the key [k] alone. *)
Definition leaves (m : HashMap) (k : buffer) (o : op) : Prop :=
  match op_key o with
  | Some k' => same_key m k k' = false
  | None => True
  end.

(** ** What the claims speak of *)

(** A call with a [NULL] map, a [NULL] key or a key of length zero. *)
Definition invalid_arguments (map : option HashMap) (key_data : option buffer)
    : Prop :=
  map = None \/ key_data = None \/ key_data = Some [].

(** The key has an entry in the map. *)
Definition present (m : HashMap) (key_data : buffer) : Prop :=
  exists e, e ∈ entries m /\ keys_match m e key_data = true.

(** The key has no entry in the map. *)
Definition absent (m : HashMap) (key_data : buffer) : Prop :=
  forall e, e ∈ entries m -> keys_match m e key_data = false.

(** A request was refused between the script [s] and what is left of it,
    [s']. *)
Definition refused_during (s s' : script) : Prop :=
  exists consumed, s = consumed ++ s' /\ false ∈ consumed.

(** "If an allocation fails during the insert, it returns an error and the map
    is left unchanged", for one call. *)
Definition insert_failure_claim (m : HashMap) (k v : buffer) (s : script) : Prop :=
  forall rc m' s',
    hashmap_insert (Some m) (Some k) v s = Done (rc, Some m') s' ->
    refused_during s s' ->
    rc <> 0 /\ m' = m.

(** [size / capacity], exactly. *)
Definition ratio (m : HashMap) : Q := Qmake (size m) (Z.to_pos (capacity m)).

(** The rational a finite float stands for (0 for the others). *)
Definition float_value (x : float) : Q :=
  match x with
  | S754_finite sign mantissa exponent =>
      ((if sign then -1 else 1) * inject_Z (Z.pos mantissa) * 2 ^ exponent)%Q
  | _ => 0%Q
  end.

(** "After a successful insert that took [m] to [m'], [size / capacity] is at
    most the maximum of the load factor and the ratio before the call." *)
Definition load_bound_claim (m m' : HashMap) : Prop :=
  (ratio m' <= float_value (load_factor m))%Q \/ (ratio m' <= ratio m)%Q.

(** The threshold is a positive finite binary32 number. [hashmap_init] stores
    what it is given unless that is [<= 0.0f], so it also keeps an infinity
    and a NaN. *)
Definition threshold_finite (m : HashMap) : Prop :=
  match load_factor m with
  | S754_finite false mantissa exponent => bounded 24 128 mantissa exponent = true
  | _ => False
  end.

(** ** Concrete maps, keys and values *)

(** The table [hashmap_init(&map, cap, NULL, NULL, 0.0f)] builds. *)
Definition fresh (cap : Z) : HashMap :=
  {| buckets := Some (replicate (Z.to_nat cap) []); capacity := cap; size := 0;
     hash_func := default_hash; eq_func := default_eq;
     load_factor := DEFAULT_LOAD_FACTOR |}.

(** The [int] 42 and the [double] 3.14159, little-endian. *)
Definition key_42 : buffer := [x2a; x00; x00; x00].
Definition val_pi : buffer := [x6e; x86; x1b; xf0; xf9; x21; x09; x40].

(** The strings "hello" and "world" with their terminators. *)
Definition key_hello : buffer := [x68; x65; x6c; x6c; x6f; x00].
Definition val_world : buffer := [x77; x6f; x72; x6c; x64; x00].

(** The status and the script a call ends with. *)
Definition status_of {A} (r : outcome (Z * A)) : option Z :=
  match r with
  | Done (rc, _) _ => Some rc
  | Fault => None
  end.

Definition script_of {A} (r : outcome A) : option script :=
  match r with
  | Done _ s => Some s
  | Fault => None
  end.

(** The map a call of [hashmap_insert] leaves. *)
Definition after_insert (m : HashMap) (k v : buffer) (s : script) : HashMap :=
  match hashmap_insert (Some m) (Some k) v s with
  | Done (_, Some m') _ => m'
  | _ => m
  end.

(** The map a call of [hashmap_resize] leaves. *)
Definition after_resize (m : HashMap) (n : Z) (s : script) : HashMap :=
  match hashmap_resize m n s with
  | Done (_, m') _ => m'
  | Fault => m
  end.

(** The map the growth step of [hashmap_insert] leaves. *)
Definition after_grow (m : HashMap) (s : script) : HashMap :=
  match insert_grow m s with
  | Done m' _ => m'
  | Fault => m
  end.

(** The map a call of [hashmap_remove] leaves. *)
Definition after_remove (m : HashMap) (k : buffer) : HashMap :=
  match hashmap_remove (Some m) (Some k) [] with
  | Done (_, Some m') _ => m'
  | _ => m
  end.

(** Thirteen one-byte keys, each stored with itself as value: one more pair
    than three quarters of sixteen buckets. *)
Definition thirteen_keys : list buffer :=
  [[x01]; [x02]; [x03]; [x04]; [x05]; [x06]; [x07]; [x08]; [x09]; [x0a];
   [x0b]; [x0c]; [x0d]].

Definition thirteen_pairs : HashMap :=
  fold_left (fun m k => after_insert m k k []) thirteen_keys (fresh 16).

(** [hashmap_get] returns 1 with a copy of [v]. *)
Definition gets (m : HashMap) (k v : buffer) : bool :=
  match hashmap_get (Some m) (Some k) true true [] with
  | Done {| status := 1; out_val := Some (Some copy); out_size := Some n |} _ =>
      (n =? len v) && (memcmp copy v =? 0) && (len copy =? len v)
  | _ => false
  end.

(** One pair in a table of one bucket: its load is 1. *)
Definition one_pair : HashMap := after_insert (fresh 1) key_42 val_pi [].

(** Scenarios A and B of the specification, in a table of two buckets. *)
Definition two_pairs : HashMap :=
  after_insert (after_insert (fresh 2) key_42 val_pi []) key_hello val_world [].

(** * The rest of the code: hashmap_destroy and the demonstration program *)

(** ** hashmap_free_entry and hashmap_destroy *)

(** The [HashMap] struct as memory holds it: before [hashmap_init] and after
    [hashmap_destroy] the two function pointers may be [NULL]. *)
Record HashMapMemory : Type := {
  mem_buckets : option (list chain);
  mem_capacity : Z;
  mem_size : Z;
  mem_hash_func : option hash_func_t;
  mem_eq_func : option eq_func_t;
  mem_load_factor : float
}.

(** The memory of an initialized map. *)
Definition memory_of (m : HashMap) : HashMapMemory :=
  {| mem_buckets := buckets m; mem_capacity := capacity m; mem_size := size m;
     mem_hash_func := Some (hash_func m); mem_eq_func := Some (eq_func m);
     mem_load_factor := load_factor m |}.

(** What [free] is handed: the key buffer, the value buffer or the node of an
    entry, or a bucket array. *)
Inductive block : Type :=
| KeyBlock (of_entry : HashMapEntry)
| ValueBlock (of_entry : HashMapEntry)
| EntryBlock (entry : HashMapEntry)
| BucketBlock (bs : list chain).

(** [hashmap_free_entry(entry)], as the blocks it frees, in order;
    [free(NULL)] frees nothing. *)
Definition hashmap_free_entry (entry : option HashMapEntry) : list block :=
  match entry with
  | Some e =>
      [KeyBlock e] ++
      match value e with
      | Some _ => [ValueBlock e]
      | None => []
      end ++
      [EntryBlock e]
  | None => []
  end.

(** The [while] loop of lines 83-88 over one chain. *)
Fixpoint destroy_chain (entry : chain) : list block :=
  match entry with
  | [] => []
  | e :: next => hashmap_free_entry (Some e) ++ destroy_chain next
  end.

(** The [for] loop of lines 80-89, from bucket [i] on, with [todo] buckets to
    go. *)
Fixpoint destroy_buckets (buckets : option (list chain)) (i : Z) (todo : nat)
    : M (list block) :=
  match todo with
  | O => ret []
  | S todo' =>
      entry <- bucket_at buckets i ;;
      rest <- destroy_buckets buckets (i + 1) todo' ;;
      ret (destroy_chain entry ++ rest)
  end.

(** The result is the new content of [*map] and the blocks freed, in order. *)
Definition hashmap_destroy (map : option HashMapMemory)
    : M (option HashMapMemory * list block) :=
  match map with
  | None => ret (None, [])
  | Some m =>
      match mem_buckets m with
      | None => ret (map, [])
      | Some bs =>
          freed <- destroy_buckets (mem_buckets m) 0 (Z.to_nat (mem_capacity m)) ;;
          ret (Some {| mem_buckets := None; mem_capacity := 0; mem_size := 0;
                       mem_hash_func := None; mem_eq_func := None;
                       mem_load_factor := float_zero |},
               freed ++ [BucketBlock bs])
      end
  end.

(** The struct [hashmap_destroy] leaves. *)
Definition destroyed : HashMapMemory :=
  {| mem_buckets := None; mem_capacity := 0; mem_size := 0;
     mem_hash_func := None; mem_eq_func := None; mem_load_factor := float_zero |}.

(** ** main ([src/main.c]) *)

(** The [struct Point] {10, 20} (two little-endian [int]) and the string
    "a point" with its terminator. *)
Definition key_point : buffer := [x0a; x00; x00; x00; x14; x00; x00; x00].
Definition val_a_point : buffer := [x61; x20; x70; x6f; x69; x6e; x74; x00].

(** The string "world", as [printf] prints it. *)
Definition text_world : buffer := [x77; x6f; x72; x6c; x64].

(** What the program prints, one constructor per call of [fprintf] and
    [printf], with the values handed to the format. *)
Inductive event : Type :=
| FailedToInitialize
| RetrievedDouble (retrieved : buffer)
| RetrievedString (text : buffer)
| RemovedKey (removed : bool).

(** The characters [printf] prints for [%s]: the bytes before the first
    terminator; running off the block is undefined behaviour. *)
Fixpoint c_string (bytes : buffer) : M buffer :=
  match bytes with
  | [] => fault
  | b :: rest =>
      if Byte.eqb b x00 then ret []
      else text <- c_string rest ;; ret (b :: text)
  end.

(** Lines 31-40: the lookup of the [int] key; [*(double * )out_val] reads
    eight bytes through the pointer. *)
Definition main_get_int (map : option HashMap) : M (list event) :=
  found <- hashmap_get map (Some key_42) true true ;;
  if status found =? 1
  then
    retrieved <- memcpy (default None (out_val found)) 8 ;;
    ret [RetrievedDouble retrieved]
  else ret [].

(** Lines 42-48: the lookup of the string key. *)
Definition main_get_string (map : option HashMap) : M (list event) :=
  found <- hashmap_get map (Some key_hello) true true ;;
  if status found =? 1
  then
    bytes <- deref (default None (out_val found)) ;;
    text <- c_string bytes ;;
    ret [RetrievedString text]
  else ret [].

(** Lines 13-29: the three inserts, their statuses unread. *)
Definition main_inserts (map : option HashMap) : M (option HashMap) :=
  r <- hashmap_insert map (Some key_42) val_pi ;;
  r <- hashmap_insert (snd r) (Some key_hello) val_world ;;
  r <- hashmap_insert (snd r) (Some key_point) val_a_point ;;
  ret (snd r).

(** [main]: the exit status and what was printed. [old] is what the memory
    of the local [map] holds before [hashmap_init]. The two calls of [free]
    on the copies are not recorded. *)
Definition main (old : HashMap) : M (Z * list event) :=
  init <- hashmap_init (Some old) 0 None None float_zero ;;
  if negb (fst init =? 0) then ret (1, [FailedToInitialize])
  else
    map <- main_inserts (snd init) ;;
    first <- main_get_int map ;;
    second <- main_get_string map ;;
    removed <- hashmap_remove map (Some key_42) ;;
    _ <- hashmap_destroy (option_map memory_of (snd removed)) ;;
    ret (0, first ++ second ++ [RemovedKey (fst removed =? 1)]).

(** ** Notions for the further properties *)

(** Every entry has a value buffer, of the length [value_size] says. *)
Definition values_ok (m : HashMap) : Prop :=
  forall e, e ∈ entries m ->
    exists v, value e = Some v /\ value_size e = len v.

(** The entries of the map are among those of a list. *)
Definition only_entries (m : HashMap) (l : list HashMapEntry) : Prop :=
  forall e, e ∈ entries m -> e ∈ l.

(** The entries whose node is among the blocks freed, in order. *)
Definition freed_entries (freed : list block) : list HashMapEntry :=
  omap (fun b => match b with EntryBlock e => Some e | _ => None end) freed.

(** The three pairs [main] inserts. *)
Definition main_pairs : list HashMapEntry :=
  [{| key := key_42; value := Some val_pi; value_size := 8 |};
   {| key := key_hello; value := Some val_world; value_size := 6 |};
   {| key := key_point; value := Some val_a_point; value_size := 8 |}].

(** The value buffer the walks find under a key. *)
Definition stored (m : HashMap) (k : buffer) : option buffer :=
  match hashmap_lookup m k with
  | Some e => value e
  | None => None
  end.

(** A dictionary from keys to values, and what one call makes of it: a key of
    length zero is refused by insert and remove, a resize changes nothing. *)
Definition dictionary : Type := buffer -> option buffer.

Definition buffer_eq_dec : forall a b : buffer, {a = b} + {a <> b} :=
  List.list_eq_dec Byte.byte_eq_dec.

Definition dict_op (o : op) (d : dictionary) : dictionary :=
  match o with
  | OpInsert [] _ => d
  | OpInsert k v => fun k' => if buffer_eq_dec k' k then Some v else d k'
  | OpRemove k => fun k' => if buffer_eq_dec k' k then None else d k'
  | OpResize _ => d
  end.

Definition dict_ops (ops : list op) (d : dictionary) : dictionary :=
  fold_left (fun d o => dict_op o d) ops d.

(** * Properties *)

(** ** The monad and the machine *)

Lemma wrap64_range z : 0 <= wrap64 z < 2 ^ 64.
Proof. unfold wrap64. apply Z.mod_pos_bound. lia. Qed.

Lemma keys_match_same_key m e k : keys_match m e k = same_key m (key e) k.
Proof. reflexivity. Qed.

Lemma home_lt m cap k : 1 <= cap -> (home m cap k < Z.to_nat cap)%nat.
Proof.
  intros Hcap. unfold home.
  pose proof (Z.mod_pos_bound (wrap64 (hash_func m k)) cap ltac:(lia)). lia.
Qed.

Lemma bucket_index_ok m k s :
  1 <= capacity m ->
  bucket_index m k s = Done (wrap64 (hash_func m k) mod capacity m) s.
Proof.
  intros Hcap. unfold bucket_index.
  destruct (capacity m =? 0) eqn:E; [lia | reflexivity].
Qed.

Lemma bucket_at_ok bs i c s :
  bs !! Z.to_nat i = Some c -> bucket_at (Some bs) i s = Done c s.
Proof. intros H. unfold bucket_at, bind, deref, ret. simpl. now rewrite H. Qed.

(** Under [table_ok] the walk of a key starts at a chain of the table. *)
Lemma home_chain m k :
  table_ok m ->
  exists bs c, buckets m = Some bs /\ bs !! home m (capacity m) k = Some c.
Proof.
  intros (bs & Hb & Hlen & Hcap & _).
  destruct (lookup_lt_is_Some_2 bs (home m (capacity m) k)) as [c Hc].
  - pose proof (home_lt m (capacity m) k Hcap). lia.
  - eauto.
Qed.

(** ** Walking a chain *)

Lemma chain_find_split m k c e :
  chain_find m k c = Some e ->
  exists c1 c2, c = c1 ++ e :: c2 /\ chain_find m k c1 = None /\
                keys_match m e k = true.
Proof.
  induction c as [|x c IH]; simpl; [discriminate|].
  destruct (keys_match m x k) eqn:E.
  - intros [= ->]. exists [], c. auto.
  - intros H. destruct (IH H) as (c1 & c2 & -> & Hn & Hm).
    exists (x :: c1), c2. simpl. rewrite E. auto.
Qed.

Lemma chain_find_None m k c :
  chain_find m k c = None <-> forall e, e ∈ c -> keys_match m e k = false.
Proof.
  induction c as [|x c IH]; simpl.
  - split; [intros _ e He; inversion He | reflexivity].
  - destruct (keys_match m x k) eqn:E.
    + split; [discriminate|]. intros H. rewrite (H x) in E; [discriminate|left].
    + rewrite IH. split.
      * intros H e He. inversion He; subst; auto.
      * intros H e He. apply H. now right.
Qed.

Lemma chain_find_app m k c1 c2 :
  chain_find m k c1 = None -> chain_find m k (c1 ++ c2) = chain_find m k c2.
Proof.
  induction c1 as [|x c1 IH]; simpl; [reflexivity|].
  destruct (keys_match m x k); [discriminate | exact IH].
Qed.

Lemma get_walk_find m k out c s :
  get_walk m k out c s =
  match chain_find m k c with
  | None => Done {| status := 0; out_val := None; out_size := None |} s
  | Some e => get_walk m k out [e] s
  end.
Proof.
  induction c as [|x c IH]; simpl; [reflexivity|].
  destruct (keys_match m x k) eqn:E; [simpl; now rewrite E | exact IH].
Qed.

Lemma insert_walk_absent m k v c s :
  chain_find m k c = None -> insert_walk m k v c s = Done None s.
Proof.
  revert s. induction c as [|x c IH]; intros s; simpl; [reflexivity|].
  destruct (keys_match m x k); [discriminate|].
  intros H. unfold bind. now rewrite (IH s H).
Qed.

Lemma insert_walk_present m k v c1 e c2 s :
  chain_find m k c1 = None -> keys_match m e k = true ->
  insert_walk m k v (c1 ++ e :: c2) s =
  match malloc s with
  | Done granted s' =>
      Done (Some (if granted then 0 else -1, c1 ++ updated e v granted :: c2)) s'
  | Fault => Fault
  end.
Proof.
  intros Hn He. revert s Hn.
  induction c1 as [|x c1 IH]; intros s Hn; simpl in *.
  - rewrite He. unfold bind. destruct (malloc s) as [[|] s'|]; reflexivity.
  - destruct (keys_match m x k); [discriminate|].
    unfold bind. rewrite (IH s Hn).
    destruct (malloc s) as [[|] s'|]; reflexivity.
Qed.

Lemma remove_walk_absent m k c :
  chain_find m k c = None -> remove_walk m k c = None.
Proof.
  induction c as [|x c IH]; simpl; [reflexivity|].
  destruct (keys_match m x k); [discriminate|].
  intros H. now rewrite (IH H).
Qed.

Lemma remove_walk_present m k c1 e c2 :
  chain_find m k c1 = None -> keys_match m e k = true ->
  remove_walk m k (c1 ++ e :: c2) = Some (c1 ++ c2).
Proof.
  intros Hn He. induction c1 as [|x c1 IH]; simpl in *.
  - now rewrite He.
  - destruct (keys_match m x k); [discriminate|]. now rewrite (IH Hn).
Qed.

Lemma malloc_total s : exists granted s', malloc s = Done granted s'.
Proof. destruct s as [|b s]; simpl; eauto. Qed.

(** ** The bucket array *)

Lemma concat_delete (bs : list chain) i c :
  bs !! i = Some c -> concat bs ≡ₚ c ++ concat (delete i bs).
Proof.
  revert i. induction bs as [|b bs IH]; intros [|i] H; simpl in *; try discriminate.
  - now injection H as ->.
  - rewrite (IH i H). rewrite !app_assoc.
    apply Permutation_app_tail, Permutation_app_comm.
Qed.

Lemma concat_insert (bs : list chain) i c :
  (i < length bs)%nat -> concat (<[i:=c]> bs) ≡ₚ c ++ concat (delete i bs).
Proof.
  revert i. induction bs as [|b bs IH]; intros [|i] H; simpl in *; try lia.
  - reflexivity.
  - rewrite (IH i ltac:(lia)). rewrite !app_assoc.
    apply Permutation_app_tail, Permutation_app_comm.
Qed.

Lemma home_same_funcs m m' cap k :
  hash_func m' = hash_func m -> home m' cap k = home m cap k.
Proof. intros H. unfold home. now rewrite H. Qed.

Lemma placed_same_funcs m m' cap bs :
  hash_func m' = hash_func m -> placed m cap bs -> placed m' cap bs.
Proof.
  intros H Hp i c e Hc He. rewrite (home_same_funcs m m' cap _ H). eauto.
Qed.

Lemma placed_insert m cap bs i c :
  placed m cap bs -> (forall e, e ∈ c -> home m cap (key e) = i) ->
  placed m cap (<[i:=c]> bs).
Proof.
  intros Hp Hc j c' e Hj He.
  apply list_lookup_insert_Some in Hj as [(-> & -> & _)|(Hne & Hj)]; eauto.
Qed.

Lemma placed_replicate m cap n : placed m cap (replicate n []).
Proof.
  intros i c e Hc He. apply lookup_replicate in Hc as [-> _]. inversion He.
Qed.

Lemma placed_chain m cap bs i c e :
  placed m cap bs -> bs !! i = Some c -> e ∈ c -> home m cap (key e) = i.
Proof. intros Hp. apply Hp. Qed.

(** ** Rehashing *)

Section Rehash.
Variables (m : HashMap) (new_capacity : Z).
Hypothesis Hcap : 1 <= new_capacity.

Lemma rehash_entry_spec nb e :
  rehash_target m new_capacity nb ->
  rehash_target m new_capacity (rehash_entry m new_capacity nb e) /\
  concat (rehash_entry m new_capacity nb e) ≡ₚ e :: concat nb.
Proof.
  intros [Hlen Hp]. unfold rehash_entry.
  fold (home m new_capacity (key e)).
  pose proof (home_lt m new_capacity (key e) Hcap) as Hlt.
  destruct (lookup_lt_is_Some_2 nb (home m new_capacity (key e))) as [c Hc];
    [lia|].
  assert (alter (cons e) (home m new_capacity (key e)) nb =
          <[home m new_capacity (key e) := e :: c]> nb) as ->.
  { rewrite list_insert_alter. apply list_alter_ext; [|reflexivity].
    intros x Hx. congruence. }
  split; [split|].
  - now rewrite length_insert.
  - apply placed_insert; [exact Hp|].
    intros e' He'. inversion He'; subst; [reflexivity|eauto].
  - rewrite concat_insert by lia. rewrite (concat_delete nb _ c Hc).
    reflexivity.
Qed.

Lemma rehash_chain_spec c nb :
  rehash_target m new_capacity nb ->
  rehash_target m new_capacity (fold_left (rehash_entry m new_capacity) c nb) /\
  concat (fold_left (rehash_entry m new_capacity) c nb) ≡ₚ c ++ concat nb.
Proof.
  revert nb. induction c as [|e c IH]; intros nb Hg; simpl; [auto|].
  destruct (rehash_entry_spec nb e Hg) as [Hg' Hperm].
  destruct (IH _ Hg') as [Hg'' Hperm'].
  split; [exact Hg''|]. rewrite Hperm', Hperm.
  symmetry. apply Permutation_middle.
Qed.

Lemma rehash_all_spec bs nb :
  rehash_target m new_capacity nb ->
  rehash_target m new_capacity (rehash_all m new_capacity bs nb) /\
  concat (rehash_all m new_capacity bs nb) ≡ₚ concat bs ++ concat nb.
Proof.
  unfold rehash_all. revert nb.
  induction bs as [|c bs IH]; intros nb Hg; simpl; [auto|].
  destruct (rehash_chain_spec c nb Hg) as [Hg' Hperm].
  destruct (IH _ Hg') as [Hg'' Hperm'].
  split; [exact Hg''|]. rewrite Hperm', Hperm.
  rewrite <- !app_assoc. rewrite (app_assoc (concat bs)).
  rewrite (Permutation_app_comm (concat bs) c). now rewrite <- app_assoc.
Qed.

Lemma rehash_buckets_run bs :
  buckets m = Some bs ->
  forall todo i nb s,
    (i + todo = length bs)%nat ->
    rehash_buckets m new_capacity (Z.of_nat i) todo nb s =
    Done (rehash_all m new_capacity (drop i bs) nb) s.
Proof.
  intros Hb. induction todo as [|todo IH]; intros i nb s Hlen; simpl.
  - rewrite drop_ge by lia. reflexivity.
  - destruct (lookup_lt_is_Some_2 bs i) as [c Hc]; [lia|].
    unfold bind. rewrite Hb.
    rewrite (bucket_at_ok bs (Z.of_nat i) c) by now rewrite Nat2Z.id.
    replace (Z.of_nat i + 1) with (Z.of_nat (S i)) by lia.
    rewrite IH by lia.
    rewrite (drop_S bs c i Hc). reflexivity.
Qed.
End Rehash.

(** ** hashmap_resize on a well-formed table *)

Lemma same_funcs_refl m : same_funcs m m.
Proof. repeat split. Qed.

Lemma same_funcs_trans m1 m2 m3 :
  same_funcs m1 m2 -> same_funcs m2 m3 -> same_funcs m1 m3.
Proof. intros (?&?&?) (?&?&?). repeat split; congruence. Qed.

Lemma calloc_total n sz s : exists granted s', calloc n sz s = Done granted s'.
Proof.
  unfold calloc. destruct (n * sz <? 2 ^ 64); [apply malloc_total|].
  unfold ret. eauto.
Qed.

Lemma calloc_granted_fits n sz s s' :
  calloc n sz s = Done true s' -> n * sz < 2 ^ 64.
Proof.
  unfold calloc. destruct (n * sz <? 2 ^ 64) eqn:E; [lia|]. discriminate.
Qed.

(** A resize that does not return 0 leaves the map as it was. *)
Lemma hashmap_resize_failure m n s rc m' s' :
  hashmap_resize m n s = Done (rc, m') s' -> rc <> 0 -> m' = m.
Proof.
  unfold hashmap_resize. destruct (n <? 1); [now intros [= <- <- <-]|].
  unfold bind. destruct (calloc n sizeof_ptr s) as [[|] s1|]; simpl;
    [|now intros [= <- <- <-]|discriminate].
  destruct (rehash_buckets _ _ _ _ _ s1); [|discriminate].
  intros [= <- <- <-]. congruence.
Qed.

Lemma hashmap_resize_spec m n s :
  table_ok m ->
  exists rc m' s',
    hashmap_resize m n s = Done (rc, m') s' /\
    ((rc = -1 /\ m' = m /\
      (n < 1 /\ s' = s \/ 1 <= n /\ calloc n sizeof_ptr s = Done false s')) \/
     (rc = 0 /\ 1 <= n /\ calloc n sizeof_ptr s = Done true s' /\
      capacity m' = n /\ size m' = size m /\ same_funcs m m' /\
      table_ok m' /\ entries m' ≡ₚ entries m)).
Proof.
  intros (bs & Hb & Hlen & Hcap & Hp). unfold hashmap_resize.
  destruct (n <? 1) eqn:En.
  { exists (-1), m, s. split; [reflexivity|]. left. repeat split. left.
    split; [lia|reflexivity]. }
  unfold bind.
  destruct (calloc_total n sizeof_ptr s) as ([|] & s1 & Hc); rewrite Hc; simpl.
  2:{ exists (-1), m, s1. split; [reflexivity|]. left. repeat split. right.
      split; [lia|reflexivity]. }
  change 0 with (Z.of_nat 0).
  rewrite (rehash_buckets_run m n bs Hb (Z.to_nat (capacity m)) 0%nat)
    by (simpl; lia).
  rewrite drop_0.
  destruct (rehash_all_spec m n ltac:(lia) bs (replicate (Z.to_nat n) []))
    as [[Hlen' Hp'] Hperm].
  { split; [apply length_replicate | apply placed_replicate]. }
  eexists 0, _, s1. split; [reflexivity|]. right.
  split; [reflexivity|]. split; [lia|]. split; [reflexivity|].
  split; [reflexivity|]. split; [reflexivity|]. split; [now repeat split|].
  split.
  - eexists. split; [reflexivity|]. simpl. split; [lia|]. split; [lia|].
    exact Hp'.
  - unfold entries. simpl. rewrite Hb. simpl. rewrite Hperm.
    clear. induction (Z.to_nat n) as [|k IH]; simpl;
      [now rewrite app_nil_r | exact IH].
Qed.

(** ** Storing a chain back into its bucket *)

Lemma elem_of_concat (bs : list chain) (e : HashMapEntry) :
  e ∈ concat bs <-> exists i c, bs !! i = Some c /\ e ∈ c.
Proof.
  induction bs as [|b bs IH]; simpl.
  - split; [intros H; inversion H | intros (i & c & H & _); destruct i; discriminate].
  - rewrite elem_of_app, IH. split.
    + intros [H|(i & c & Hc & He)]; [exists 0%nat, b; auto | exists (S i), c; auto].
    + intros ([|i] & c & Hc & He); simpl in Hc; [injection Hc as ->; auto|].
      right. eauto.
Qed.

Lemma elem_of_chain_entries m bs i c e :
  buckets m = Some bs -> bs !! i = Some c -> e ∈ c -> e ∈ entries m.
Proof.
  intros Hb Hc He. unfold entries. rewrite Hb. simpl.
  apply elem_of_concat. eauto.
Qed.

Lemma store_bucket_spec m bs i c0 c :
  table_ok m -> buckets m = Some bs -> bs !! i = Some c0 ->
  (forall e, e ∈ c -> home m (capacity m) (key e) = i) ->
  table_ok (store_bucket m (Z.of_nat i) c) /\
  exists rest,
    entries m ≡ₚ c0 ++ rest /\
    entries (store_bucket m (Z.of_nat i) c) ≡ₚ c ++ rest.
Proof.
  intros (bs' & Hb' & Hlen & Hcap & Hp) Hb Hc0 Hc.
  assert (bs' = bs) as -> by congruence.
  pose proof (lookup_lt_Some _ _ _ Hc0) as Hlt.
  unfold store_bucket, set_buckets, entries, table_ok. simpl.
  rewrite Hb. simpl. rewrite Nat2Z.id. split.
  - eexists. split; [reflexivity|]. rewrite length_insert.
    split; [exact Hlen|]. split; [exact Hcap|].
    apply placed_insert; [exact Hp | exact Hc].
  - exists (concat (delete i bs)). split.
    + now apply concat_delete.
    + now apply concat_insert.
Qed.

Lemma hashmap_create_entry_total k v s :
  exists r s',
    hashmap_create_entry k v s = Done r s' /\
    (r = None \/ r = Some {| key := k; value := Some v; value_size := len v |}).
Proof.
  unfold hashmap_create_entry, bind, ret.
  destruct (malloc_total s) as ([|] & s1 & ->); simpl; [|eauto].
  destruct (malloc_total s1) as ([|] & s2 & ->); simpl; [|eauto].
  destruct (malloc_total s2) as ([|] & s3 & ->); simpl; eauto.
Qed.

(** ** Placing a pair (lines 118-149) on a well-formed table *)

Lemma hashmap_lookup_chain m bs c k :
  buckets m = Some bs -> bs !! home m (capacity m) k = Some c ->
  hashmap_lookup m k = chain_find m k c.
Proof. intros Hb Hc. unfold hashmap_lookup. now rewrite Hb, Hc. Qed.

Lemma insert_place_spec m k v s :
  table_ok m ->
  exists rc m' s',
    insert_place m k v s = Done (rc, m') s' /\
    same_funcs m m' /\ capacity m' = capacity m /\ table_ok m' /\
    match hashmap_lookup m k with
    | Some e =>
        exists granted rest,
          malloc s = Done granted s' /\ rc = (if granted then 0 else -1) /\
          size m' = size m /\
          entries m ≡ₚ e :: rest /\ entries m' ≡ₚ updated e v granted :: rest
    | None =>
        exists new_entry,
          hashmap_create_entry k v s = Done new_entry s' /\
          match new_entry with
          | None => rc = -1 /\ m' = m
          | Some e =>
              rc = 0 /\
              e = {| key := k; value := Some v; value_size := len v |} /\
              size m' = wrap64 (size m + 1) /\ entries m' ≡ₚ e :: entries m
          end
    end.
Proof.
  intros Hok. destruct (home_chain m k Hok) as (bs & c & Hb & Hc).
  pose proof Hok as (bs' & Hb' & Hlen & Hcap & Hp).
  assert (bs' = bs) as -> by congruence.
  rewrite (hashmap_lookup_chain m bs c k Hb Hc).
  unfold insert_place, bind. rewrite bucket_index_ok by exact Hcap.
  rewrite Hb. rewrite (bucket_at_ok bs _ c) by exact Hc.
  assert (Z.of_nat (home m (capacity m) k) =
          wrap64 (hash_func m k) mod capacity m) as Hidx.
  { unfold home. apply Z2Nat.id, Z.mod_pos_bound. lia. }
  destruct (chain_find m k c) as [e|] eqn:Hfind.
  - destruct (chain_find_split m k c e Hfind) as (c1 & c2 & -> & Hn & He).
    rewrite (insert_walk_present m k v c1 e c2 s Hn He).
    destruct (malloc_total s) as (granted & s' & Hm). rewrite Hm.
    destruct (store_bucket_spec m bs (home m (capacity m) k) (c1 ++ e :: c2)
                (c1 ++ updated e v granted :: c2) Hok Hb Hc)
      as (Hok' & rest & Hperm & Hperm').
    { intros e' He'. rewrite elem_of_app, elem_of_cons in He'.
      destruct He' as [He'|[->|He']].
      - apply (Hp _ _ _ Hc), elem_of_app. now left.
      - replace (key (updated e v granted)) with (key e)
          by (destruct granted; reflexivity).
        apply (Hp _ _ _ Hc), elem_of_app. right. left.
      - apply (Hp _ _ _ Hc), elem_of_app. right. now right. }
    rewrite Hidx in Hok', Hperm'.
    eexists _, _, s'. split; [reflexivity|].
    split; [now repeat split|]. split; [reflexivity|]. split; [exact Hok'|].
    exists granted, (c1 ++ c2 ++ rest). split; [reflexivity|].
    split; [reflexivity|]. split; [reflexivity|]. split.
    + rewrite Hperm. rewrite <- app_assoc. simpl.
      symmetry. apply Permutation_middle.
    + rewrite Hperm'. rewrite <- app_assoc. simpl.
      symmetry. apply Permutation_middle.
  - rewrite (insert_walk_absent m k v c s Hfind).
    destruct (hashmap_create_entry_total k v s) as (r & s' & Hr & Hcase).
    rewrite Hr. destruct Hcase as [->| ->].
    + exists (-1), m, s'. split; [reflexivity|].
      split; [apply same_funcs_refl|]. split; [reflexivity|].
      split; [exact Hok|]. exists None. auto.
    + set (e := {| key := k; value := Some v; value_size := len v |}).
      destruct (store_bucket_spec m bs (home m (capacity m) k) c (e :: c)
                  Hok Hb Hc) as (Hok' & rest & Hperm & Hperm').
      { intros e' He'. apply elem_of_cons in He' as [->|He'];
          [reflexivity | exact (Hp _ _ _ Hc He')]. }
      rewrite Hidx in Hok', Hperm'.
      eexists 0, _, s'. split; [reflexivity|].
      split; [now repeat split|]. split; [reflexivity|].
      split; [exact Hok'|]. exists (Some e). split; [reflexivity|].
      split; [reflexivity|]. split; [reflexivity|]. split; [reflexivity|].
      change (entries (set_size ?x _)) with (entries x).
      rewrite Hperm', Hperm. reflexivity.
Qed.

(** ** hashmap_remove on a well-formed table *)

Lemma hashmap_remove_spec m k s :
  table_ok m -> len k <> 0 ->
  exists rc m',
    hashmap_remove (Some m) (Some k) s = Done (rc, Some m') s /\
    same_funcs m m' /\ capacity m' = capacity m /\ table_ok m' /\
    match hashmap_lookup m k with
    | Some e =>
        rc = 1 /\ size m' = wrap64 (size m - 1) /\ entries m ≡ₚ e :: entries m'
    | None => rc = 0 /\ m' = m
    end.
Proof.
  intros Hok Hk. destruct (home_chain m k Hok) as (bs & c & Hb & Hc).
  pose proof Hok as (bs' & Hb' & Hlen & Hcap & Hp).
  assert (bs' = bs) as -> by congruence.
  rewrite (hashmap_lookup_chain m bs c k Hb Hc).
  unfold hashmap_remove, bind.
  destruct (len k =? 0) eqn:E; [lia|].
  rewrite bucket_index_ok by exact Hcap.
  rewrite Hb. rewrite (bucket_at_ok bs _ c) by exact Hc.
  assert (Z.of_nat (home m (capacity m) k) =
          wrap64 (hash_func m k) mod capacity m) as Hidx.
  { unfold home. apply Z2Nat.id, Z.mod_pos_bound. lia. }
  destruct (chain_find m k c) as [e|] eqn:Hfind.
  - destruct (chain_find_split m k c e Hfind) as (c1 & c2 & -> & Hn & He).
    rewrite (remove_walk_present m k c1 e c2 Hn He).
    destruct (store_bucket_spec m bs (home m (capacity m) k) (c1 ++ e :: c2)
                (c1 ++ c2) Hok Hb Hc) as (Hok' & rest & Hperm & Hperm').
    { intros e' He'. apply (Hp _ _ _ Hc).
      rewrite elem_of_app, elem_of_cons. rewrite elem_of_app in He'. tauto. }
    rewrite Hidx in Hok', Hperm'.
    eexists 1, _. split; [reflexivity|].
    split; [now repeat split|]. split; [reflexivity|]. split; [exact Hok'|].
    split; [reflexivity|]. split; [reflexivity|].
    change (entries (set_size ?x _)) with (entries x).
    rewrite Hperm, Hperm'. rewrite <- !app_assoc. simpl.
    symmetry. apply Permutation_middle.
  - rewrite (remove_walk_absent m k c Hfind).
    exists 0, m. split; [reflexivity|].
    split; [apply same_funcs_refl|]. auto.
Qed.

(** ** The growth step (lines 106-116) on a well-formed table *)

Lemma insert_grow_spec m s :
  table_ok m ->
  exists m1 s1,
    insert_grow m s = Done m1 s1 /\
    same_funcs m m1 /\ size m1 = size m /\ table_ok m1 /\
    entries m1 ≡ₚ entries m /\
    ((m1 = m /\
      (load_exceeded m = false /\ s1 = s \/
       load_exceeded m = true /\
       exists rc, hashmap_resize m (wrap64 (capacity m * 2)) s = Done (rc, m) s1
                  /\ rc <> 0)) \/
     (load_exceeded m = true /\ capacity m1 = wrap64 (capacity m * 2) /\
      calloc (wrap64 (capacity m * 2)) sizeof_ptr s = Done true s1)).
Proof.
  intros Hok. unfold insert_grow.
  destruct (load_exceeded m) eqn:El.
  - destruct (hashmap_resize_spec m (wrap64 (capacity m * 2)) s Hok)
      as (rc & m' & s' & Hr & Hcase).
    unfold bind. rewrite Hr. simpl.
    exists m', s'. split; [reflexivity|].
    destruct Hcase as [(-> & -> & _)|(-> & Hn & Hc & Hcap & Hsz & Hf & Hok' & Hperm)].
    + split; [apply same_funcs_refl|]. split; [reflexivity|].
      split; [exact Hok|]. split; [reflexivity|]. left. split; [reflexivity|].
      right. split; [reflexivity|]. exists (-1). split; [reflexivity | lia].
    + repeat (split; [assumption|]). right. auto.
  - exists m, s. split; [reflexivity|].
    split; [apply same_funcs_refl|]. split; [reflexivity|].
    split; [exact Hok|]. split; [reflexivity|]. left. auto.
Qed.

(** ** hashmap_get on a well-formed table *)

Lemma hashmap_get_lookup m k ov os s :
  table_ok m -> len k <> 0 ->
  hashmap_get (Some m) (Some k) ov os s =
  match hashmap_lookup m k with
  | Some e => get_walk m k (ov && os) [e] s
  | None => Done {| status := 0; out_val := None; out_size := None |} s
  end.
Proof.
  intros Hok Hk. destruct (home_chain m k Hok) as (bs & c & Hb & Hc).
  pose proof Hok as (_ & _ & _ & Hcap & _).
  rewrite (hashmap_lookup_chain m bs c k Hb Hc).
  unfold hashmap_get, bind.
  destruct (len k =? 0) eqn:E; [lia|].
  rewrite bucket_index_ok by exact Hcap.
  rewrite Hb. rewrite (bucket_at_ok bs _ c) by exact Hc.
  apply get_walk_find.
Qed.

Lemma hashmap_lookup_match m k e :
  hashmap_lookup m k = Some e -> keys_match m e k = true.
Proof.
  unfold hashmap_lookup. destruct (buckets m) as [bs|]; [|discriminate].
  destruct (bs !! _) as [c|]; [|discriminate].
  intros H. now destruct (chain_find_split m k c e H) as (_ & _ & _ & _ & ?).
Qed.

(** ** Distinct keys and lawful strategy functions *)

Lemma same_key_funcs m m' a b :
  same_funcs m m' -> same_key m' a b = same_key m a b.
Proof. intros (_ & He & _). unfold same_key. now rewrite He. Qed.

Lemma keys_match_funcs m m' e k :
  same_funcs m m' -> keys_match m' e k = keys_match m e k.
Proof. intros H. rewrite !keys_match_same_key. now apply same_key_funcs. Qed.

Lemma lawful_funcs m m' : same_funcs m m' -> lawful m -> lawful m'.
Proof.
  intros Hf [Hr Hs Ht Hh]. pose proof Hf as (Hhash & _ & _).
  split; intros *; rewrite ?(same_key_funcs m m') by exact Hf; rewrite ?Hhash;
    eauto.
Qed.

Lemma distinct_funcs m m' l :
  same_funcs m m' -> distinct_keys m l -> distinct_keys m' l.
Proof.
  intros Hf. induction 1 as [|k l Hk Hd IH]; constructor; [|exact IH].
  intros k' Hk'. rewrite (same_key_funcs m m') by exact Hf. auto.
Qed.

Lemma same_key_false_sym m a b :
  lawful m -> same_key m a b = false -> same_key m b a = false.
Proof.
  intros Hl H. destruct (same_key m b a) eqn:E; [|reflexivity].
  apply (same_key_sym m Hl) in E. congruence.
Qed.

Lemma distinct_perm m l l' :
  lawful m -> l ≡ₚ l' -> distinct_keys m l -> distinct_keys m l'.
Proof.
  intros Hl Hperm. induction Hperm as [|x l l' Hp IH|x y l|l l' l'' _ IH1 _ IH2];
    intros Hd.
  - exact Hd.
  - inversion Hd as [|? ? Hx Hd']; subst. constructor; [|auto].
    intros k' Hk'. apply Hx. now rewrite Hp.
  - inversion Hd as [|? ? Hy Hd']; subst.
    inversion Hd' as [|? ? Hx Hd'']; subst.
    constructor; [|constructor; [|exact Hd'']].
    + intros k' Hk'. apply elem_of_cons in Hk' as [->|Hk']; [|auto].
      apply same_key_false_sym; [exact Hl|]. apply Hy. left.
    + intros k' Hk'. apply Hy. now right.
  - auto.
Qed.

Lemma distinct_tail m k l : distinct_keys m (k :: l) -> distinct_keys m l.
Proof. now inversion 1. Qed.

Lemma distinct_head m k l k' :
  distinct_keys m (k :: l) -> k' ∈ l -> same_key m k k' = false.
Proof. inversion 1; auto. Qed.

Lemma distinct_unique m l e e' :
  lawful m -> distinct_keys m (key <$> l) -> e ∈ l -> e' ∈ l ->
  same_key m (key e) (key e') = true -> e = e'.
Proof.
  intros Hl. induction l as [|x l IH]; intros Hd He He' Hs.
  - inversion He.
  - simpl in Hd.
    apply elem_of_cons in He as [->|He]; apply elem_of_cons in He' as [->|He'].
    + reflexivity.
    + rewrite (distinct_head m _ _ (key e') Hd) in Hs; [discriminate|].
      now apply list_elem_of_fmap_2.
    + apply (same_key_sym m Hl) in Hs.
      rewrite (distinct_head m _ _ (key e) Hd) in Hs; [discriminate|].
      now apply list_elem_of_fmap_2.
    + apply IH; auto. eapply distinct_tail; eauto.
Qed.

Lemma home_same_key m cap a b :
  lawful m -> same_key m a b = true -> home m cap a = home m cap b.
Proof. intros Hl H. unfold home. now rewrite (same_key_hash m Hl a b H). Qed.

(** ** The entry a key resolves to, in terms of all the entries *)

Lemma hashmap_lookup_elem m k e :
  hashmap_lookup m k = Some e -> e ∈ entries m /\ keys_match m e k = true.
Proof.
  intros H. split; [|now apply hashmap_lookup_match].
  unfold hashmap_lookup in H. destruct (buckets m) as [bs|] eqn:Hb; [|discriminate].
  destruct (bs !! _) as [c|] eqn:Hc; [|discriminate].
  destruct (chain_find_split m k c e H) as (c1 & c2 & -> & _ & _).
  eapply elem_of_chain_entries; eauto. apply elem_of_app. right. left.
Qed.

Lemma hashmap_lookup_Some m k e :
  valid m ->
  hashmap_lookup m k = Some e <-> e ∈ entries m /\ keys_match m e k = true.
Proof.
  intros (Hok & Hu & Hl). split; [apply hashmap_lookup_elem|].
  intros [He Hm].
  destruct (home_chain m k Hok) as (bs & c & Hb & Hc).
  pose proof Hok as (bs' & Hb' & _ & _ & Hp).
  assert (bs' = bs) as -> by congruence.
  assert (e ∈ c) as Hec.
  { unfold entries in He. rewrite Hb in He. simpl in He.
    apply elem_of_concat in He as (i & c' & Hc' & He).
    pose proof (Hp _ _ _ Hc' He) as Hi.
    rewrite (home_same_key m _ (key e) k Hl Hm) in Hi. congruence. }
  rewrite (hashmap_lookup_chain m bs c k Hb Hc).
  destruct (chain_find m k c) as [e'|] eqn:Hfind.
  - f_equal. destruct (chain_find_split m k c e' Hfind) as (c1 & c2 & -> & _ & Hm').
    apply (distinct_unique m (entries m)); auto.
    + eapply elem_of_chain_entries; eauto. apply elem_of_app. right. left.
    + rewrite keys_match_same_key in Hm, Hm'.
      eapply (same_key_trans m Hl); [exact Hm'|].
      now apply (same_key_sym m Hl).
  - rewrite chain_find_None in Hfind. rewrite (Hfind e Hec) in Hm. discriminate.
Qed.

Lemma hashmap_lookup_None m k :
  valid m ->
  hashmap_lookup m k = None <->
  forall e, e ∈ entries m -> keys_match m e k = false.
Proof.
  intros Hv. split.
  - intros Hn e He. destruct (keys_match m e k) eqn:E; [|reflexivity].
    rewrite (proj2 (hashmap_lookup_Some m k e Hv)) in Hn; [discriminate|auto].
  - intros H. destruct (hashmap_lookup m k) as [e|] eqn:E; [|reflexivity].
    apply hashmap_lookup_elem in E as [He Hm]. rewrite (H e He) in Hm.
    discriminate.
Qed.

(** Lookups of a key do not see entries that do not match it. *)
Lemma hashmap_lookup_frame m m' k x x' rest :
  valid m -> valid m' -> same_funcs m m' ->
  entries m ≡ₚ x ++ rest -> entries m' ≡ₚ x' ++ rest ->
  (forall e, e ∈ x -> keys_match m e k = false) ->
  (forall e, e ∈ x' -> keys_match m e k = false) ->
  hashmap_lookup m' k = hashmap_lookup m k.
Proof.
  intros Hv Hv' Hf Hp Hp' Hx Hx'.
  destruct (hashmap_lookup m k) as [e|] eqn:E.
  - apply hashmap_lookup_elem in E as [He Hm].
    apply hashmap_lookup_Some; [exact Hv'|].
    rewrite (keys_match_funcs m m') by exact Hf. split; [|exact Hm].
    rewrite Hp'. rewrite Hp in He. rewrite elem_of_app in *.
    destruct He as [He|He]; [|now right].
    rewrite (Hx e He) in Hm. discriminate.
  - rewrite hashmap_lookup_None in E by exact Hv.
    apply hashmap_lookup_None; [exact Hv'|]. intros e He.
    rewrite (keys_match_funcs m m') by exact Hf.
    rewrite Hp' in He. apply elem_of_app in He as [He|He]; [auto|].
    apply E. rewrite Hp. apply elem_of_app. now right.
Qed.

(** ** The operations keep a map valid *)

Lemma valid_keys m m' :
  valid m -> same_funcs m m' -> table_ok m' ->
  key <$> entries m' ≡ₚ key <$> entries m -> valid m'.
Proof.
  intros (_ & Hu & Hl) Hf Hok' Hperm. split; [exact Hok'|].
  split; [|now apply (lawful_funcs m)].
  apply (distinct_funcs m); [exact Hf|].
  eapply distinct_perm; [exact Hl | symmetry; exact Hperm | exact Hu].
Qed.

Lemma valid_perm m m' :
  valid m -> same_funcs m m' -> table_ok m' ->
  entries m' ≡ₚ entries m -> valid m'.
Proof. intros Hv Hf Hok' Hp. apply (valid_keys m); auto. now rewrite Hp. Qed.

Lemma hashmap_lookup_perm m m' k :
  valid m -> valid m' -> same_funcs m m' -> entries m' ≡ₚ entries m ->
  hashmap_lookup m' k = hashmap_lookup m k.
Proof.
  intros Hv Hv' Hf Hp.
  apply (hashmap_lookup_frame m m' k [] [] (entries m)); auto;
    intros e He; inversion He.
Qed.

Lemma key_updated e v granted : key (updated e v granted) = key e.
Proof. now destruct granted. Qed.

Lemma hashmap_resize_valid m n s rc m' s' :
  valid m -> hashmap_resize m n s = Done (rc, m') s' ->
  valid m' /\ same_funcs m m' /\ size m' = size m /\
  entries m' ≡ₚ entries m /\
  (forall k, hashmap_lookup m' k = hashmap_lookup m k).
Proof.
  intros Hv Hr. pose proof Hv as (Hok & _).
  destruct (hashmap_resize_spec m n s Hok) as (rc0 & m0 & s0 & Hr0 & Hcase).
  rewrite Hr in Hr0. injection Hr0 as <- <- <-.
  destruct Hcase as [(_ & -> & _)|(_ & _ & _ & _ & Hsz & Hf & Hok' & Hp)].
  - split; [exact Hv|]. split; [apply same_funcs_refl|]. auto.
  - assert (valid m') as Hv' by now apply (valid_perm m).
    repeat (split; [assumption|]). intros k. now apply hashmap_lookup_perm.
Qed.

Lemma insert_grow_valid m s :
  valid m ->
  exists m1 s1,
    insert_grow m s = Done m1 s1 /\
    valid m1 /\ same_funcs m m1 /\ size m1 = size m /\
    entries m1 ≡ₚ entries m /\
    (forall k, hashmap_lookup m1 k = hashmap_lookup m k).
Proof.
  intros Hv. pose proof Hv as (Hok & _).
  destruct (insert_grow_spec m s Hok) as (m1 & s1 & Hg & Hf & Hsz & Hok1 & Hp & _).
  exists m1, s1. split; [exact Hg|].
  assert (valid m1) as Hv1 by now apply (valid_perm m).
  repeat (split; [assumption|]). intros k. now apply hashmap_lookup_perm.
Qed.

Lemma insert_place_valid m k v s rc m' s' :
  valid m -> insert_place m k v s = Done (rc, m') s' ->
  valid m' /\ same_funcs m m' /\
  (forall k', same_key m k' k = false ->
              hashmap_lookup m' k' = hashmap_lookup m k') /\
  (rc = 0 ->
   exists e, hashmap_lookup m' k = Some e /\
             value e = Some v /\ value_size e = len v /\
             key e = match hashmap_lookup m k with
                     | Some e0 => key e0
                     | None => k
                     end).
Proof.
  intros Hv Hr. pose proof Hv as (Hok & Hu & Hl).
  destruct (insert_place_spec m k v s Hok)
    as (rc0 & m0 & s0 & Hr0 & Hf & _ & Hok' & Hcase).
  rewrite Hr in Hr0. injection Hr0 as <- <- <-.
  destruct (hashmap_lookup m k) as [e0|] eqn:Hlk.
  - destruct Hcase as (granted & rest & _ & Hrc & _ & Hp & Hp').
    apply hashmap_lookup_elem in Hlk as [He0 Hm0].
    assert (valid m') as Hv'.
    { apply (valid_keys m); auto. rewrite Hp, Hp'. simpl.
      now rewrite key_updated. }
    split; [exact Hv'|]. split; [exact Hf|]. split.
    + intros k' Hk'.
      apply (hashmap_lookup_frame m m' k' [e0] [updated e0 v granted] rest);
        auto; intros e He; apply list_elem_of_singleton in He as ->;
        rewrite keys_match_same_key, ?key_updated;
        rewrite keys_match_same_key in Hm0;
        (destruct (same_key m (key e0) k') eqn:E; [|reflexivity]);
        apply (same_key_sym m Hl) in E;
        rewrite (same_key_trans m Hl _ _ _ E Hm0) in Hk'; discriminate.
    + intros ->. destruct granted; [|discriminate].
      exists (updated e0 v true). split; [|now simpl].
      apply hashmap_lookup_Some; [exact Hv'|]. split.
      * rewrite Hp'. left.
      * rewrite (keys_match_funcs m m') by exact Hf. exact Hm0.
  - destruct Hcase as (new_entry & _ & Hcase).
    destruct new_entry as [e|].
    + destruct Hcase as (_ & -> & _ & Hp).
      set (e := {| key := k; value := Some v; value_size := len v |}) in *.
      rewrite hashmap_lookup_None in Hlk by exact Hv.
      assert (valid m') as Hv'.
      { split; [exact Hok'|]. split; [|now apply (lawful_funcs m)].
        apply (distinct_funcs m); [exact Hf|].
        apply (distinct_perm m (key <$> e :: entries m)); [exact Hl| |].
        - now rewrite Hp.
        - simpl. constructor; [|exact Hu]. intros k' Hk'.
          apply list_elem_of_fmap in Hk' as (e' & -> & He').
          apply same_key_false_sym; [exact Hl|].
          rewrite <- keys_match_same_key. auto. }
      split; [exact Hv'|]. split; [exact Hf|]. split.
      * intros k' Hk'.
        apply (hashmap_lookup_frame m m' k' [] [e] (entries m)); auto.
        -- intros e' He'. inversion He'.
        -- intros e' He'. apply list_elem_of_singleton in He' as ->.
           rewrite keys_match_same_key. simpl.
           now apply same_key_false_sym.
      * intros _. exists e. split; [|now simpl].
        apply hashmap_lookup_Some; [exact Hv'|]. split.
        -- rewrite Hp. left.
        -- rewrite keys_match_same_key. apply (same_key_refl m').
           now apply (lawful_funcs m).
    + destruct Hcase as (-> & ->).
      split; [exact Hv|]. split; [exact Hf|]. split; [auto|]. discriminate.
Qed.

Lemma hashmap_insert_unfold m k v s m1 s1 rc m' s' :
  len k <> 0 ->
  insert_grow m s = Done m1 s1 ->
  insert_place m1 k v s1 = Done (rc, m') s' ->
  hashmap_insert (Some m) (Some k) v s = Done (rc, Some m') s'.
Proof.
  intros Hk Hg Hp. unfold hashmap_insert.
  destruct (len k =? 0) eqn:E; [lia|].
  unfold bind. now rewrite Hg, Hp.
Qed.

Lemma hashmap_remove_valid m k s :
  valid m -> len k <> 0 ->
  exists rc m',
    hashmap_remove (Some m) (Some k) s = Done (rc, Some m') s /\
    valid m' /\ same_funcs m m' /\
    (forall k', same_key m k' k = false ->
                hashmap_lookup m' k' = hashmap_lookup m k') /\
    (rc = 1 -> hashmap_lookup m' k = None).
Proof.
  intros Hv Hk. pose proof Hv as (Hok & Hu & Hl).
  destruct (hashmap_remove_spec m k s Hok Hk)
    as (rc & m' & Hr & Hf & _ & Hok' & Hcase).
  exists rc, m'. split; [exact Hr|].
  destruct (hashmap_lookup m k) as [e0|] eqn:Hlk.
  - destruct Hcase as (-> & _ & Hp).
    apply hashmap_lookup_elem in Hlk as [He0 Hm0].
    assert (distinct_keys m (key e0 :: (key <$> entries m'))) as Hd.
    { apply (distinct_perm m (key <$> entries m)); [exact Hl| |exact Hu].
      now rewrite Hp. }
    assert (valid m') as Hv'.
    { split; [exact Hok'|]. split; [|now apply (lawful_funcs m)].
      apply (distinct_funcs m); [exact Hf|]. eapply distinct_tail; eauto. }
    split; [exact Hv'|]. split; [exact Hf|]. split.
    + intros k' Hk'.
      apply (hashmap_lookup_frame m m' k' [e0] [] (entries m')); auto.
      * intros e He. apply list_elem_of_singleton in He as ->.
        rewrite keys_match_same_key. rewrite keys_match_same_key in Hm0.
        destruct (same_key m (key e0) k') eqn:E; [|reflexivity].
        apply (same_key_sym m Hl) in E.
        rewrite (same_key_trans m Hl _ _ _ E Hm0) in Hk'. discriminate.
      * intros e He. inversion He.
    + intros _. apply hashmap_lookup_None; [exact Hv'|]. intros e He.
      rewrite (keys_match_funcs m m') by exact Hf.
      rewrite keys_match_same_key. rewrite keys_match_same_key in Hm0.
      destruct (same_key m (key e) k) eqn:E; [|reflexivity].
      assert (same_key m (key e0) (key e) = true) as Hs.
      { eapply (same_key_trans m Hl); [exact Hm0|].
        now apply (same_key_sym m Hl). }
      rewrite (distinct_head m _ _ (key e) Hd) in Hs; [discriminate|].
      now apply list_elem_of_fmap_2.
  - destruct Hcase as (-> & ->).
    split; [exact Hv|]. split; [exact Hf|]. split; [auto|]. discriminate.
Qed.

(** ** Scripts that grant everything *)

Lemma malloc_granted s :
  all_granted s -> exists s', malloc s = Done true s' /\ all_granted s'.
Proof.
  intros H. destruct s as [|b s]; simpl.
  - exists []. split; [reflexivity | constructor].
  - inversion H; subst. eauto.
Qed.

Lemma hashmap_create_entry_granted k v s :
  all_granted s ->
  exists s',
    hashmap_create_entry k v s =
      Done (Some {| key := k; value := Some v; value_size := len v |}) s' /\
    all_granted s'.
Proof.
  intros H. unfold hashmap_create_entry, bind, ret.
  destruct (malloc_granted s H) as (s1 & -> & H1). simpl.
  destruct (malloc_granted s1 H1) as (s2 & -> & H2). simpl.
  destruct (malloc_granted s2 H2) as (s3 & -> & H3). simpl. eauto.
Qed.

(** ** Reading a value back *)

Lemma get_walk_funcs m m' k out c s :
  same_funcs m m' -> get_walk m' k out c s = get_walk m k out c s.
Proof.
  intros Hf. induction c as [|e c IH]; simpl; [reflexivity|].
  rewrite (keys_match_funcs m m') by exact Hf.
  destruct (keys_match m e k); [reflexivity | exact IH].
Qed.

Lemma memcpy_whole v s : memcpy (Some v) (len v) s = Done v s.
Proof.
  unfold memcpy, bind, deref, ret. simpl.
  destruct (len v <=? len v) eqn:E; [|lia].
  unfold len. rewrite Nat2Z.id. now rewrite firstn_all.
Qed.

Lemma get_walk_value m k e v s :
  keys_match m e k = true -> value e = Some v -> value_size e = len v ->
  get_walk m k true [e] s =
  match malloc s with
  | Done true s' =>
      Done {| status := 1; out_val := Some (Some v); out_size := Some (len v) |} s'
  | Done false s' =>
      Done {| status := -1; out_val := Some None; out_size := None |} s'
  | Fault => Fault
  end.
Proof.
  intros Hm Hv Hs. simpl. rewrite Hm. unfold bind.
  destruct (malloc s) as [[|] s'|]; simpl; try reflexivity.
  rewrite Hv, Hs, memcpy_whole. reflexivity.
Qed.

Lemma get_walk_no_out m k e s :
  keys_match m e k = true ->
  get_walk m k false [e] s =
  Done {| status := 1; out_val := None; out_size := None |} s.
Proof. intros Hm. simpl. now rewrite Hm. Qed.

(** ** The default comparison is equality of the bytes *)

Lemma memcmp_eq a b : length a = length b -> memcmp a b = 0 -> a = b.
Proof.
  revert b. induction a as [|x a IH]; intros [|y b] Hlen H; simpl in *;
    try discriminate; [reflexivity|].
  destruct (N.compare (Byte.to_N x) (Byte.to_N y)) eqn:E; try discriminate.
  apply N.compare_eq in E.
  assert (x = y) as ->.
  { pose proof (Byte.of_to_N x) as Hx. rewrite E, Byte.of_to_N in Hx.
    congruence. }
  f_equal. apply IH; [lia | exact H].
Qed.

Lemma memcmp_refl a : memcmp a a = 0.
Proof.
  induction a as [|x a IH]; simpl; [reflexivity|].
  now rewrite N.compare_refl.
Qed.

Lemma same_key_default m a b :
  eq_func m = default_eq -> same_key m a b = true <-> a = b.
Proof.
  intros He. unfold same_key. rewrite He. unfold default_eq, len. split.
  - intros H. apply andb_true_iff in H as [Hl Hc].
    destruct (memcmp a b =? 0) eqn:E; [|discriminate].
    apply memcmp_eq; lia.
  - intros ->. rewrite memcmp_refl. simpl. rewrite Z.eqb_refl. reflexivity.
Qed.

Lemma default_lawful m : eq_func m = default_eq -> lawful m.
Proof.
  intros He. split; intros *; rewrite ?(same_key_default m) by exact He;
    congruence.
Qed.

(** ** hashmap_init *)

Lemma concat_replicate_nil (n : nat) :
  concat (replicate n ([] : list HashMapEntry)) = [].
Proof. induction n; simpl; auto. Qed.

Lemma hashmap_init_ok old cap hf ef lf s m s' :
  0 <= cap ->
  hashmap_init (Some old) cap hf ef lf s = Done (0, Some m) s' ->
  table_ok m /\ size_ok m /\ entries m = [] /\ array_fits m /\ threshold_ok m /\
  hash_func m = default default_hash hf /\ eq_func m = default default_eq ef.
Proof.
  intros Hcap. unfold hashmap_init, bind.
  set (cap' := if cap =? 0 then DEFAULT_INITIAL_CAPACITY else cap).
  assert (1 <= cap') as Hcap'.
  { unfold cap', DEFAULT_INITIAL_CAPACITY. destruct (cap =? 0) eqn:E; lia. }
  destruct (calloc cap' sizeof_ptr s) as [[|] s1|] eqn:Hc; simpl;
    try discriminate.
  intros [= <- <-].
  assert (entries (set_buckets
            {| buckets := buckets old; capacity := cap'; size := 0;
               hash_func := default default_hash hf;
               eq_func := default default_eq ef;
               load_factor := if SFleb lf float_zero then DEFAULT_LOAD_FACTOR
                              else lf |}
            (Some (replicate (Z.to_nat cap') []))) = []) as Hnil.
  { exact (concat_replicate_nil (Z.to_nat cap')). }
  split; [|split; [|split; [|split; [|split]]]].
  - eexists. split; [reflexivity|]. simpl. rewrite length_replicate.
    split; [lia|]. split; [exact Hcap'|]. apply placed_replicate.
  - unfold size_ok. rewrite Hnil. simpl. lia.
  - exact Hnil.
  - unfold array_fits. simpl. now apply calloc_granted_fits in Hc.
  - unfold threshold_ok. simpl.
    destruct (SFleb lf float_zero) eqn:E; [reflexivity | exact E].
  - split; reflexivity.
Qed.

(** A successful [hashmap_init] with lawful strategy functions gives a valid
    map. *)
Lemma hashmap_init_valid old cap hf ef lf s m s' :
  0 <= cap ->
  hashmap_init (Some old) cap hf ef lf s = Done (0, Some m) s' ->
  lawful m -> valid m.
Proof.
  intros Hcap Hinit Hl.
  destruct (hashmap_init_ok old cap hf ef lf s m s' Hcap Hinit)
    as (Hok & _ & Hnil & _).
  split; [exact Hok|]. split; [|exact Hl].
  unfold keys_unique. rewrite Hnil. constructor.
Qed.

(** ** Concrete maps *)

Lemma fresh_valid cap : 1 <= cap -> valid (fresh cap) /\ entries (fresh cap) = [].
Proof.
  intros Hcap.
  assert (entries (fresh cap) = []) as Hnil
    by exact (concat_replicate_nil (Z.to_nat cap)).
  split; [|exact Hnil]. split; [|split].
  - eexists. split; [reflexivity|]. simpl. rewrite length_replicate.
    split; [lia|]. split; [exact Hcap|]. apply placed_replicate.
  - unfold keys_unique. rewrite Hnil. constructor.
  - now apply default_lawful.
Qed.

Lemma hashmap_insert_valid m k v s rc m' s' :
  valid m -> hashmap_insert (Some m) (Some k) v s = Done (rc, Some m') s' ->
  valid m' /\ same_funcs m m'.
Proof.
  intros Hv. unfold hashmap_insert.
  destruct (len k =? 0); [intros [= <- <- <-]; split; [exact Hv|apply same_funcs_refl]|].
  destruct (insert_grow_valid m s Hv) as (m1 & s1 & Hg & Hv1 & Hf1 & _).
  unfold bind. rewrite Hg.
  destruct (insert_place m1 k v s1) as [[rc2 m2] s2|] eqn:Hp; [|discriminate].
  intros [= <- <- <-].
  destruct (insert_place_valid m1 k v s1 _ _ _ Hv1 Hp) as (Hv2 & Hf2 & _).
  split; [exact Hv2|]. eapply same_funcs_trans; eauto.
Qed.

Lemma after_insert_valid m k v s : valid m -> valid (after_insert m k v s).
Proof.
  intros Hv. unfold after_insert.
  destruct (hashmap_insert (Some m) (Some k) v s) as [[rc [m'|]] s'|] eqn:E;
    try exact Hv.
  now destruct (hashmap_insert_valid m k v s rc m' s' Hv E).
Qed.

Lemma after_insert_eq m k v s rc s' :
  status_of (hashmap_insert (Some m) (Some k) v s) = Some rc ->
  script_of (hashmap_insert (Some m) (Some k) v s) = Some s' ->
  hashmap_insert (Some m) (Some k) v s = Done (rc, Some (after_insert m k v s)) s'.
Proof.
  unfold after_insert, hashmap_insert.
  destruct (len k =? 0); [simpl; now intros [= <-] [= <-]|].
  unfold bind. destruct (insert_grow m s) as [m1 s1|]; [|discriminate].
  destruct (insert_place m1 k v s1) as [[rc2 m2] s2|]; [|discriminate].
  simpl. now intros [= <-] [= <-].
Qed.

Lemma after_resize_eq m n s rc s' :
  status_of (hashmap_resize m n s) = Some rc ->
  script_of (hashmap_resize m n s) = Some s' ->
  hashmap_resize m n s = Done (rc, after_resize m n s) s'.
Proof.
  unfold after_resize.
  destruct (hashmap_resize m n s) as [[rc2 m2] s2|]; [|discriminate].
  simpl. now intros [= <-] [= <-].
Qed.

Lemma after_grow_eq m s s' :
  script_of (insert_grow m s) = Some s' ->
  insert_grow m s = Done (after_grow m s) s'.
Proof.
  unfold after_grow. destruct (insert_grow m s) as [m1 s1|]; [|discriminate].
  simpl. now intros [= <-].
Qed.

(** ** Facts the claims share *)

Lemma nonempty_len (k : buffer) : k <> [] -> len k <> 0.
Proof. destruct k; [congruence | unfold len; simpl; lia]. Qed.

Lemma doubled_capacity m :
  1 <= capacity m -> array_fits m ->
  wrap64 (capacity m * 2) = capacity m * 2.
Proof.
  unfold array_fits, sizeof_ptr, wrap64. intros H1 H2.
  apply Z.mod_small. lia.
Qed.

Lemma hashmap_get_same m m' key_data ov os s :
  table_ok m -> table_ok m' -> same_funcs m m' ->
  (forall k, hashmap_lookup m' k = hashmap_lookup m k) ->
  hashmap_get (Some m') key_data ov os s = hashmap_get (Some m) key_data ov os s.
Proof.
  intros Hok Hok' Hf Hlk. destruct key_data as [k|]; [|reflexivity].
  destruct (decide (len k = 0)) as [Hk|Hk].
  { unfold hashmap_get. now rewrite Hk. }
  rewrite !hashmap_get_lookup by assumption. rewrite Hlk.
  destruct (hashmap_lookup m k); [|reflexivity]. now apply get_walk_funcs.
Qed.

Lemma two_pairs_valid : valid two_pairs.
Proof. apply after_insert_valid, after_insert_valid, fresh_valid. lia. Qed.

Lemma hashmap_insert_inv m (k : buffer) v s rc m' s' :
  table_ok m -> k <> [] ->
  hashmap_insert (Some m) (Some k) v s = Done (rc, Some m') s' ->
  exists m1 s1,
    insert_grow m s = Done m1 s1 /\ insert_place m1 k v s1 = Done (rc, m') s'.
Proof.
  intros Hok Hk. apply nonempty_len in Hk. unfold hashmap_insert.
  destruct (len k =? 0) eqn:E; [lia|].
  destruct (insert_grow_spec m s Hok) as (m1 & s1 & Hg & _).
  unfold bind. rewrite Hg.
  destruct (insert_place m1 k v s1) as [[rc2 m2] s2|] eqn:Hp; [|discriminate].
  intros [= <- <- <-]. eauto.
Qed.

Lemma hashmap_insert_total m key_data v s :
  table_ok m ->
  exists rc m' s', hashmap_insert (Some m) key_data v s = Done (rc, Some m') s'.
Proof.
  intros Hok. destruct key_data as [k|]; [|exists (-1), m, s; reflexivity].
  unfold hashmap_insert. destruct (len k =? 0); [exists (-1), m, s; reflexivity|].
  destruct (insert_grow_spec m s Hok) as (m1 & s1 & Hg & _ & _ & Hok1 & _).
  destruct (insert_place_spec m1 k v s1 Hok1) as (rc & m' & s' & Hp & _).
  unfold bind. rewrite Hg, Hp. eauto.
Qed.

(** What [hashmap_get] with both output pointers answers for an entry that
    holds the value [v]. *)
Lemma hashmap_get_value m (k : buffer) e v s :
  table_ok m -> k <> [] -> hashmap_lookup m k = Some e ->
  value e = Some v -> value_size e = len v ->
  hashmap_get (Some m) (Some k) true true s =
  match malloc s with
  | Done true s' =>
      Done {| status := 1; out_val := Some (Some v); out_size := Some (len v) |} s'
  | Done false s' =>
      Done {| status := -1; out_val := Some None; out_size := None |} s'
  | Fault => Fault
  end.
Proof.
  intros Hok Hk Hlk Hv Hs.
  rewrite (hashmap_get_lookup m k true true s Hok (nonempty_len k Hk)), Hlk.
  apply get_walk_value; auto. now apply hashmap_lookup_match.
Qed.

(** A mutating call for another key returns, keeps the map valid and leaves
    the entry of the key [K] as it is. *)
Lemma run_op_frame m0 m (K : buffer) o s :
  valid m -> same_funcs m0 m -> leaves m0 K o ->
  exists m' s',
    run_op o m s = Done m' s' /\ valid m' /\ same_funcs m0 m' /\
    hashmap_lookup m' K = hashmap_lookup m K.
Proof.
  intros Hv Hf Hleaves. pose proof Hv as (Hok & _).
  destruct o as [k v|k|n]; unfold run_op; unfold leaves in Hleaves;
    simpl in Hleaves.
  - rewrite <- (same_key_funcs m0 m) in Hleaves by exact Hf.
    destruct (hashmap_insert_total m (Some k) v s Hok) as (rc & m' & s' & Hins).
    unfold bind. rewrite Hins. simpl. exists m', s'. split; [reflexivity|].
    destruct (decide (k = [])) as [->|Hk].
    { injection Hins as <- <- <-. auto. }
    destruct (hashmap_insert_inv m k v s rc m' s' Hok Hk Hins)
      as (m1 & s1 & Hg & Hp).
    destruct (insert_grow_valid m s Hv)
      as (m1' & s1' & Hg' & Hv1 & Hf1 & _ & _ & Hlk1).
    rewrite Hg in Hg'. injection Hg' as <- <-.
    destruct (insert_place_valid m1 k v s1 rc m' s' Hv1 Hp) as (Hv' & Hf' & Hfr & _).
    split; [exact Hv'|].
    split; [eauto using same_funcs_trans|].
    rewrite Hfr, Hlk1; [reflexivity|].
    now rewrite (same_key_funcs m m1).
  - rewrite <- (same_key_funcs m0 m) in Hleaves by exact Hf.
    destruct (decide (k = [])) as [->|Hk].
    { exists m, s. auto. }
    destruct (hashmap_remove_valid m k s Hv (nonempty_len k Hk))
      as (rc & m' & Hr & Hv' & Hf' & Hfr & _).
    unfold bind. rewrite Hr. simpl. exists m', s. split; [reflexivity|].
    split; [exact Hv'|]. split; [eauto using same_funcs_trans|]. auto.
  - destruct (hashmap_resize_spec m n s Hok) as (rc & m' & s' & Hr & _).
    destruct (hashmap_resize_valid m n s rc m' s' Hv Hr)
      as (Hv' & Hf' & _ & _ & Hlk).
    unfold bind. rewrite Hr. simpl. exists m', s'. split; [reflexivity|].
    split; [exact Hv'|]. split; [eauto using same_funcs_trans|]. auto.
Qed.

Lemma run_ops_frame m0 (K : buffer) ops :
  Forall (leaves m0 K) ops ->
  forall m s,
    valid m -> same_funcs m0 m ->
    exists m' s',
      run_ops ops m s = Done m' s' /\ valid m' /\ same_funcs m0 m' /\
      hashmap_lookup m' K = hashmap_lookup m K.
Proof.
  induction 1 as [|o ops Ho _ IH]; intros m s Hv Hf; simpl.
  - exists m, s. auto.
  - destruct (run_op_frame m0 m K o s Hv Hf Ho) as (m1 & s1 & Hr & Hv1 & Hf1 & Hlk1).
    destruct (IH m1 s1 Hv1 Hf1) as (m2 & s2 & Hr2 & Hv2 & Hf2 & Hlk2).
    exists m2, s2. unfold bind. rewrite Hr. split; [exact Hr2|].
    split; [exact Hv2|]. split; [exact Hf2|]. congruence.
Qed.

Lemma one_pair_valid : valid one_pair.
Proof. apply after_insert_valid, fresh_valid. lia. Qed.

Lemma absent_lookup m (k : buffer) :
  absent m k -> hashmap_lookup m k = None.
Proof.
  intros Habs. destruct (hashmap_lookup m k) as [e|] eqn:E; [|reflexivity].
  apply hashmap_lookup_elem in E as [He Hm]. rewrite (Habs e He) in Hm.
  discriminate.
Qed.

(** An empty table never reaches a threshold that [hashmap_init] accepted. *)
Lemma load_exceeded_nonempty m :
  threshold_ok m -> size m = 0 -> load_exceeded m = false.
Proof.
  unfold threshold_ok, load_exceeded, current_load, float_div, float_zero.
  intros Ht ->. change (float_of_size 0) with (S754_zero false).
  destruct (float_of_size (capacity m)) as [sy|sy| |sy my ey];
    destruct (load_factor m) as [sx|sx| |sx mx ex]; simpl in *;
    try reflexivity; try exact Ht; try discriminate.
Qed.

Lemma wrap64_le z : 0 <= z -> wrap64 z <= z.
Proof. intros H. unfold wrap64. apply Z.mod_le; lia. Qed.

Lemma fresh_structural cap :
  1 <= cap -> structural (fresh cap) /\ threshold_ok (fresh cap).
Proof.
  intros Hcap. destruct (fresh_valid cap Hcap) as [(Hok & _) Hnil].
  split; [split; [exact Hok|]|reflexivity].
  unfold size_ok. rewrite Hnil. simpl. lia.
Qed.

(** Walking a map whose [buckets] is [NULL] is undefined behaviour. *)
Lemma null_buckets_fault m (k : buffer) ov os s :
  buckets m = None -> k <> [] ->
  hashmap_get (Some m) (Some k) ov os s = Fault.
Proof.
  intros Hb Hk. apply nonempty_len in Hk. unfold hashmap_get.
  destruct (len k =? 0) eqn:E; [lia|].
  unfold bind, bucket_index, bucket_at, bind, deref, fault, ret.
  destruct (capacity m =? 0); [reflexivity|]. now rewrite Hb.
Qed.

Lemma machine_facts_preserved :
  (forall m n s rc m' s',
     table_ok m -> array_fits m -> threshold_ok m ->
     hashmap_resize m n s = Done (rc, m') s' ->
     array_fits m' /\ threshold_ok m') /\
  (forall m key_data v s rc m' s',
     table_ok m -> array_fits m -> threshold_ok m ->
     hashmap_insert (Some m) key_data v s = Done (rc, Some m') s' ->
     array_fits m' /\ threshold_ok m') /\
  (forall m key_data s rc m' s',
     table_ok m -> array_fits m -> threshold_ok m ->
     hashmap_remove (Some m) key_data s = Done (rc, Some m') s' ->
     array_fits m' /\ threshold_ok m').
Proof.
  assert (Hres : forall m n s rc m' s',
            table_ok m -> array_fits m -> threshold_ok m ->
            hashmap_resize m n s = Done (rc, m') s' ->
            array_fits m' /\ threshold_ok m').
  { intros m n s rc m' s' Hok Hfit Hthr Hr.
    destruct (hashmap_resize_spec m n s Hok) as (rc0 & m0 & s0 & Hr0 & Hcase).
    rewrite Hr in Hr0. injection Hr0 as <- <- <-.
    destruct Hcase as [(_ & -> & _)|(_ & _ & Hc & Hcap & _ & (_ & _ & Hlf) & _)];
      [auto|].
    split.
    - unfold array_fits. rewrite Hcap. now apply calloc_granted_fits in Hc.
    - unfold threshold_ok. now rewrite Hlf. }
  split; [exact Hres|]. split.
  - intros m [k|] v s rc m' s' Hok Hfit Hthr Hins;
      [|injection Hins as <- <- <-; auto].
    destruct (decide (k = [])) as [->|Hk]; [injection Hins as <- <- <-; auto|].
    destruct (hashmap_insert_inv m k v s rc m' s' Hok Hk Hins)
      as (m1 & s1 & Hg & Hp).
    assert (table_ok m1 /\ array_fits m1 /\ threshold_ok m1) as (Hok1 & Hfit1 & Hthr1).
    { unfold insert_grow in Hg. destruct (load_exceeded m).
      - unfold bind in Hg.
        destruct (hashmap_resize_spec m (wrap64 (capacity m * 2)) s Hok)
          as (rc0 & m0 & s0 & Hr0 & Hcase).
        rewrite Hr0 in Hg. simpl in Hg. injection Hg as <- <-.
        destruct (Hres _ _ _ _ _ _ Hok Hfit Hthr Hr0).
        destruct Hcase as [(_ & -> & _)|(_ & _ & _ & _ & _ & _ & Hok0 & _)]; auto.
      - injection Hg as <- <-. auto. }
    destruct (insert_place_spec m1 k v s1 Hok1)
      as (rc0 & m0 & s0 & Hp0 & (_ & _ & Hlf) & Hcap & _).
    rewrite Hp in Hp0. injection Hp0 as <- <- <-.
    unfold array_fits, threshold_ok in *. now rewrite Hcap, Hlf.
  - intros m [k|] s rc m' s' Hok Hfit Hthr Hrem;
      [|injection Hrem as <- <- <-; auto].
    destruct (decide (k = [])) as [->|Hk]; [injection Hrem as <- <- <-; auto|].
    destruct (hashmap_remove_spec m k s Hok (nonempty_len k Hk))
      as (rc0 & m0 & Hr0 & (_ & _ & Hlf) & Hcap & _).
    rewrite Hrem in Hr0. injection Hr0 as <- <-.
    unfold array_fits, threshold_ok in *. now rewrite Hcap, Hlf.
Qed.

(** ** Single precision: the load test *)

Lemma digits2_log2 p : Z.pos (digits2_pos p) = Z.log2 (Z.pos p) + 1.
Proof.
  assert (digits2_pos p = Pos.size p) as ->
    by (induction p; simpl; congruence).
  destruct p; simpl; lia.
Qed.

Lemma Zdigits2_log2 z : 0 < z -> Zdigits2 z = Z.log2 z + 1.
Proof. destruct z; try lia. intros _. apply digits2_log2. Qed.

Lemma log2_range z : 0 < z -> 2 ^ Z.log2 z <= z < 2 ^ (Z.log2 z + 1).
Proof. intros Hz. apply Z.log2_spec. exact Hz. Qed.

Lemma log2_24_digits z : 2 ^ 23 <= z < 2 ^ 24 -> Z.log2 z = 23.
Proof. intros Hz. apply Z.log2_unique; [lia|exact Hz]. Qed.

Lemma pos_iter_xO p k : Z.pos (Pos.iter xO p k) = Z.pos p * 2 ^ Z.pos k.
Proof.
  induction k as [|k IH] using Pos.peano_ind.
  - simpl. lia.
  - rewrite Pos.iter_succ, Pos2Z.inj_xO, IH, Pos2Z.inj_succ, Z.pow_succ_r by lia.
    ring.
Qed.

Lemma shr_1_m mrs : 0 <= shr_m mrs -> shr_m (shr_1 mrs) = shr_m mrs / 2.
Proof.
  destruct mrs as [m r s]. simpl shr_m. intros Hm. rewrite <- Z.div2_div.
  destruct m as [|[p|p|]|p]; try reflexivity. lia.
Qed.

Lemma div_pow2_twice m a b :
  0 <= a -> 0 <= b -> m / 2 ^ a / 2 ^ b = m / 2 ^ (a + b).
Proof.
  intros Ha Hb. rewrite Zdiv_Zdiv by (apply Z.pow_nonneg; lia).
  now rewrite Z.pow_add_r.
Qed.

(** [shr] by [k] places divides the mantissa by [2 ^ k]. *)
Lemma iter_shr_1_m k mrs :
  0 <= shr_m mrs ->
  shr_m (SpecFloat.iter_pos shr_1 k mrs) = shr_m mrs / 2 ^ Z.pos k.
Proof.
  assert (forall x k, 0 <= x -> 0 <= x / 2 ^ Z.pos k) as Hpos.
  { intros x j Hx. apply Z.div_pos; [exact Hx|]. apply Z.pow_pos_nonneg; lia. }
  revert mrs. induction k as [k IH|k IH|]; intros mrs Hm;
    simpl SpecFloat.iter_pos.
  - assert (0 <= shr_m (shr_1 mrs)) as H1.
    { rewrite shr_1_m by exact Hm. apply Z.div_pos; lia. }
    rewrite IH; [rewrite IH by exact H1|rewrite IH by exact H1; now apply Hpos].
    rewrite shr_1_m by exact Hm. change (shr_m mrs / 2) with (shr_m mrs / 2 ^ 1).
    rewrite !div_pow2_twice by lia. f_equal. f_equal. lia.
  - rewrite IH; [rewrite IH by exact Hm|rewrite IH by exact Hm; now apply Hpos].
    rewrite div_pow2_twice by lia. f_equal. f_equal. lia.
  - rewrite shr_1_m by exact Hm. reflexivity.
Qed.

Lemma shr_record_of_loc_m m l : shr_m (shr_record_of_loc m l) = m.
Proof. now destruct l as [|[]]. Qed.

Lemma round_nearest_even_bounds m l :
  m <= round_nearest_even m l <= m + 1.
Proof.
  destruct l as [|[]]; simpl; try lia. destruct (Z.even m); lia.
Qed.

(** A mantissa of more than 24 digits is cut to 24. *)
Lemma shr_fexp_spec q e l :
  2 ^ 23 <= q -> -149 <= e ->
  exists mrs,
    shr_fexp 24 128 q e l = (mrs, e + (Z.log2 q - 23)) /\
    shr_m mrs = q / 2 ^ (Z.log2 q - 23) /\
    2 ^ 23 <= q / 2 ^ (Z.log2 q - 23) < 2 ^ 24.
Proof.
  intros Hq He. unfold shr_fexp. rewrite Zdigits2_log2 by lia.
  assert (23 <= Z.log2 q) as Hlog by (apply Z.log2_le_pow2; lia).
  pose proof (log2_range q ltac:(lia)) as Hrange.
  set (k := Z.log2 q - 23).
  assert (2 ^ 23 <= q / 2 ^ k < 2 ^ 24) as Hcut.
  { assert (0 < 2 ^ k) by (apply Z.pow_pos_nonneg; lia).
    replace (Z.log2 q) with (23 + k) in Hrange by lia.
    replace (23 + k + 1) with (24 + k) in Hrange by lia.
    rewrite !Z.pow_add_r in Hrange by lia. split.
    - apply Z.div_le_lower_bound; lia.
    - apply Z.div_lt_upper_bound; lia. }
  replace (fexp 24 128 (Z.log2 q + 1 + e) - e) with k
    by (unfold fexp, emin; lia).
  unfold shr. destruct k as [|p|p] eqn:Hk; try lia.
  - eexists. split; [f_equal; lia|]. rewrite shr_record_of_loc_m.
    split; [|exact Hcut]. now rewrite Z.div_1_r.
  - eexists. split; [reflexivity|].
    rewrite iter_shr_1_m, shr_record_of_loc_m by (rewrite shr_record_of_loc_m; lia).
    split; [reflexivity|exact Hcut].
Qed.

(** Rounding a mantissa of at least 24 digits gives a normal number that is
    the mantissa cut to 24 digits or the next one. *)
Lemma binary_round_aux_spec q e l :
  2 ^ 23 <= q -> -149 <= e -> e + (Z.log2 q - 23) <= 103 ->
  exists mr er,
    binary_round_aux 24 128 false q e l = S754_finite false mr er /\
    2 ^ 23 <= Z.pos mr < 2 ^ 24 /\
    ((er = e + (Z.log2 q - 23) /\
      q / 2 ^ (Z.log2 q - 23) <= Z.pos mr <= q / 2 ^ (Z.log2 q - 23) + 1) \/
     (er = e + (Z.log2 q - 23) + 1 /\ Z.pos mr = 2 ^ 23 /\
      q / 2 ^ (Z.log2 q - 23) = 2 ^ 24 - 1)).
Proof.
  intros Hq He Hmax. unfold binary_round_aux.
  assert (23 <= Z.log2 q) as Hlog by (apply Z.log2_le_pow2; lia).
  destruct (shr_fexp_spec q e l Hq He) as (mrs & -> & -> & Hcut).
  set (k := Z.log2 q - 23) in *. set (t := q / 2 ^ k) in *.
  pose proof (round_nearest_even_bounds t (loc_of_shr_record mrs)) as Hr.
  set (q2 := round_nearest_even t (loc_of_shr_record mrs)) in *.
  destruct (shr_fexp_spec q2 (e + k) loc_Exact ltac:(lia) ltac:(lia))
    as (mrs2 & -> & -> & Hcut2).
  destruct (decide (q2 < 2 ^ 24)) as [Hsmall|Hbig].
  - rewrite (log2_24_digits q2) in * by lia.
    change (2 ^ (23 - 23)) with 1 in *. rewrite Z.div_1_r in *.
    destruct q2 as [|mr|mr] eqn:Hq2; try lia.
    replace (e + k + (23 - 23) <=? 128 - 24) with true by lia.
    exists mr, (e + k + (23 - 23)). split; [reflexivity|]. split; [lia|].
    left. split; lia.
  - assert (q2 = 2 ^ 24) as -> by lia.
    change (Z.log2 (2 ^ 24)) with 24 in *.
    change (2 ^ 24 / 2 ^ (24 - 23)) with (Z.pos (2 ^ 23)%positive) in *.
    replace (e + k + (24 - 23) <=? 128 - 24) with true by lia.
    exists (2 ^ 23)%positive, (e + k + (24 - 23)). split; [reflexivity|].
    split; [lia|]. right. split; [lia|]. split; [reflexivity|lia].
Qed.

Lemma binary_round_aux_exact a e :
  2 ^ 23 <= Z.pos a < 2 ^ 24 -> -149 <= e <= 104 ->
  binary_round_aux 24 128 false (Z.pos a) e loc_Exact = S754_finite false a e.
Proof.
  intros Ha He. unfold binary_round_aux, shr_fexp.
  rewrite Zdigits2_log2, (log2_24_digits (Z.pos a)) by lia.
  replace (fexp 24 128 (23 + 1 + e) - e) with 0 by (unfold fexp, emin; lia).
  cbn [shr shr_record_of_loc shr_m loc_of_shr_record round_nearest_even].
  rewrite Zdigits2_log2, (log2_24_digits (Z.pos a)) by lia.
  replace (fexp 24 128 (23 + 1 + e) - e) with 0 by (unfold fexp, emin; lia).
  cbn [shr shr_record_of_loc shr_m].
  now replace (e <=? 128 - 24) with true by lia.
Qed.

(** [(float) n] for a [size_t]: a normal number within a relative [2 ^ -23]
    of [n], and [n] itself below [2 ^ 24]. The value is scaled by [2 ^ 23],
    where every exponent is positive. *)
Lemma float_of_size_spec n :
  0 < n < 2 ^ 64 ->
  exists a e,
    float_of_size n = S754_finite false a e /\
    2 ^ 23 <= Z.pos a < 2 ^ 24 /\ -23 <= e <= 41 /\
    n * (2 ^ 23 - 1) <= Z.pos a * 2 ^ (e + 23) <= n * (2 ^ 23 + 1) /\
    (n < 2 ^ 24 -> Z.pos a * 2 ^ (e + 23) = n * 2 ^ 23).
Proof.
  intros Hn. destruct n as [|p|p]; try lia.
  unfold float_of_size, binary_normalize, binary_round.
  rewrite digits2_log2.
  pose proof (log2_range (Z.pos p) ltac:(lia)) as Hd.
  pose proof (Z.log2_nonneg (Z.pos p)) as Hd0.
  assert (Z.log2 (Z.pos p) < 64) as Hd1 by (apply Z.log2_lt_pow2; lia).
  replace (fexp 24 128 (Z.log2 (Z.pos p) + 1 + 0)) with (Z.log2 (Z.pos p) - 23)
    by (unfold fexp, emin; lia).
  unfold shl_align.
  destruct (decide (Z.log2 (Z.pos p) <= 23)) as [Hsmall|Hbig].
  - (* at most 24 digits: shifted left, exact *)
    set (d := Z.log2 (Z.pos p)) in *.
    assert (exists a, (match d - 23 - 0 with
                       | Z.neg k => (Pos.iter xO p k, d - 23)
                       | _ => (p, 0)
                       end) = (a, d - 23) /\ Z.pos a = Z.pos p * 2 ^ (23 - d))
      as (a & -> & Ha).
    { destruct (d - 23 - 0) as [|k|k] eqn:Hk; try lia.
      - exists p. split; [f_equal; lia|]. replace (23 - d) with 0 by lia. lia.
      - exists (Pos.iter xO p k). split; [reflexivity|].
        rewrite pos_iter_xO. f_equal. f_equal. lia. }
    assert (0 < 2 ^ (23 - d)) as Hp by (apply Z.pow_pos_nonneg; lia).
    assert (2 ^ d * 2 ^ (23 - d) = 2 ^ 23) as Hsplit
      by (rewrite <- Z.pow_add_r by lia; f_equal; lia).
    assert (2 ^ (d + 1) * 2 ^ (23 - d) = 2 ^ 24) as Hsplit'
      by (rewrite <- Z.pow_add_r by lia; f_equal; lia).
    assert (2 ^ 23 <= Z.pos a < 2 ^ 24) as Hrange.
    { rewrite Ha, <- Hsplit, <- Hsplit'. split.
      - apply Z.mul_le_mono_nonneg_r; lia.
      - apply Z.mul_lt_mono_pos_r; lia. }
    rewrite binary_round_aux_exact by lia.
    exists a, (d - 23). split; [reflexivity|]. split; [exact Hrange|].
    split; [lia|].
    assert (Z.pos a * 2 ^ (d - 23 + 23) = Z.pos p * 2 ^ 23) as Hexact.
    { rewrite Ha, <- Z.mul_assoc, <- Z.pow_add_r by lia. f_equal. f_equal. lia. }
    rewrite Hexact. split; [lia|reflexivity].
  - (* more than 24 digits: cut and rounded *)
    set (k := Z.log2 (Z.pos p) - 23) in *.
    assert (0 < k <= 40) as Hk by (unfold k; lia).
    replace (k - 0) with k by lia.
    destruct k as [|k'|k'] eqn:Hk'; try lia. rewrite <- Hk' in *.
    destruct (binary_round_aux_spec (Z.pos p) 0 loc_Exact) as (mr & er & -> & Hmr & Hcase);
      [| lia | fold k; lia |].
    { apply Z.le_trans with (2 ^ Z.log2 (Z.pos p)); [|lia].
      apply Z.pow_le_mono_r; lia. }
    fold k in Hcase.
    destruct (shr_fexp_spec (Z.pos p) 0 loc_Exact) as (_ & _ & _ & Hcut); [|lia|].
    { apply Z.le_trans with (2 ^ Z.log2 (Z.pos p)); [|lia].
      apply Z.pow_le_mono_r; lia. }
    fold k in Hcut.
    assert (0 < 2 ^ k) as Hp by (apply Z.pow_pos_nonneg; lia).
    pose proof (Z.div_mod (Z.pos p) (2 ^ k) ltac:(lia)) as Hdm.
    pose proof (Z.mod_pos_bound (Z.pos p) (2 ^ k) ltac:(lia)) as Hmod.
    set (t := Z.pos p / 2 ^ k) in *. set (low := Z.pos p mod 2 ^ k) in *.
    assert (2 ^ 24 <= Z.pos p) as Hlarge.
    { apply Z.le_trans with (2 ^ Z.log2 (Z.pos p)); [|lia].
      apply Z.pow_le_mono_r; lia. }
    exists mr, er. split; [reflexivity|]. split; [exact Hmr|].
    assert (forall c, 0 <= c -> 2 ^ (k + c + 23) = 2 ^ c * (2 ^ k * 2 ^ 23)) as Hpow.
    { intros c Hc. rewrite <- !Z.pow_add_r by lia. f_equal. lia. }
    clearbody t low k. clear Hk'.
    destruct Hcase as [[-> Hm]|[-> [Hm Ht]]].
    + split; [lia|]. replace (0 + k + 23) with (k + 0 + 23) by lia.
      rewrite (Hpow 0) by lia. change (2 ^ 0) with 1.
      split; [nia|lia].
    + split; [lia|]. replace (0 + k + 1 + 23) with (k + 1 + 23) by lia.
      rewrite (Hpow 1) by lia. change (2 ^ 1) with 2.
      split; [nia|lia].
Qed.

Lemma SFdiv_core_binary_spec a ea b eb :
  2 ^ 23 <= Z.pos a < 2 ^ 24 -> 2 ^ 23 <= Z.pos b < 2 ^ 24 ->
  -125 <= ea - eb ->
  SFdiv_core_binary 24 128 (Z.pos a) ea (Z.pos b) eb =
  ((Z.pos a * 2 ^ 24) / Z.pos b, ea - eb - 24,
   new_location (Z.pos b) ((Z.pos a * 2 ^ 24) mod Z.pos b)).
Proof.
  intros Ha Hb He. unfold SFdiv_core_binary.
  rewrite !Zdigits2_log2 by lia.
  rewrite (log2_24_digits (Z.pos a)), (log2_24_digits (Z.pos b)) by lia.
  replace (Z.min (fexp 24 128 (23 + 1 + ea - (23 + 1 + eb))) (ea - eb))
    with (ea - eb - 24) by (unfold fexp, emin; lia).
  replace (ea - eb - (ea - eb - 24)) with 24 by lia.
  rewrite Z.shiftl_mul_pow2 by lia.
  unfold Z.div, Z.modulo.
  now destruct (Z.div_eucl (Z.pos a * 2 ^ 24) (Z.pos b)).
Qed.

(** The canonical forms of a binary32 number. *)
Lemma bounded_cases ml el :
  bounded 24 128 ml el = true ->
  (2 ^ 23 <= Z.pos ml < 2 ^ 24 /\ -149 <= el) \/ el = -149.
Proof.
  unfold bounded, canonical_mantissa. intros H.
  apply andb_true_iff in H as [H _]. apply Z.eqb_eq in H.
  rewrite digits2_log2 in H.
  pose proof (log2_range (Z.pos ml) ltac:(lia)) as Hd.
  unfold fexp, emin in H.
  destruct (decide (el = -149)) as [|Hne]; [now right|left].
  assert (Z.log2 (Z.pos ml) = 23) as Hl by lia.
  rewrite Hl in Hd. lia.
Qed.

(** The single-precision quotient of two normal numbers is not below any
    binary32 number that their exact quotient reaches. The values are scaled
    by [2 ^ 23] and [2 ^ 200], where every exponent is positive. *)
Lemma SFdiv_reaches a ea b eb ml el :
  2 ^ 23 <= Z.pos a < 2 ^ 24 -> 2 ^ 23 <= Z.pos b < 2 ^ 24 ->
  -23 <= ea <= 41 -> -23 <= eb <= 41 ->
  bounded 24 128 ml el = true ->
  Z.pos ml * 2 ^ (el + 200) * (Z.pos b * 2 ^ (eb + 23)) <=
    Z.pos a * 2 ^ (ea + 23) * 2 ^ 200 ->
  SFleb (S754_finite false ml el)
        (SFdiv 24 128 (S754_finite false a ea) (S754_finite false b eb)) = true.
Proof.
  intros Ha Hbr Hea Heb Hb Hle.
  unfold SFdiv.
  rewrite SFdiv_core_binary_spec by lia.
  set (q := Z.pos a * 2 ^ 24 / Z.pos b).
  set (l := new_location _ _).
  pose proof (Z.div_mod (Z.pos a * 2 ^ 24) (Z.pos b) ltac:(lia)) as Hdm.
  pose proof (Z.mod_pos_bound (Z.pos a * 2 ^ 24) (Z.pos b) ltac:(lia)) as Hr.
  fold q in Hdm. set (r := (Z.pos a * 2 ^ 24) mod Z.pos b) in *.
  assert (2 ^ 23 <= q < 2 ^ 25) as Hq.
  { split.
    - apply Z.div_le_lower_bound; lia.
    - apply Z.div_lt_upper_bound; lia. }
  assert (23 <= Z.log2 q <= 24) as Hlog.
  { split; [apply Z.log2_le_pow2; lia|].
    assert (Z.log2 q < 25); [apply Z.log2_lt_pow2; lia|lia]. }
  set (e := ea - eb - 24).
  cbv beta iota zeta. cbn [xorb].
  destruct (binary_round_aux_spec q e l ltac:(lia) ltac:(unfold e; lia)
              ltac:(unfold e; lia))
    as (mr & er & -> & Hmr & Hcase).
  unfold SFleb, SFcompare.
  (* the exact quotient is (q + r / b) * 2 ^ e *)
  assert (Z.pos ml * 2 ^ (el + 200) * Z.pos b <=
          (q * Z.pos b + r) * 2 ^ (e + 200)) as Hexact.
  { assert (0 < 2 ^ (eb + 23)) by (apply Z.pow_pos_nonneg; lia).
    assert (2 ^ 24 * 2 ^ (e + 200) * 2 ^ (eb + 23) = 2 ^ (ea + 23) * 2 ^ 200)
      as Hpow.
    { rewrite <- !Z.pow_add_r by (unfold e; lia). f_equal. unfold e. lia. }
    replace (q * Z.pos b + r) with (Z.pos a * 2 ^ 24) by lia.
    apply (Z.mul_le_mono_pos_r _ _ (2 ^ (eb + 23))); [lia|].
    replace (Z.pos a * 2 ^ 24 * 2 ^ (e + 200) * 2 ^ (eb + 23))
      with (Z.pos a * (2 ^ 24 * 2 ^ (e + 200) * 2 ^ (eb + 23))) by ring.
    rewrite Hpow.
    replace (Z.pos ml * 2 ^ (el + 200) * Z.pos b * 2 ^ (eb + 23))
      with (Z.pos ml * 2 ^ (el + 200) * (Z.pos b * 2 ^ (eb + 23))) by ring.
    replace (Z.pos a * (2 ^ (ea + 23) * 2 ^ 200))
      with (Z.pos a * 2 ^ (ea + 23) * 2 ^ 200) by ring.
    exact Hle. }
  destruct (bounded_cases ml el Hb) as [[Hml Hel]| ->].
  2:{ replace (-149 ?= er) with Lt; [reflexivity|].
      symmetry. apply Z.compare_lt_iff. unfold e in Hcase. lia. }
  assert (0 < 2 ^ (e + 200)) as Hp by (apply Z.pow_pos_nonneg; unfold e; lia).
  assert (forall k, 0 <= k -> e + k <= el -> Z.pos ml * 2 ^ k <= q) as Hk.
  { intros k Hk0 Hlek.
    assert (2 ^ k * 2 ^ (e + 200) <= 2 ^ (el + 200)) as Hmono.
    { rewrite <- Z.pow_add_r by (unfold e; lia).
      apply Z.pow_le_mono_r; lia. }
    assert (0 <= 2 ^ k) by (apply Z.pow_nonneg; lia).
    apply Z.lt_succ_r.
    apply (Z.mul_lt_mono_pos_r (2 ^ (e + 200))); [exact Hp|].
    apply (Z.mul_lt_mono_pos_r (Z.pos b)); [lia|].
    eapply Z.le_lt_trans; [|eapply Z.le_lt_trans; [exact Hexact|]].
    - rewrite <- !Z.mul_assoc. apply Z.mul_le_mono_nonneg_l; [lia|].
      rewrite !Z.mul_assoc. apply Z.mul_le_mono_nonneg_r; [lia|]. exact Hmono.
    - replace (Z.succ q * 2 ^ (e + 200) * Z.pos b)
        with ((q * Z.pos b + Z.pos b) * 2 ^ (e + 200)) by ring.
      apply Z.mul_lt_mono_pos_r; [exact Hp|]. lia. }
  pose proof (Hk 0 ltac:(lia)) as Hk0. pose proof (Hk 1 ltac:(lia)) as Hk1.
  pose proof (Hk 2 ltac:(lia)) as Hk2. pose proof (Hk 3 ltac:(lia)) as Hk3.
  change (2 ^ 0) with 1 in Hk0. change (2 ^ 1) with 2 in Hk1.
  change (2 ^ 2) with 4 in Hk2. change (2 ^ 3) with 8 in Hk3.
  clear Hk Hexact Hdm Hle Hp.
  assert (q / 2 ^ (Z.log2 q - 23) = if Z.log2 q =? 23 then q else q / 2) as Hcut.
  { destruct (Z.log2 q =? 23) eqn:E.
    - apply Z.eqb_eq in E. rewrite E. change (2 ^ (23 - 23)) with 1.
      apply Z.div_1_r.
    - replace (Z.log2 q) with 24 by lia. reflexivity. }
  assert (Z.log2 q = 23 <-> q < 2 ^ 24) as Hdigits.
  { pose proof (log2_range q ltac:(lia)) as Hrange. split.
    - intros E. rewrite E in Hrange. lia.
    - intros Hlt. destruct (decide (Z.log2 q = 23)) as [|Hne]; [assumption|].
      replace (Z.log2 q) with 24 in Hrange by lia. lia. }
  rewrite Hcut in Hcase.
  pose proof (Z.div_mod q 2 ltac:(lia)) as Hhalf.
  pose proof (Z.mod_pos_bound q 2 ltac:(lia)) as Hodd.
  set (half := q / 2) in *. set (low := q mod 2) in *.
  set (d := Z.log2 q) in *.
  clearbody half low d q r e.
  assert (el < er \/ (el = er /\ Z.pos ml <= Z.pos mr)) as Hcmp.
  { destruct (d =? 23) eqn:E; [apply Z.eqb_eq in E|apply Z.eqb_neq in E];
      destruct (Z.lt_trichotomy el er) as [Hlt|[Heq|Hgt]]; try (now left);
      destruct Hcase as [[-> Hm]|[-> [Hm Ht]]]; lia. }
  destruct Hcmp as [Hlt|[-> Hle']].
  - apply Z.compare_lt_iff in Hlt. rewrite Hlt. reflexivity.
  - rewrite Z.compare_refl.
    change (Pos.compare_cont Eq ml mr) with (Pos.compare ml mr).
    destruct (Pos.compare_spec ml mr); try reflexivity. lia.
Qed.

Lemma float_value_scaled ml el :
  -200 <= el ->
  (float_value (S754_finite false ml el) * inject_Z (2 ^ 200) ==
   inject_Z (Z.pos ml * 2 ^ (el + 200)))%Q.
Proof.
  intros Hel. unfold float_value.
  rewrite inject_Z_mult, !Zpower_Qpower by lia.
  rewrite Qpower_plus by discriminate.
  change (inject_Z 2) with 2%Q. ring.
Qed.

(** When the test [load >= load_factor] fails, the exact ratio is below the
    load factor, up to the rounding of the two operands; below [2 ^ 24] they
    are not rounded. *)
Lemma load_test_below x y ml el :
  0 <= x < 2 ^ 64 -> 0 < y < 2 ^ 64 ->
  bounded 24 128 ml el = true ->
  SFleb (S754_finite false ml el)
        (float_div (float_of_size x) (float_of_size y)) = false ->
  (x # Z.to_pos y
   < float_value (S754_finite false ml el) * (8388609 # 8388607))%Q /\
  (x < 2 ^ 24 -> y < 2 ^ 24 ->
   (x # Z.to_pos y < float_value (S754_finite false ml el))%Q).
Proof.
  intros Hx Hy Hb Htest.
  assert (-149 <= el) as Hel.
  { destruct (bounded_cases ml el Hb); lia. }
  assert (0 < 2 ^ (el + 200)) as Hp by (apply Z.pow_pos_nonneg; lia).
  set (T := Z.pos ml * 2 ^ (el + 200)).
  assert (0 < T) as HT by (apply Z.mul_pos_pos; lia).
  assert (x * (2 ^ 23 - 1) * 2 ^ 200 < T * y * (2 ^ 23 + 1) /\
          (x < 2 ^ 24 -> y < 2 ^ 24 -> x * 2 ^ 200 < T * y)) as [Hgen Hexact].
  { destruct (decide (x = 0)) as [->|Hne].
    { split; [|intros _ _]; rewrite ?Z.mul_0_l; repeat apply Z.mul_pos_pos; lia. }
    destruct (float_of_size_spec x ltac:(lia))
      as (a & ea & Hfa & Ha & Hea & Hax & Hax').
    destruct (float_of_size_spec y Hy)
      as (b & eb & Hfb & Hbr & Heb & Hby & Hby').
    rewrite Hfa, Hfb in Htest. unfold float_div in Htest.
    assert (Z.pos a * 2 ^ (ea + 23) * 2 ^ 200 < T * (Z.pos b * 2 ^ (eb + 23)))
      as Hlt.
    { apply Z.nle_gt. intros Hle.
      rewrite (SFdiv_reaches a ea b eb ml el) in Htest by assumption.
      discriminate. }
    set (A := Z.pos a * 2 ^ (ea + 23)) in *.
    set (B := Z.pos b * 2 ^ (eb + 23)) in *.
    assert (0 < 2 ^ 200) as H200 by reflexivity.
    set (N := 2 ^ 200) in *. clearbody A B N T. split.
    - apply Z.le_lt_trans with (A * N); [apply Z.mul_le_mono_nonneg_r; lia|].
      apply Z.lt_le_trans with (T * B); [exact Hlt|].
      rewrite <- Z.mul_assoc. apply Z.mul_le_mono_nonneg_l; lia.
    - intros Hx24 Hy24. rewrite (Hax' Hx24), (Hby' Hy24) in Hlt.
      apply (Z.mul_lt_mono_pos_r (2 ^ 23)); [reflexivity|]. lia. }
  fold T in Hgen. split.
  - apply (Qmult_lt_r _ _ (inject_Z (2 ^ 200))); [reflexivity|].
    rewrite <- Qmult_assoc, (Qmult_comm (8388609 # 8388607)), Qmult_assoc.
    rewrite float_value_scaled by lia. fold T.
    unfold Qlt, Qmult, inject_Z. simpl Qnum. simpl Qden.
    rewrite Pos.mul_1_r, Pos.mul_1_l, Z2Pos.id by lia.
    change (2 ^ 23 - 1) with 8388607 in Hgen.
    change (2 ^ 23 + 1) with 8388609 in Hgen.
    set (N := 2 ^ 200) in *. clearbody N T. lia.
  - intros Hx24 Hy24.
    apply (Qmult_lt_r _ _ (inject_Z (2 ^ 200))); [reflexivity|].
    rewrite float_value_scaled by lia. fold T.
    unfold Qlt, Qmult, inject_Z. simpl Qnum. simpl Qden.
    rewrite Pos.mul_1_r, Z.mul_1_r, Z2Pos.id by lia. now apply Hexact.
Qed.


(** The load is never an infinity or a NaN. *)
Lemma current_load_finite x y :
  0 <= x < 2 ^ 64 -> 0 < y < 2 ^ 64 ->
  float_div (float_of_size x) (float_of_size y) = S754_zero false \/
  exists mantissa exponent,
    float_div (float_of_size x) (float_of_size y) =
    S754_finite false mantissa exponent.
Proof.
  intros Hx Hy.
  destruct (float_of_size_spec y Hy) as (b & eb & -> & Hb & Heb & _).
  destruct (decide (x = 0)) as [->|Hne]; [left; reflexivity|right].
  destruct (float_of_size_spec x ltac:(lia)) as (a & ea & -> & Ha & Hea & _).
  unfold float_div, SFdiv. rewrite SFdiv_core_binary_spec by lia.
  cbv beta iota zeta. cbn [xorb].
  set (q := Z.pos a * 2 ^ 24 / Z.pos b).
  assert (2 ^ 23 <= q < 2 ^ 25) as Hq.
  { split.
    - apply Z.div_le_lower_bound; lia.
    - apply Z.div_lt_upper_bound; lia. }
  assert (Z.log2 q < 25) as Hlog by (apply Z.log2_lt_pow2; lia).
  destruct (binary_round_aux_spec q (ea - eb - 24)
              (new_location (Z.pos b) ((Z.pos a * 2 ^ 24) mod Z.pos b)))
    as (mr & er & -> & _); [lia | lia | lia |]. eauto.
Qed.

(** * The claims *)

(** ** Allocation failure in hashmap_insert *)

(** C1, as stated, fails: the growth step runs before the entry is allocated.
    In a table of one bucket that holds one pair the load is 1; with the new
    bucket array granted and the entry refused, the insert of a second key
    returns -1 and leaves a map of capacity 2. *)
Lemma insert_failure_claim_counterexample :
  capacity one_pair = 1 /\
  status_of (hashmap_insert (Some one_pair) (Some key_hello) val_world
               [true; false]) = Some (-1) /\
  capacity (after_insert one_pair key_hello val_world [true; false]) = 2 /\
  ~ insert_failure_claim one_pair key_hello val_world [true; false].
Proof.
  split; [vm_compute; reflexivity|]. split; [vm_compute; reflexivity|].
  split; [vm_compute; reflexivity|].
  intros Hclaim.
  destruct (Hclaim (-1) (after_insert one_pair key_hello val_world [true; false]) [])
    as [_ Heq].
  - apply after_insert_eq; vm_compute; reflexivity.
  - exists [true; false]. split; [reflexivity|]. right. left.
  - apply (f_equal capacity) in Heq. vm_compute in Heq. discriminate.
Qed.

(** C1, amended: on a valid map, for a key of non-zero length that has no
    entry, the growth step returns a map [m1] that has the size, the entries
    (as a multiset) and the answers to every [hashmap_get] of the map before
    the call, and that is the map before the call unless the load had reached
    the threshold and the new bucket array was granted, in which case its
    capacity is the double; and when one of the three allocations of
    [hashmap_create_entry] is then refused, [hashmap_insert] returns -1 and
    leaves exactly [m1]: no entry is linked in. *)
Theorem insert_new_key_alloc_failure m (K V : buffer) s :
  valid m -> array_fits m -> K <> [] -> absent m K ->
  exists m1 s1,
    insert_grow m s = Done m1 s1 /\
    (m1 = m \/ (load_exceeded m = true /\ capacity m1 = capacity m * 2)) /\
    size m1 = size m /\ entries m1 ≡ₚ entries m /\
    (forall key_data ov os s0,
       hashmap_get (Some m1) key_data ov os s0 =
       hashmap_get (Some m) key_data ov os s0) /\
    (forall s2,
       hashmap_create_entry K V s1 = Done None s2 ->
       hashmap_insert (Some m) (Some K) V s = Done (-1, Some m1) s2).
Proof.
  intros Hv Hfit HK Habs. pose proof Hv as (Hok & _).
  pose proof Hok as (_ & _ & _ & Hcap & _).
  destruct (insert_grow_spec m s Hok)
    as (m1 & s1 & Hg & Hf & Hsz & Hok1 & Hperm & Hcase).
  assert (valid m1) as Hv1 by now apply (valid_perm m).
  assert (forall k, hashmap_lookup m1 k = hashmap_lookup m k) as Hlk
    by (intros k; now apply hashmap_lookup_perm).
  exists m1, s1. split; [exact Hg|]. split.
  { destruct Hcase as [[-> _]|(Hl & Hc & _)]; [now left|right].
    split; [exact Hl|]. now rewrite Hc, doubled_capacity. }
  split; [exact Hsz|]. split; [exact Hperm|]. split.
  { intros key_data ov os s0. now apply hashmap_get_same. }
  intros s2 Hce. apply (hashmap_insert_unfold m K V s m1 s1);
    [now apply nonempty_len | exact Hg|].
  destruct (insert_place_spec m1 K V s1 Hok1)
    as (rc & m' & s' & Hp & _ & _ & _ & Hplace).
  rewrite Hlk, (absent_lookup m K Habs) in Hplace.
  destruct Hplace as (new_entry & Hce' & Hnew).
  rewrite Hce in Hce'. injection Hce' as <- <-.
  destruct Hnew as [-> ->]. exact Hp.
Qed.

Lemma insert_new_key_alloc_failure_witness :
  exists m1 s1,
    insert_grow one_pair [true; false] = Done m1 s1 /\
    (m1 = one_pair \/
     (load_exceeded one_pair = true /\ capacity m1 = capacity one_pair * 2)) /\
    size m1 = size one_pair /\ entries m1 ≡ₚ entries one_pair /\
    (forall key_data ov os s0,
       hashmap_get (Some m1) key_data ov os s0 =
       hashmap_get (Some one_pair) key_data ov os s0) /\
    (forall s2,
       hashmap_create_entry key_hello val_world s1 = Done None s2 ->
       hashmap_insert (Some one_pair) (Some key_hello) val_world [true; false] =
       Done (-1, Some m1) s2).
Proof.
  apply insert_new_key_alloc_failure.
  - exact one_pair_valid.
  - vm_compute. reflexivity.
  - discriminate.
  - intros e He. vm_compute in He.
    apply list_elem_of_singleton in He as ->. vm_compute. reflexivity.
Defined.

(** The update branch frees the old value before it asks for the new one:
    when that request is refused, the entry is left with a [NULL] value and
    its old [value_size], and a later [hashmap_get] of the key copies from
    [NULL]. *)
Lemma update_failure_loses_value :
  status_of (hashmap_insert (Some (fresh 16)) (Some key_42) val_pi []) = Some 0 /\
  status_of (hashmap_insert (Some (after_insert (fresh 16) key_42 val_pi []))
               (Some key_42) val_world [false]) = Some (-1) /\
  entries (after_insert (after_insert (fresh 16) key_42 val_pi [])
             key_42 val_world [false]) =
    [{| key := key_42; value := None; value_size := 8 |}] /\
  hashmap_get (Some (after_insert (after_insert (fresh 16) key_42 val_pi [])
                       key_42 val_world [false]))
    (Some key_42) true true [] = Fault.
Proof. vm_compute. repeat split; reflexivity. Qed.

(** ** Round trip *)

(** C2: after a [hashmap_insert] of [(K, V)] into a valid map returned 0, and
    after any sequence of further calls of [hashmap_insert], [hashmap_remove]
    and [hashmap_resize] (successful or not, with any answers of the
    allocator) none of which is an insert or a remove for a key that compares
    equal to [K], the calls have all returned and [hashmap_get] of [K] with
    both output pointers returns 1 with a copy equal to [V] and the length of
    [V] when the buffer of the copy is granted; when it is refused it returns
    the allocation error -1. It never returns 0 or another value. *)
Theorem get_after_insert m (K V : buffer) s m1 s1 ops :
  valid m -> K <> [] ->
  hashmap_insert (Some m) (Some K) V s = Done (0, Some m1) s1 ->
  Forall (leaves m K) ops ->
  forall s2,
    exists m2 s3,
      run_ops ops m1 s2 = Done m2 s3 /\
      forall s4,
        hashmap_get (Some m2) (Some K) true true s4 =
        match malloc s4 with
        | Done true s5 =>
            Done {| status := 1; out_val := Some (Some V);
                    out_size := Some (len V) |} s5
        | Done false s5 =>
            Done {| status := -1; out_val := Some None; out_size := None |} s5
        | Fault => Fault
        end.
Proof.
  intros Hv HK Hins Hops s2. pose proof Hv as (Hok & _).
  destruct (hashmap_insert_inv m K V s 0 m1 s1 Hok HK Hins)
    as (mg & sg & Hg & Hp).
  destruct (insert_grow_valid m s Hv) as (mg' & sg' & Hg' & Hvg & Hfg & _).
  rewrite Hg in Hg'. injection Hg' as <- <-.
  destruct (insert_place_valid mg K V sg 0 m1 s1 Hvg Hp) as (Hv1 & Hf1 & _ & Hget).
  destruct (Hget eq_refl) as (e & He & Hval & Hsz & _).
  assert (same_funcs m m1) as Hf by eauto using same_funcs_trans.
  destruct (run_ops_frame m K ops Hops m1 s2 Hv1 Hf)
    as (m2 & s3 & Hrun & Hv2 & _ & Hlk).
  exists m2, s3. split; [exact Hrun|]. intros s4.
  apply (hashmap_get_value m2 K e V s4); auto; [apply Hv2 | congruence].
Qed.

Lemma get_after_insert_witness :
  exists m2 s3,
    run_ops [OpInsert key_hello val_world; OpResize 7; OpRemove key_hello;
             OpInsert key_hello val_pi]
      (after_insert (fresh 1) key_42 val_pi []) [true; false] = Done m2 s3 /\
    forall s4,
      hashmap_get (Some m2) (Some key_42) true true s4 =
      match malloc s4 with
      | Done true s5 =>
          Done {| status := 1; out_val := Some (Some val_pi);
                  out_size := Some (len val_pi) |} s5
      | Done false s5 =>
          Done {| status := -1; out_val := Some None; out_size := None |} s5
      | Fault => Fault
      end.
Proof.
  apply (get_after_insert (fresh 1) key_42 val_pi []
           (after_insert (fresh 1) key_42 val_pi []) []).
  - apply fresh_valid. lia.
  - discriminate.
  - apply after_insert_eq; vm_compute; reflexivity.
  - repeat constructor.
Defined.

(** ** Resize keeps the pairs *)

(** C3: a successful [hashmap_resize] of a valid map to [n] buckets, called
    directly or by the growth step of [hashmap_insert], keeps the entries as a
    multiset (the list of entries is permuted: none lost, none duplicated,
    none changed), keeps [size] and the keys distinct, and every
    [hashmap_get], for every key and every script, answers as before. *)
Theorem resize_preserves_entries :
  (forall m n s m' s',
     valid m -> hashmap_resize m n s = Done (0, m') s' ->
     capacity m' = n /\ size m' = size m /\ entries m' ≡ₚ entries m /\
     keys_unique m' /\
     (forall k, hashmap_lookup m' k = hashmap_lookup m k) /\
     (forall key_data ov os s0,
        hashmap_get (Some m') key_data ov os s0 =
        hashmap_get (Some m) key_data ov os s0)) /\
  (forall m s m1 s1,
     valid m -> insert_grow m s = Done m1 s1 ->
     size m1 = size m /\ entries m1 ≡ₚ entries m /\ keys_unique m1 /\
     (forall k, hashmap_lookup m1 k = hashmap_lookup m k) /\
     (forall key_data ov os s0,
        hashmap_get (Some m1) key_data ov os s0 =
        hashmap_get (Some m) key_data ov os s0)).
Proof.
  split.
  - intros m n s m' s' Hv Hr. pose proof Hv as (Hok & _).
    destruct (hashmap_resize_valid m n s 0 m' s' Hv Hr)
      as (Hv' & Hf & Hsz & Hp & Hlk).
    destruct (hashmap_resize_spec m n s Hok) as (rc & m0 & s0 & Hr0 & Hcase).
    rewrite Hr in Hr0. injection Hr0 as <- <- <-.
    destruct Hcase as [(? & _)|(_ & _ & _ & Hcap & _)]; [discriminate|].
    repeat (split; [assumption || apply Hv'|]).
    intros key_data ov os s1. apply hashmap_get_same; auto. apply Hv'.
  - intros m s m1 s1 Hv Hg. pose proof Hv as (Hok & _).
    destruct (insert_grow_valid m s Hv) as (m0 & s0 & Hg0 & Hv' & Hf & Hsz & Hp & Hlk).
    rewrite Hg in Hg0. injection Hg0 as <- <-.
    repeat (split; [assumption || apply Hv'|]).
    intros key_data ov os s0. apply hashmap_get_same; auto. apply Hv'.
Qed.

Lemma resize_preserves_entries_witness :
  (capacity (after_resize two_pairs 5 []) = 5 /\
   size (after_resize two_pairs 5 []) = size two_pairs /\
   entries (after_resize two_pairs 5 []) ≡ₚ entries two_pairs /\
   keys_unique (after_resize two_pairs 5 []) /\
   (forall k, hashmap_lookup (after_resize two_pairs 5 []) k =
              hashmap_lookup two_pairs k) /\
   (forall key_data ov os s0,
      hashmap_get (Some (after_resize two_pairs 5 [])) key_data ov os s0 =
      hashmap_get (Some two_pairs) key_data ov os s0)) /\
  (size (after_grow two_pairs []) = size two_pairs /\
   entries (after_grow two_pairs []) ≡ₚ entries two_pairs /\
   keys_unique (after_grow two_pairs []) /\
   (forall k, hashmap_lookup (after_grow two_pairs []) k =
              hashmap_lookup two_pairs k) /\
   (forall key_data ov os s0,
      hashmap_get (Some (after_grow two_pairs [])) key_data ov os s0 =
      hashmap_get (Some two_pairs) key_data ov os s0)) /\
  size two_pairs = 2 /\
  hashmap_get (Some (after_resize two_pairs 5 [])) (Some key_hello) true true [] =
    Done {| status := 1; out_val := Some (Some val_world); out_size := Some 6 |} [].
Proof.
  destruct resize_preserves_entries as (Hres & Hgrow).
  split; [|split; [|split; vm_compute; reflexivity]].
  - apply (Hres two_pairs 5 [] (after_resize two_pairs 5 []) []).
    + exact two_pairs_valid.
    + apply after_resize_eq; vm_compute; reflexivity.
  - apply (Hgrow two_pairs [] (after_grow two_pairs []) []).
    + exact two_pairs_valid.
    + apply after_grow_eq. vm_compute. reflexivity.
Defined.

(** ** The structural invariant *)

(** C4: every operation keeps the structural invariant of an initialized map
    ([structural]: the bucket array has [capacity] slots, [capacity >= 1],
    [size] is the number of entries of all the chains, and every entry of
    bucket [i] has a key whose hash modulo [capacity] is [i]). A successful
    [hashmap_init] establishes it; [hashmap_insert], [hashmap_remove] and
    [hashmap_resize] return and keep it, whatever their arguments and whatever
    the allocator answers, as long as the count of entries still fits
    [size_t] after an insert. [hashmap_get] takes the map through a pointer to
    [const] and has no map among its results. *)
Theorem structural_invariant_preserved :
  (forall old cap hf ef lf s m s',
     0 <= cap ->
     hashmap_init (Some old) cap hf ef lf s = Done (0, Some m) s' ->
     structural m) /\
  (forall m key_data v s,
     structural m -> size m + 1 < 2 ^ 64 ->
     exists rc m' s',
       hashmap_insert (Some m) key_data v s = Done (rc, Some m') s' /\
       structural m') /\
  (forall m key_data s,
     structural m ->
     exists rc m',
       hashmap_remove (Some m) key_data s = Done (rc, Some m') s /\
       structural m') /\
  (forall m n s,
     structural m ->
     exists rc m' s',
       hashmap_resize m n s = Done (rc, m') s' /\ structural m').
Proof.
  assert (Hresize : forall m n s, structural m ->
            exists rc m' s', hashmap_resize m n s = Done (rc, m') s' /\
                             structural m' /\ size m' = size m).
  { intros m n s [Hok [Hsz Hlt]].
    destruct (hashmap_resize_spec m n s Hok) as (rc & m' & s' & Hr & Hcase).
    exists rc, m', s'. split; [exact Hr|].
    destruct Hcase as [(_ & -> & _)|(_ & _ & _ & _ & Hsz' & _ & Hok' & Hp)].
    - repeat split; assumption.
    - split; [|exact Hsz']. split; [exact Hok'|]. unfold size_ok.
      rewrite Hsz', (Permutation_length Hp). auto. }
  split; [|split; [|split]].
  - intros old cap hf ef lf s m s' Hcap Hinit.
    destruct (hashmap_init_ok old cap hf ef lf s m s' Hcap Hinit) as (? & ? & _).
    now split.
  - intros m [k|] v s Hst Hfit; [|exists (-1), m, s; now split].
    unfold hashmap_insert.
    destruct (len k =? 0); [exists (-1), m, s; now split|].
    assert (exists m1 s1, insert_grow m s = Done m1 s1 /\ structural m1 /\
                          size m1 = size m) as (m1 & s1 & Hg & Hst1 & Hsz1).
    { unfold insert_grow. destruct (load_exceeded m).
      - destruct (Hresize m (wrap64 (capacity m * 2)) s Hst)
          as (rc & m' & s' & Hr & Hst' & Hsz').
        exists m', s'. unfold bind. rewrite Hr. auto.
      - exists m, s. auto. }
    unfold bind. rewrite Hg.
    destruct Hst1 as [Hok1 [Hcount Hlt]].
    destruct (insert_place_spec m1 k v s1 Hok1)
      as (rc & m' & s' & Hp & _ & _ & Hok' & Hcase).
    rewrite Hp. exists rc, m', s'. split; [reflexivity|].
    split; [exact Hok'|]. unfold size_ok. simpl.
    destruct (hashmap_lookup m1 k) as [e0|].
    + destruct Hcase as (granted & rest & _ & _ & Hsz & Hperm & Hperm').
      rewrite Hsz, Hcount, (Permutation_length Hperm), (Permutation_length Hperm').
      split; [reflexivity|].
      rewrite <- (Permutation_length Hperm), <- Hcount. exact Hlt.
    + destruct Hcase as ([e|] & _ & Hcase).
      * destruct Hcase as (_ & _ & Hsz & Hperm).
        rewrite Hsz, (Permutation_length Hperm). simpl length.
        unfold wrap64. rewrite Z.mod_small by lia. lia.
      * destruct Hcase as (_ & ->). auto.
  - intros m [k|] s Hst; [|exists (-1), m; now split].
    destruct (decide (len k = 0)) as [Hk|Hk].
    { unfold hashmap_remove. rewrite Hk. simpl. exists (-1), m. now split. }
    destruct Hst as [Hok [Hcount Hlt]].
    destruct (hashmap_remove_spec m k s Hok Hk)
      as (rc & m' & Hr & _ & _ & Hok' & Hcase).
    exists rc, m'. split; [exact Hr|]. split; [exact Hok'|]. unfold size_ok.
    destruct (hashmap_lookup m k) as [e0|].
    + destruct Hcase as (_ & Hsz & Hperm).
      apply Permutation_length in Hperm. simpl in Hperm.
      rewrite Hsz. unfold wrap64. rewrite Z.mod_small by lia. lia.
    + destruct Hcase as (_ & ->). auto.
  - intros m n s Hst.
    destruct (Hresize m n s Hst) as (rc & m' & s' & Hr & Hst' & _). eauto.
Qed.

Lemma structural_invariant_preserved_witness :
  structural (fresh 16) /\
  (exists rc m' s',
     hashmap_insert (Some (fresh 16)) (Some key_42) val_pi [] =
       Done (rc, Some m') s' /\ structural m') /\
  (exists rc m',
     hashmap_remove (Some (fresh 16)) (Some key_42) [] = Done (rc, Some m') [] /\
     structural m') /\
  (exists rc m' s',
     hashmap_resize (fresh 16) 32 [] = Done (rc, m') s' /\ structural m').
Proof.
  destruct structural_invariant_preserved as (Hinit & Hins & Hrem & Hres).
  assert (structural (fresh 16)) as Hst.
  { apply (Hinit (fresh 16) 0 None None float_zero [] (fresh 16) []);
      [lia | reflexivity]. }
  split; [exact Hst|]. split; [|split].
  - apply Hins; [exact Hst | simpl; lia].
  - apply Hrem. exact Hst.
  - apply Hres. exact Hst.
Defined.

(** ** A failed resize *)

(** C5: a [hashmap_resize] that does not return 0 leaves the map untouched,
    and it returns -1 when [calloc] refuses the new bucket array. When that
    happens in the growth step of [hashmap_insert], the insert goes on with
    the table as it was: it is the placing step run on the unresized map, and
    with the remaining requests granted it returns 0, keeps the capacity and
    has stored the value. *)
Theorem resize_failure_is_harmless :
  (forall m n s rc m' s',
     hashmap_resize m n s = Done (rc, m') s' -> rc <> 0 -> m' = m) /\
  (forall m n s s',
     1 <= n -> calloc n sizeof_ptr s = Done false s' ->
     hashmap_resize m n s = Done (-1, m) s') /\
  (forall m (k : buffer) v s s1,
     1 <= capacity m -> array_fits m -> k <> [] -> load_exceeded m = true ->
     calloc (wrap64 (capacity m * 2)) sizeof_ptr s = Done false s1 ->
     hashmap_insert (Some m) (Some k) v s =
     (placed <- insert_place m k v ;; ret (fst placed, Some (snd placed))) s1) /\
  (forall m (k : buffer) v s s1,
     valid m -> array_fits m -> k <> [] -> load_exceeded m = true ->
     calloc (wrap64 (capacity m * 2)) sizeof_ptr s = Done false s1 ->
     all_granted s1 ->
     exists m' s' e,
       hashmap_insert (Some m) (Some k) v s = Done (0, Some m') s' /\
       capacity m' = capacity m /\
       hashmap_lookup m' k = Some e /\ value e = Some v /\ value_size e = len v).
Proof.
  assert (Hfail : forall m n s s', 1 <= n ->
            calloc n sizeof_ptr s = Done false s' ->
            hashmap_resize m n s = Done (-1, m) s').
  { intros m n s s' Hn Hc. unfold hashmap_resize.
    destruct (n <? 1) eqn:E; [lia|]. unfold bind. now rewrite Hc. }
  assert (Hins : forall m (k : buffer) v s s1,
            1 <= capacity m -> array_fits m -> k <> [] ->
            load_exceeded m = true ->
            calloc (wrap64 (capacity m * 2)) sizeof_ptr s = Done false s1 ->
            hashmap_insert (Some m) (Some k) v s =
            (placed <- insert_place m k v ;; ret (fst placed, Some (snd placed))) s1).
  { intros m k v s s1 Hcap Hfit Hk Hl Hc. unfold hashmap_insert.
    destruct (len k =? 0) eqn:E; [apply nonempty_len in Hk; lia|].
    unfold insert_grow. rewrite Hl. unfold bind at 1 2.
    rewrite (Hfail m _ s s1); [reflexivity| |exact Hc].
    rewrite doubled_capacity by assumption. lia. }
  split; [exact hashmap_resize_failure|]. split; [exact Hfail|].
  split; [exact Hins|].
  intros m k v s s1 Hv Hfit Hk Hl Hc Hs1. pose proof Hv as (Hok & _).
  pose proof Hok as (_ & _ & _ & Hcap & _).
  rewrite (Hins m k v s s1 Hcap Hfit Hk Hl Hc). unfold bind.
  destruct (insert_place_spec m k v s1 Hok)
    as (rc & m' & s' & Hp & _ & Hcap' & _ & Hcase).
  assert (rc = 0) as ->.
  { destruct (hashmap_lookup m k) as [e0|].
    - destruct Hcase as (granted & rest & Hm & -> & _).
      destruct (malloc_granted s1 Hs1) as (s2 & Hm2 & _).
      rewrite Hm2 in Hm. now injection Hm as <- <-.
    - destruct Hcase as (new_entry & Hce & Hcase).
      destruct (hashmap_create_entry_granted k v s1 Hs1) as (s2 & Hce2 & _).
      rewrite Hce2 in Hce. injection Hce as <- <-. tauto. }
  destruct (insert_place_valid m k v s1 0 m' s' Hv Hp) as (_ & _ & _ & Hget).
  destruct (Hget eq_refl) as (e & He & Hval & Hsz & _).
  exists m', s', e. rewrite Hp. simpl. auto.
Qed.

Lemma resize_failure_is_harmless_witness :
  (hashmap_resize (fresh 16) 0 [] = Done (-1, fresh 16) [] /\
   fresh 16 = fresh 16) /\
  hashmap_resize (fresh 16) 32 [false] = Done (-1, fresh 16) [] /\
  hashmap_insert (Some (after_insert (fresh 1) key_42 val_pi []))
    (Some key_hello) val_world [false] =
  (placed <- insert_place (after_insert (fresh 1) key_42 val_pi [])
               key_hello val_world ;;
   ret (fst placed, Some (snd placed))) [] /\
  exists m' s' e,
    hashmap_insert (Some (after_insert (fresh 1) key_42 val_pi []))
      (Some key_hello) val_world [false] = Done (0, Some m') s' /\
    capacity m' = 1 /\
    hashmap_lookup m' key_hello = Some e /\
    value e = Some val_world /\ value_size e = 6.
Proof.
  destruct resize_failure_is_harmless as (Hkeep & Hfail & Hgo & Hins).
  split; [|split; [|split]].
  - split; [reflexivity|].
    apply (Hkeep (fresh 16) 0 [] (-1) (fresh 16) []); [reflexivity | lia].
  - apply Hfail; [lia | reflexivity].
  - apply Hgo; [vm_compute; discriminate | vm_compute; reflexivity
               | discriminate | vm_compute; reflexivity | reflexivity].
  - apply (Hins (after_insert (fresh 1) key_42 val_pi []) key_hello val_world
             [false] []).
    + apply after_insert_valid, fresh_valid. lia.
    + vm_compute. reflexivity.
    + discriminate.
    + vm_compute. reflexivity.
    + reflexivity.
    + constructor.
Defined.

(** ** Update of an existing key *)

(** C6: on a valid map that holds an entry for the key [K], a
    [hashmap_insert] of [(K, V')] that returns 0 leaves [size] and the number
    of entries as they were, and the entry of [K] now holds [V'] with
    [value_size] the length of [V']; a following [hashmap_get] of [K] returns
    1 with a copy of [V'] and its length when its buffer is granted (and -1
    otherwise): never the former value. *)
Theorem insert_existing_key_updates m (K V' : buffer) s m' s' :
  valid m -> K <> [] -> present m K ->
  hashmap_insert (Some m) (Some K) V' s = Done (0, Some m') s' ->
  size m' = size m /\
  length (entries m') = length (entries m) /\
  (exists e0,
     hashmap_lookup m K = Some e0 /\
     hashmap_lookup m' K =
       Some {| key := key e0; value := Some V'; value_size := len V' |}) /\
  (forall s0,
     hashmap_get (Some m') (Some K) true true s0 =
     match malloc s0 with
     | Done true s1 =>
         Done {| status := 1; out_val := Some (Some V');
                 out_size := Some (len V') |} s1
     | Done false s1 =>
         Done {| status := -1; out_val := Some None; out_size := None |} s1
     | Fault => Fault
     end).
Proof.
  intros Hv HK (e0 & He0 & Hm0) Hins. pose proof Hv as (Hok & _).
  destruct (hashmap_insert_inv m K V' s 0 m' s' Hok HK Hins)
    as (m1 & s1 & Hg & Hp).
  destruct (insert_grow_valid m s Hv)
    as (m1' & s1' & Hg' & Hv1 & Hf1 & Hsz1 & Hperm1 & Hlk1).
  rewrite Hg in Hg'. injection Hg' as <- <-.
  pose proof Hv1 as (Hok1 & _).
  assert (hashmap_lookup m K = Some e0) as Hlk0
    by (apply hashmap_lookup_Some; auto).
  destruct (insert_place_spec m1 K V' s1 Hok1)
    as (rc & m0 & s0 & Hp0 & _ & _ & _ & Hcase).
  rewrite Hp in Hp0. injection Hp0 as <- <- <-.
  rewrite Hlk1, Hlk0 in Hcase.
  destruct Hcase as (granted & rest & _ & _ & Hsz & Hperm & Hperm').
  destruct (insert_place_valid m1 K V' s1 0 m' s' Hv1 Hp)
    as (Hv' & _ & _ & Hget).
  destruct (Hget eq_refl) as (e & He & Hval & Hvs & Hkey).
  rewrite Hlk1, Hlk0 in Hkey.
  split; [congruence|]. split.
  { rewrite (Permutation_length Hperm'), <- (Permutation_length Hperm1),
      (Permutation_length Hperm). reflexivity. }
  split.
  - exists e0. split; [exact Hlk0|]. rewrite He. f_equal.
    destruct e as [ek ev es]. simpl in *. congruence.
  - intros s2. apply (hashmap_get_value m' K e V' s2); auto. apply Hv'.
Qed.

Lemma insert_existing_key_updates_witness :
  size (after_insert two_pairs key_42 val_world []) = size two_pairs /\
  length (entries (after_insert two_pairs key_42 val_world [])) =
    length (entries two_pairs) /\
  (exists e0,
     hashmap_lookup two_pairs key_42 = Some e0 /\
     hashmap_lookup (after_insert two_pairs key_42 val_world []) key_42 =
       Some {| key := key e0; value := Some val_world;
               value_size := len val_world |}) /\
  (forall s0,
     hashmap_get (Some (after_insert two_pairs key_42 val_world []))
       (Some key_42) true true s0 =
     match malloc s0 with
     | Done true s1 =>
         Done {| status := 1; out_val := Some (Some val_world);
                 out_size := Some (len val_world) |} s1
     | Done false s1 =>
         Done {| status := -1; out_val := Some None; out_size := None |} s1
     | Fault => Fault
     end).
Proof.
  apply (insert_existing_key_updates two_pairs key_42 val_world []
           (after_insert two_pairs key_42 val_world []) []).
  - exact two_pairs_valid.
  - discriminate.
  - exists {| key := key_42; value := Some val_pi; value_size := 8 |}.
    split; [vm_compute; do 2 constructor | vm_compute; reflexivity].
  - apply after_insert_eq; vm_compute; reflexivity.
Defined.

(** ** The load after an insert *)

(** C7, as stated, fails: the threshold is compared with the load before the
    new entry is placed. The first insert into the empty table that
    [hashmap_init] builds for capacity 1 (threshold 0.75, load 0) does not
    grow the table and leaves the ratio 1, above both 0.75 and 0. *)
Lemma load_bound_claim_counterexample :
  hashmap_init (Some (fresh 16)) 1 None None float_zero [] =
    Done (0, Some (fresh 1)) [] /\
  hashmap_insert (Some (fresh 1)) (Some key_42) val_pi [] =
    Done (0, Some one_pair) [] /\
  ~ load_bound_claim (fresh 1) one_pair.
Proof.
  split; [reflexivity|]. split.
  - apply after_insert_eq; vm_compute; reflexivity.
  - unfold load_bound_claim. vm_compute. intros [H|H]; apply H; reflexivity.
Qed.

(** A NaN and an infinity are thresholds that [hashmap_init] keeps, and with
    them the test of the growth step never fires: the table never grows. *)
Lemma unbounded_threshold_never_grows lf :
  lf = S754_nan \/ lf = S754_infinity false ->
  (exists m,
     hashmap_init (Some (fresh 16)) 1 None None lf [] = Done (0, Some m) [] /\
     load_factor m = lf /\ threshold_ok m) /\
  (forall m,
     structural m -> array_fits m -> load_factor m = lf ->
     load_exceeded m = false).
Proof.
  intros Hlf. split.
  - destruct Hlf as [->| ->]; eexists; repeat split; reflexivity.
  - intros m [Hok [Hcount Hlt]] Hfit Hm.
    pose proof Hok as (_ & _ & _ & Hcap & _).
    unfold array_fits, sizeof_ptr in Hfit.
    unfold load_exceeded, current_load. rewrite Hm.
    destruct Hlf as [->| ->]; [reflexivity|].
    destruct (current_load_finite (size m) (capacity m)) as [->|(ml & el & ->)];
      [lia | lia | reflexivity | reflexivity].
Qed.

(** From [2 ^ 24] on the operands of the load test are rounded: with
    [2 ^ 24 + 1] entries in [2 ^ 24 + 3] buckets the test does not fire for
    the threshold [1 - 2 ^ -23], which the exact ratio exceeds. *)
Lemma load_test_rounds_large_operands :
  SFleb (S754_finite false 16777214 (-24))
        (float_div (float_of_size (2 ^ 24 + 1)) (float_of_size (2 ^ 24 + 3)))
    = false /\
  bounded 24 128 16777214 (-24) = true /\
  (float_value (S754_finite false 16777214 (-24))
   < (2 ^ 24 + 1) # Z.to_pos (2 ^ 24 + 3))%Q.
Proof. repeat split; vm_compute; reflexivity. Qed.

(** C7, amended: on an initialized map whose threshold is a finite number,
    after a [hashmap_insert] that returned 0 with every request of the script
    granted, one of three holds.  The test of the growth step fired, the
    capacity has doubled and [size / capacity] is at most what it was before
    the call.  Or the test did not fire, the capacity is the same and [size]
    has grown by at most one: then [size / capacity] was below the threshold
    before the call and is below [load_factor + 1 / capacity] after it when
    [size] and [capacity] are below [2 ^ 24], and in general up to the
    rounding of the two operands of the test to single precision, a factor of
    [(2 ^ 23 + 1) / (2 ^ 23 - 1)] on the threshold.  Or the test fired but
    an array of twice the capacity does not fit [size_t] (the capacity is
    [2 ^ 60] or more), and the table is not resized. *)
Theorem load_after_insert m (K V : buffer) s m' s' :
  structural m -> array_fits m -> threshold_finite m ->
  K <> [] -> all_granted s ->
  hashmap_insert (Some m) (Some K) V s = Done (0, Some m') s' ->
  (load_exceeded m = true /\ capacity m' = capacity m * 2 /\
   size m' <= size m + 1 /\ (ratio m' <= ratio m)%Q) \/
  (load_exceeded m = false /\ capacity m' = capacity m /\
   size m' <= size m + 1 /\
   (ratio m < float_value (load_factor m) * (8388609 # 8388607))%Q /\
   (ratio m' < float_value (load_factor m) * (8388609 # 8388607)
               + (1 # Z.to_pos (capacity m)))%Q /\
   (size m < 2 ^ 24 -> capacity m < 2 ^ 24 ->
    (ratio m < float_value (load_factor m))%Q /\
    (ratio m' < float_value (load_factor m)
                + (1 # Z.to_pos (capacity m)))%Q)) \/
  (load_exceeded m = true /\ 2 ^ 64 <= capacity m * 2 * sizeof_ptr /\
   capacity m' = capacity m /\ size m' <= size m + 1).
Proof.
  intros [Hok [Hcount Hlt]] Hfit Hfin HK Hs Hins.
  pose proof Hok as (_ & _ & _ & Hcap & _).
  assert (0 <= size m) as Hsize by lia.
  assert (capacity m < 2 ^ 64) as Hcap64
    by (unfold array_fits, sizeof_ptr in Hfit; lia).
  assert (threshold_ok m) as Hthr.
  { unfold threshold_ok. unfold threshold_finite in Hfin.
    destruct (load_factor m) as [| | |[|] ml el]; try contradiction.
    reflexivity. }
  destruct (hashmap_insert_inv m K V s 0 m' s' Hok HK Hins)
    as (m1 & s1 & Hg & Hp).
  destruct (insert_grow_spec m s Hok)
    as (m1' & s1' & Hg' & _ & Hsz1 & Hok1 & _ & Hgrow).
  rewrite Hg in Hg'. injection Hg' as <- <-.
  destruct (insert_place_spec m1 K V s1 Hok1)
    as (rc & m0 & s0 & Hp0 & _ & Hcap' & _ & Hplace).
  rewrite Hp in Hp0. injection Hp0 as <- <- <-.
  assert (0 <= size m' <= size m + 1) as Hsz'.
  { destruct (hashmap_lookup m1 K).
    - destruct Hplace as (_ & _ & _ & _ & -> & _). lia.
    - destruct Hplace as ([e|] & _ & Hnew).
      + destruct Hnew as (_ & _ & -> & _).
        pose proof (wrap64_range (size m1 + 1)).
        pose proof (wrap64_le (size m1 + 1)). lia.
      + destruct Hnew as (_ & ->). lia. }
  destruct Hgrow as [[-> Hwhy]|(Hl & Hc & Hcalloc)].
  - right.
    assert (forall bound : Q,
              (ratio m < bound)%Q ->
              (ratio m' < bound + (1 # Z.to_pos (capacity m)))%Q) as Hone.
    { intros bound Hbelow.
      apply Qle_lt_trans with (ratio m + (1 # Z.to_pos (capacity m)))%Q.
      - unfold ratio, Qle, Qplus. simpl. rewrite Hcap'.
        rewrite Pos2Z.inj_mul. nia.
      - apply Qplus_lt_l. exact Hbelow. }
    destruct Hwhy as [[Hl _]|(Hl & rc & Hr & Hrc)]; [left|right].
    + split; [exact Hl|]. split; [exact Hcap'|]. split; [lia|].
      unfold threshold_finite in Hfin. unfold load_exceeded, current_load in Hl.
      unfold ratio in Hone |- *.
      destruct (load_factor m) as [| | |[|] ml el]; try contradiction.
      destruct (load_test_below (size m) (capacity m) ml el) as [Hgen Hexact];
        [lia | lia | exact Hfin | exact Hl |].
      split; [exact Hgen|]. split; [now apply Hone|].
      intros H1 H2. split; [now apply Hexact | now apply Hone, Hexact].
    + split; [exact Hl|]. split; [|split; [exact Hcap'|lia]].
      destruct (hashmap_resize_spec m (wrap64 (capacity m * 2)) s Hok)
        as (rc2 & m2 & s2 & Hr2 & Hcase).
      rewrite Hr in Hr2. injection Hr2 as <- <- <-.
      rewrite doubled_capacity in Hcase by assumption.
      destruct Hcase as [(_ & _ & [[Hn _]|[_ Hc]])|(-> & _)];
        [lia| |congruence].
      unfold calloc in Hc.
      destruct (capacity m * 2 * sizeof_ptr <? 2 ^ 64) eqn:E; [|lia].
      destruct (malloc_granted s Hs) as (s3 & Hm & _). congruence.
  - left. rewrite doubled_capacity in Hc by assumption.
    split; [exact Hl|]. split; [congruence|]. split; [lia|].
    assert (size m <> 0) as Hne.
    { intros H0. rewrite (load_exceeded_nonempty m Hthr H0) in Hl. discriminate. }
    unfold ratio, Qle. simpl. rewrite Hcap', Hc.
    rewrite !Z2Pos.id by lia. nia.
Qed.

Lemma load_after_insert_witness :
  (load_exceeded one_pair = true /\
   capacity (after_insert one_pair key_hello val_world []) = 2 /\
   (ratio (after_insert one_pair key_hello val_world []) <= ratio one_pair)%Q) /\
  (load_exceeded (after_insert (fresh 2) key_42 val_pi []) = false /\
   capacity two_pairs = 2 /\ size two_pairs = 2 /\
   (ratio two_pairs
    < float_value (load_factor (after_insert (fresh 2) key_42 val_pi []))
      + (1 # Z.to_pos (capacity (after_insert (fresh 2) key_42 val_pi []))))%Q).
Proof.
  split.
  - destruct (load_after_insert one_pair key_hello val_world []
                (after_insert one_pair key_hello val_world []) [])
      as [(Hl & _ & _ & Hr)|[(Hl & _)|(_ & Hbig & _)]].
    + split; [apply one_pair_valid|]. split; vm_compute; reflexivity.
    + vm_compute. reflexivity.
    + vm_compute. reflexivity.
    + discriminate.
    + constructor.
    + apply after_insert_eq; vm_compute; reflexivity.
    + split; [exact Hl|]. split; [vm_compute; reflexivity | exact Hr].
    + vm_compute in Hl. discriminate Hl.
    + vm_compute in Hbig. exfalso. apply Hbig. reflexivity.
  - destruct (load_after_insert (after_insert (fresh 2) key_42 val_pi [])
                key_hello val_world [] two_pairs [])
      as [(Hl & _)|[(Hl & _ & _ & _ & _ & Hexact)|(Hl & _)]].
    + split; [apply after_insert_valid, fresh_valid; lia|].
      split; vm_compute; reflexivity.
    + vm_compute. reflexivity.
    + vm_compute. reflexivity.
    + discriminate.
    + constructor.
    + apply after_insert_eq; vm_compute; reflexivity.
    + vm_compute in Hl. discriminate Hl.
    + split; [exact Hl|]. split; [vm_compute; reflexivity|].
      split; [vm_compute; reflexivity|].
      apply Hexact; vm_compute; reflexivity.
    + vm_compute in Hl. discriminate Hl.
Defined.

(** ** Defaults of hashmap_init *)

(** C8: [hashmap_init] on a map pointer that is not [NULL] stores capacity 16
    when given capacity 0, the threshold 0.75 when given a load factor that is
    [<= 0.0f], and the default hash and the byte-wise comparison for a missing
    function; it returns 0 with a zero-filled bucket array when [calloc]
    grants the array, and -1 with [buckets] left [NULL] (the map is not usable)
    when it does not. The float stored for the threshold is 3/4. *)
Theorem hashmap_init_defaults old cap hf ef lf s :
  (float_value (S754_finite false 12582912 (-24)) == 3 # 4)%Q /\
  exists granted s' m,
    calloc (if cap =? 0 then 16 else cap) sizeof_ptr s = Done granted s' /\
    hashmap_init (Some old) cap hf ef lf s =
      Done (if granted then 0 else -1, Some m) s' /\
    capacity m = (if cap =? 0 then 16 else cap) /\
    load_factor m =
      (if SFleb lf float_zero then S754_finite false 12582912 (-24) else lf) /\
    hash_func m = match hf with Some f => f | None => default_hash end /\
    eq_func m = match ef with Some f => f | None => default_eq end /\
    size m = 0 /\
    buckets m =
      (if granted then Some (replicate (Z.to_nat (capacity m)) []) else None).
Proof.
  split; [reflexivity|].
  destruct (calloc_total (if cap =? 0 then 16 else cap) sizeof_ptr s)
    as (granted & s' & Hc).
  exists granted, s'. unfold hashmap_init, bind, DEFAULT_INITIAL_CAPACITY.
  rewrite Hc. destruct granted; simpl; eexists; (split; [reflexivity|]);
    (split; [reflexivity|]); simpl; repeat split;
    try (destruct hf; reflexivity); try (destruct ef; reflexivity).
Qed.

(** ** Invalid arguments and absent keys *)

(** C9: [hashmap_insert], [hashmap_get] and [hashmap_remove] called with a
    [NULL] map, a [NULL] key or a key of length zero return -1, ask for no
    memory and leave the map as it was; on an initialized map, a key of
    non-zero length that no entry matches makes [hashmap_get] and
    [hashmap_remove] return 0, with nothing written and the map as it was. *)
Theorem invalid_arguments_rejected :
  (forall map key_data v s,
     invalid_arguments map key_data ->
     hashmap_insert map key_data v s = Done (-1, map) s) /\
  (forall map key_data ov os s,
     invalid_arguments map key_data ->
     hashmap_get map key_data ov os s =
     Done {| status := -1; out_val := None; out_size := None |} s) /\
  (forall map key_data s,
     invalid_arguments map key_data ->
     hashmap_remove map key_data s = Done (-1, map) s) /\
  (forall m (k : buffer) ov os s,
     table_ok m -> k <> [] -> absent m k ->
     hashmap_get (Some m) (Some k) ov os s =
       Done {| status := 0; out_val := None; out_size := None |} s /\
     hashmap_remove (Some m) (Some k) s = Done (0, Some m) s).
Proof.
  split; [|split; [|split]].
  - intros [m|] [k|] v s [H|[H|H]]; try discriminate; try reflexivity.
    injection H as ->. reflexivity.
  - intros [m|] [k|] ov os s [H|[H|H]]; try discriminate; try reflexivity.
    injection H as ->. reflexivity.
  - intros [m|] [k|] s [H|[H|H]]; try discriminate; try reflexivity.
    injection H as ->. reflexivity.
  - intros m k ov os s Hok Hk Habs.
    assert (len k <> 0) as Hlen by (destruct k; [congruence | unfold len; simpl; lia]).
    assert (hashmap_lookup m k = None) as Hlk.
    { destruct (hashmap_lookup m k) as [e|] eqn:E; [|reflexivity].
      apply hashmap_lookup_elem in E as [He Hm]. rewrite (Habs e He) in Hm.
      discriminate. }
    split.
    + rewrite (hashmap_get_lookup m k ov os s Hok Hlen). now rewrite Hlk.
    + destruct (hashmap_remove_spec m k s Hok Hlen) as (rc & m' & Hr & _ & _ & _ & Hcase).
      rewrite Hlk in Hcase. destruct Hcase as [-> ->]. exact Hr.
Qed.

Lemma invalid_arguments_rejected_witness :
  hashmap_insert None (Some key_42) val_pi [] = Done (-1, None) [] /\
  hashmap_get (Some (fresh 16)) None true true [] =
    Done {| status := -1; out_val := None; out_size := None |} [] /\
  hashmap_remove (Some (fresh 16)) (Some []) [] = Done (-1, Some (fresh 16)) [] /\
  hashmap_get (Some (fresh 16)) (Some key_42) true true [] =
    Done {| status := 0; out_val := None; out_size := None |} [] /\
  hashmap_remove (Some (fresh 16)) (Some key_42) [] = Done (0, Some (fresh 16)) [].
Proof.
  destruct invalid_arguments_rejected as (Hi & Hg & Hr & Ha).
  split; [apply Hi; left; reflexivity|].
  split; [apply Hg; right; left; reflexivity|].
  split; [apply Hr; right; right; reflexivity|].
  apply Ha.
  - apply fresh_valid. lia.
  - discriminate.
  - intros e He. vm_compute in He. inversion He.
Defined.

(** ** hashmap_get as a membership test *)

(** C10: on an initialized map, [hashmap_get] with [out_val] or [out_size]
    [NULL] is a membership test: for a key of non-zero length it returns 1
    when the key is present and 0 when it is absent, and one of the two
    holds; either way it writes nothing and asks for no memory (the script is
    the one it was given), whatever the script holds, so it cannot return the
    allocation error. *)
Theorem hashmap_get_membership m (k : buffer) ov os s :
  valid m -> k <> [] -> ov && os = false ->
  (present m k ->
   hashmap_get (Some m) (Some k) ov os s =
   Done {| status := 1; out_val := None; out_size := None |} s) /\
  (absent m k ->
   hashmap_get (Some m) (Some k) ov os s =
   Done {| status := 0; out_val := None; out_size := None |} s) /\
  (present m k \/ absent m k).
Proof.
  intros Hv Hk Hout. pose proof Hv as (Hok & _).
  assert (len k <> 0) as Hlen by (destruct k; [congruence | unfold len; simpl; lia]).
  rewrite (hashmap_get_lookup m k ov os s Hok Hlen).
  split; [|split].
  - intros (e & He & Hm).
    rewrite (proj2 (hashmap_lookup_Some m k e Hv) (conj He Hm)).
    rewrite Hout. now apply get_walk_no_out.
  - intros Habs. now rewrite (absent_lookup m k Habs).
  - destruct (hashmap_lookup m k) as [e|] eqn:Hlk.
    + left. exists e. now apply hashmap_lookup_elem.
    + right. exact (proj1 (hashmap_lookup_None m k Hv) Hlk).
Qed.

Lemma hashmap_get_membership_witness :
  hashmap_get (Some two_pairs) (Some key_42) false true [false] =
    Done {| status := 1; out_val := None; out_size := None |} [false] /\
  hashmap_get (Some two_pairs) (Some key_point) true false [false] =
    Done {| status := 0; out_val := None; out_size := None |} [false].
Proof.
  split.
  - destruct (hashmap_get_membership two_pairs key_42 false true [false]
                two_pairs_valid ltac:(discriminate) eq_refl) as (Hin & _ & _).
    apply Hin.
    exists {| key := key_42; value := Some val_pi; value_size := 8 |}.
    split; [vm_compute; do 2 constructor | vm_compute; reflexivity].
  - destruct (hashmap_get_membership two_pairs key_point true false [false]
                two_pairs_valid ltac:(discriminate) eq_refl) as (_ & Hout & _).
    apply Hout. intros e He.
    assert (entries two_pairs =
            [{| key := key_hello; value := Some val_world; value_size := 6 |};
             {| key := key_42; value := Some val_pi; value_size := 8 |}]) as Hall
      by (vm_compute; reflexivity).
    rewrite Hall in He.
    repeat (apply elem_of_cons in He as [->|He]);
      [vm_compute; reflexivity | vm_compute; reflexivity | inversion He].
Defined.

(** * The scenarios of the specification, run *)

(** Scenario A: insert, get, remove, get. *)
Example scenario_A :
  status_of (hashmap_insert (Some (fresh 16)) (Some key_42) val_pi []) = Some 0 /\
  hashmap_get (Some (after_insert (fresh 16) key_42 val_pi [])) (Some key_42)
    true true [] =
    Done {| status := 1; out_val := Some (Some val_pi); out_size := Some 8 |} [] /\
  status_of (hashmap_remove (Some (after_insert (fresh 16) key_42 val_pi []))
               (Some key_42) []) = Some 1 /\
  hashmap_get (Some (after_remove (after_insert (fresh 16) key_42 val_pi []) key_42))
    (Some key_42) true true [] =
    Done {| status := 0; out_val := None; out_size := None |} [].
Proof. vm_compute. repeat split; reflexivity. Qed.

(** Scenario B: a string key. *)
Example scenario_B :
  hashmap_get (Some two_pairs) (Some key_hello) true true [] =
  Done {| status := 1; out_val := Some (Some val_world); out_size := Some 6 |} [].
Proof. vm_compute. reflexivity. Qed.

(** Scenario D: the thirteenth insert finds twelve pairs in sixteen buckets,
    doubles the table, and every pair is still there. *)
Example scenario_D :
  capacity thirteen_pairs = 32 /\ size thirteen_pairs = 13 /\
  forallb (fun k => gets thirteen_pairs k k) thirteen_keys = true.
Proof. vm_compute. repeat split; reflexivity. Qed.

(** * Further properties of the operations *)

(** ** Facts they share *)

Lemma hashmap_get_same_key m m' (k : buffer) ov os s :
  table_ok m -> table_ok m' -> same_funcs m m' ->
  hashmap_lookup m' k = hashmap_lookup m k ->
  hashmap_get (Some m') (Some k) ov os s = hashmap_get (Some m) (Some k) ov os s.
Proof.
  intros Hok Hok' Hf Hlk.
  destruct (decide (len k = 0)) as [Hk|Hk].
  { unfold hashmap_get. now rewrite Hk. }
  rewrite !hashmap_get_lookup by assumption. rewrite Hlk.
  destruct (hashmap_lookup m k); [|reflexivity]. now apply get_walk_funcs.
Qed.

Lemma hashmap_get_absent m (k : buffer) ov os s :
  table_ok m -> k <> [] -> hashmap_lookup m k = None ->
  hashmap_get (Some m) (Some k) ov os s =
  Done {| status := 0; out_val := None; out_size := None |} s.
Proof.
  intros Hok Hk Hlk.
  rewrite (hashmap_get_lookup m k ov os s Hok (nonempty_len k Hk)).
  now rewrite Hlk.
Qed.

Lemma present_lookup m (k : buffer) :
  valid m -> present m k -> exists e, hashmap_lookup m k = Some e.
Proof.
  intros Hv (e & He & Hm). exists e. now apply hashmap_lookup_Some.
Qed.

(** What a request takes from the script. *)
Lemma malloc_consumes s granted s' :
  malloc s = Done granted s' ->
  s = granted :: s' \/ (s = [] /\ s' = [] /\ granted = true).
Proof.
  destruct s as [|b s]; simpl; intros [= <- <-]; auto.
Qed.

Lemma malloc_refused s s' :
  malloc s = Done false s' -> s = false :: s'.
Proof.
  intros H. apply malloc_consumes in H as [H|(_ & _ & H)]; [exact H|discriminate].
Qed.

Lemma calloc_consumes n sz s granted s' :
  calloc n sz s = Done granted s' -> exists consumed, s = consumed ++ s'.
Proof.
  unfold calloc. destruct (n * sz <? 2 ^ 64).
  - intros H. apply malloc_consumes in H as [->|(-> & -> & _)];
      [now exists [granted] | now exists []].
  - intros [= <- <-]. now exists [].
Qed.

Lemma hashmap_create_entry_refused k v s s' :
  hashmap_create_entry k v s = Done None s' -> refused_during s s'.
Proof.
  unfold hashmap_create_entry, bind, ret.
  destruct (malloc s) as [[|] s1|] eqn:E1; simpl; [| |discriminate].
  2:{ intros [= <-]. apply malloc_refused in E1 as ->.
      exists [false]. split; [reflexivity|left]. }
  destruct (malloc s1) as [[|] s2|] eqn:E2; simpl; [| |discriminate].
  2:{ intros [= <-]. apply malloc_refused in E2 as ->.
      apply malloc_consumes in E1 as [->|(_ & H & _)]; [|discriminate].
      exists [true; false]. split; [reflexivity|right; left]. }
  destruct (malloc s2) as [[|] s3|] eqn:E3; simpl; [discriminate| |discriminate].
  intros [= <-]. apply malloc_refused in E3 as ->.
  apply malloc_consumes in E2 as [->|(_ & H & _)]; [|discriminate].
  apply malloc_consumes in E1 as [->|(_ & H & _)]; [|discriminate].
  exists [true; true; false]. split; [reflexivity|do 2 right; left].
Qed.

Lemma insert_grow_consumes m s m1 s1 :
  table_ok m -> insert_grow m s = Done m1 s1 ->
  exists consumed, s = consumed ++ s1.
Proof.
  intros Hok Hg.
  destruct (insert_grow_spec m s Hok) as (m0 & s0 & Hg0 & _ & _ & _ & _ & Hcase).
  rewrite Hg in Hg0. injection Hg0 as <- <-.
  destruct Hcase as [(_ & [[_ ->]|(_ & rc & Hr & Hrc)])|(_ & _ & Hc)].
  - now exists [].
  - destruct (hashmap_resize_spec m (wrap64 (capacity m * 2)) s Hok)
      as (rc0 & m0 & s0 & Hr0 & Hcase).
    rewrite Hr in Hr0. injection Hr0 as <- <- <-.
    destruct Hcase as [(_ & _ & [[_ ->]|[_ Hc]])|(-> & _)];
      [now exists [] | eapply calloc_consumes; eauto | congruence].
  - eapply calloc_consumes; eauto.
Qed.

(** ** The default comparison *)

(** X1: on two buffers of the same length [default_eq] returns 1 when the
    bytes are the same and 0 when they are not: it is equality of the keys. *)
Theorem default_eq_bytewise (a b : buffer) :
  length a = length b ->
  (default_eq a b = 1 /\ a = b) \/ (default_eq a b = 0 /\ a <> b).
Proof.
  intros Hlen. unfold default_eq.
  destruct (memcmp a b =? 0) eqn:E.
  - left. split; [reflexivity|]. apply memcmp_eq; [exact Hlen | lia].
  - right. split; [reflexivity|]. intros ->. rewrite memcmp_refl in E.
    discriminate.
Qed.

Lemma default_eq_bytewise_witness :
  (default_eq key_hello val_world = 1 /\ key_hello = val_world) \/
  (default_eq key_hello val_world = 0 /\ key_hello <> val_world).
Proof. apply default_eq_bytewise. reflexivity. Defined.

(** ** A map fresh from hashmap_init *)

(** X2: a [hashmap_init] with the default comparison that returns 0 leaves a
    valid map, whatever hash function was given, that holds nothing: [size] is
    0, there is no entry, and for every key of non-zero length [hashmap_get]
    and [hashmap_remove] return 0 and change nothing. *)
Theorem init_gives_empty_map old cap hf lf s m s' :
  0 <= cap ->
  hashmap_init (Some old) cap hf None lf s = Done (0, Some m) s' ->
  valid m /\ size m = 0 /\ entries m = [] /\
  (forall (k : buffer) ov os s0,
     k <> [] ->
     hashmap_get (Some m) (Some k) ov os s0 =
     Done {| status := 0; out_val := None; out_size := None |} s0) /\
  (forall (k : buffer) s0,
     k <> [] -> hashmap_remove (Some m) (Some k) s0 = Done (0, Some m) s0).
Proof.
  intros Hcap Hinit.
  destruct (hashmap_init_ok old cap hf None lf s m s' Hcap Hinit)
    as (Hok & [Hsz _] & Hnil & _ & _ & _ & Heq).
  assert (valid m) as Hv.
  { apply (hashmap_init_valid old cap hf None lf s m s' Hcap Hinit).
    now apply default_lawful. }
  assert (forall k : buffer, hashmap_lookup m k = None) as Hlk.
  { intros k. apply hashmap_lookup_None; [exact Hv|]. rewrite Hnil.
    intros e He. inversion He. }
  split; [exact Hv|]. split; [rewrite Hsz, Hnil; reflexivity|].
  split; [exact Hnil|]. split.
  - intros k ov os s0 Hk. now apply hashmap_get_absent.
  - intros k s0 Hk.
    destruct (hashmap_remove_spec m k s0 Hok (nonempty_len k Hk))
      as (rc & m' & Hr & _ & _ & _ & Hcase).
    rewrite Hlk in Hcase. destruct Hcase as [-> ->]. exact Hr.
Qed.

Lemma init_gives_empty_map_witness :
  valid (fresh 16) /\ size (fresh 16) = 0 /\ entries (fresh 16) = [] /\
  (forall (k : buffer) ov os s0,
     k <> [] ->
     hashmap_get (Some (fresh 16)) (Some k) ov os s0 =
     Done {| status := 0; out_val := None; out_size := None |} s0) /\
  (forall (k : buffer) s0,
     k <> [] ->
     hashmap_remove (Some (fresh 16)) (Some k) s0 = Done (0, Some (fresh 16)) s0).
Proof.
  apply (init_gives_empty_map (fresh 2) 0 None float_zero [] (fresh 16) []);
    [lia | reflexivity].
Defined.

(** ** Keys stay distinct *)

(** X3: [hashmap_insert], [hashmap_remove] and [hashmap_resize] keep a valid
    map valid, whatever they return: in particular no sequence of calls ever
    leaves two entries whose keys compare equal. *)
Theorem keys_stay_distinct :
  (forall m key_data v s rc m' s',
     valid m ->
     hashmap_insert (Some m) key_data v s = Done (rc, Some m') s' ->
     valid m') /\
  (forall m key_data s rc m' s',
     valid m ->
     hashmap_remove (Some m) key_data s = Done (rc, Some m') s' ->
     valid m') /\
  (forall m n s rc m' s',
     valid m -> hashmap_resize m n s = Done (rc, m') s' -> valid m').
Proof.
  split; [|split].
  - intros m [k|] v s rc m' s' Hv Hins; [|now injection Hins as <- <- <-].
    now destruct (hashmap_insert_valid m k v s rc m' s' Hv Hins).
  - intros m [k|] s rc m' s' Hv Hrem; [|now injection Hrem as <- <- <-].
    destruct (decide (k = [])) as [->|Hk]; [now injection Hrem as <- <- <-|].
    destruct (hashmap_remove_valid m k s Hv (nonempty_len k Hk))
      as (rc0 & m0 & Hr0 & Hv' & _).
    rewrite Hrem in Hr0. now injection Hr0 as <- <-.
  - intros m n s rc m' s' Hv Hr.
    now destruct (hashmap_resize_valid m n s rc m' s' Hv Hr).
Qed.

Lemma keys_stay_distinct_witness :
  valid (after_insert two_pairs key_42 val_world [false; false]) /\
  valid (after_remove two_pairs key_hello) /\
  valid (after_resize two_pairs 3 []).
Proof.
  destruct keys_stay_distinct as (Hins & Hrem & Hres).
  split; [|split].
  - apply (Hins two_pairs (Some key_42) val_world [false; false] (-1) _ [])
      ; [exact two_pairs_valid|].
    apply after_insert_eq; vm_compute; reflexivity.
  - apply (Hrem two_pairs (Some key_hello) [] 1 _ []); [exact two_pairs_valid|].
    unfold after_remove.
    destruct (hashmap_remove_valid two_pairs key_hello [] two_pairs_valid)
      as (rc & m' & Hr & _); [discriminate|].
    rewrite Hr. f_equal. f_equal.
    apply (f_equal status_of) in Hr. vm_compute in Hr. congruence.
  - apply (Hres two_pairs 3 [] 0 _ []); [exact two_pairs_valid|].
    apply after_resize_eq; vm_compute; reflexivity.
Defined.

Lemma bucket_index_script m k s i s1 :
  bucket_index m k s = Done i s1 -> s1 = s.
Proof.
  unfold bucket_index, fault, ret.
  destruct (capacity m =? 0); [discriminate|]. now intros [= _ <-].
Qed.

Lemma bucket_at_script bs i s c s1 :
  bucket_at bs i s = Done c s1 -> s1 = s.
Proof.
  unfold bucket_at, bind, deref, ret, fault.
  destruct bs as [bs|]; [|discriminate].
  destruct (bs !! Z.to_nat i); [|discriminate]. now intros [= _ <-].
Qed.

Lemma after_remove_eq m k rc :
  status_of (hashmap_remove (Some m) (Some k) []) = Some rc ->
  hashmap_remove (Some m) (Some k) [] = Done (rc, Some (after_remove m k)) [].
Proof.
  unfold after_remove, hashmap_remove.
  destruct (len k =? 0); [simpl; now intros [= <-]|].
  unfold bind.
  destruct (bucket_index m k []) as [i s1|] eqn:Ei; [|discriminate].
  apply bucket_index_script in Ei as ->.
  destruct (bucket_at (buckets m) i []) as [c s2|] eqn:Ec; [|discriminate].
  apply bucket_at_script in Ec as ->.
  destruct (remove_walk m k c); simpl; now intros [= <-].
Qed.

(** ** Inserting a new key *)

(** X4: on a valid map, a [hashmap_insert] of a key that has no entry, when
    it returns 0, adds exactly one entry, which holds copies of the key and of
    the value with the length of the value; [size] has grown by one (modulo
    2^64), and [hashmap_get] of the key finds that value. *)
Theorem insert_new_key_adds_entry m (K V : buffer) s m' s' :
  valid m -> K <> [] -> absent m K ->
  hashmap_insert (Some m) (Some K) V s = Done (0, Some m') s' ->
  size m' = wrap64 (size m + 1) /\
  entries m' ≡ₚ {| key := K; value := Some V; value_size := len V |} :: entries m /\
  hashmap_lookup m' K =
    Some {| key := K; value := Some V; value_size := len V |} /\
  (forall s0,
     hashmap_get (Some m') (Some K) true true (true :: s0) =
     Done {| status := 1; out_val := Some (Some V); out_size := Some (len V) |} s0).
Proof.
  intros Hv HK Habs Hins. pose proof Hv as (Hok & _).
  destruct (hashmap_insert_inv m K V s 0 m' s' Hok HK Hins)
    as (m1 & s1 & Hg & Hp).
  destruct (insert_grow_valid m s Hv)
    as (m1' & s1' & Hg' & Hv1 & Hf1 & Hsz1 & Hperm1 & Hlk1).
  rewrite Hg in Hg'. injection Hg' as <- <-.
  pose proof Hv1 as (Hok1 & _).
  destruct (insert_place_spec m1 K V s1 Hok1)
    as (rc & m0 & s0 & Hp0 & _ & _ & _ & Hcase).
  rewrite Hp in Hp0. injection Hp0 as <- <- <-.
  rewrite Hlk1, (absent_lookup m K Habs) in Hcase.
  destruct Hcase as ([e|] & _ & Hnew); [|destruct Hnew; discriminate].
  destruct Hnew as (_ & -> & Hsz & Hperm).
  destruct (insert_place_valid m1 K V s1 0 m' s' Hv1 Hp) as (Hv' & _ & _ & Hget).
  destruct (Hget eq_refl) as (e & He & Hval & Hvs & Hkey).
  rewrite Hlk1, (absent_lookup m K Habs) in Hkey.
  assert (e = {| key := K; value := Some V; value_size := len V |}) as ->.
  { destruct e as [ek ev es]. simpl in Hval, Hvs, Hkey. congruence. }
  split; [congruence|]. split; [now rewrite Hperm, Hperm1|].
  split; [exact He|]. intros s2.
  rewrite (hashmap_get_value m' K
             {| key := K; value := Some V; value_size := len V |} V (true :: s2));
    auto. apply Hv'.
Qed.

Lemma insert_new_key_adds_entry_witness :
  size (after_insert one_pair key_hello val_world []) = wrap64 (size one_pair + 1) /\
  entries (after_insert one_pair key_hello val_world []) ≡ₚ
    {| key := key_hello; value := Some val_world; value_size := len val_world |}
    :: entries one_pair /\
  hashmap_lookup (after_insert one_pair key_hello val_world []) key_hello =
    Some {| key := key_hello; value := Some val_world;
            value_size := len val_world |} /\
  (forall s0,
     hashmap_get (Some (after_insert one_pair key_hello val_world []))
       (Some key_hello) true true (true :: s0) =
     Done {| status := 1; out_val := Some (Some val_world);
             out_size := Some (len val_world) |} s0).
Proof.
  apply (insert_new_key_adds_entry one_pair key_hello val_world [] _ []).
  - exact one_pair_valid.
  - discriminate.
  - intros e He. vm_compute in He.
    apply list_elem_of_singleton in He as ->. vm_compute. reflexivity.
  - apply after_insert_eq; vm_compute; reflexivity.
Defined.

(** ** Other keys are left alone *)

(** X5: a [hashmap_insert] for the key [K] on a valid map, whatever it
    returns (success, refused entry, refused update, with or without growth),
    leaves the answer of [hashmap_get] for every key that does not compare
    equal to [K] as it was. *)
Theorem insert_leaves_other_keys m (K K' V : buffer) s rc m' s' :
  valid m ->
  hashmap_insert (Some m) (Some K) V s = Done (rc, Some m') s' ->
  same_key m K' K = false ->
  forall ov os s0,
    hashmap_get (Some m') (Some K') ov os s0 =
    hashmap_get (Some m) (Some K') ov os s0.
Proof.
  intros Hv Hins Hne ov os s0. pose proof Hv as (Hok & _).
  destruct (hashmap_insert_valid m K V s rc m' s' Hv Hins) as [Hv' Hf].
  apply hashmap_get_same_key; auto; [apply Hv'|].
  destruct (decide (K = [])) as [->|HK]; [now injection Hins as <- <- <-|].
  destruct (hashmap_insert_inv m K V s rc m' s' Hok HK Hins)
    as (m1 & s1 & Hg & Hp).
  destruct (insert_grow_valid m s Hv)
    as (m1' & s1' & Hg' & Hv1 & Hf1 & _ & _ & Hlk1).
  rewrite Hg in Hg'. injection Hg' as <- <-.
  destruct (insert_place_valid m1 K V s1 rc m' s' Hv1 Hp) as (_ & _ & Hfr & _).
  rewrite Hfr, Hlk1; [reflexivity|]. now rewrite (same_key_funcs m m1).
Qed.

Lemma insert_leaves_other_keys_witness :
  hashmap_get (Some (after_insert two_pairs key_42 val_world [false; false]))
    (Some key_hello) true true [] =
  hashmap_get (Some two_pairs) (Some key_hello) true true [].
Proof.
  apply (insert_leaves_other_keys two_pairs key_42 key_hello val_world
           [false; false] (-1) _ []).
  - exact two_pairs_valid.
  - apply after_insert_eq; vm_compute; reflexivity.
  - vm_compute. reflexivity.
Defined.

(** ** hashmap_insert fails only when memory is refused *)

(** X6: on an initialized map and for a key of non-zero length,
    [hashmap_insert] returns 0 or -1; it returns 0 when every request of the
    script is granted, and it returns -1 only after a request was refused. *)
Theorem insert_fails_only_on_refusal m (k : buffer) v s :
  table_ok m -> k <> [] ->
  exists rc m' s',
    hashmap_insert (Some m) (Some k) v s = Done (rc, Some m') s' /\
    (rc = 0 \/ rc = -1) /\
    (all_granted s -> rc = 0) /\
    (rc = -1 -> refused_during s s').
Proof.
  intros Hok Hk.
  destruct (hashmap_insert_total m (Some k) v s Hok) as (rc & m' & s' & Hins).
  exists rc, m', s'. split; [exact Hins|].
  destruct (hashmap_insert_inv m k v s rc m' s' Hok Hk Hins)
    as (m1 & s1 & Hg & Hp).
  destruct (insert_grow_consumes m s m1 s1 Hok Hg) as (c1 & ->).
  destruct (insert_grow_spec m (c1 ++ s1) Hok)
    as (m1' & s1' & Hg' & _ & _ & Hok1 & _).
  rewrite Hg in Hg'. injection Hg' as <- <-.
  destruct (insert_place_spec m1 k v s1 Hok1)
    as (rc0 & m0 & s0 & Hp0 & _ & _ & _ & Hcase).
  rewrite Hp in Hp0. injection Hp0 as <- <- <-.
  assert (all_granted (c1 ++ s1) -> all_granted s1) as Htail.
  { unfold all_granted. rewrite Forall_app. tauto. }
  destruct (hashmap_lookup m1 k) as [e0|].
  - destruct Hcase as (granted & rest & Hm & -> & _).
    split; [destruct granted; auto|]. split.
    + intros Hs. destruct (malloc_granted s1 (Htail Hs)) as (s2 & Hm2 & _).
      rewrite Hm2 in Hm. now injection Hm as <- <-.
    + destruct granted; [discriminate|]. intros _.
      apply malloc_refused in Hm as ->.
      exists (c1 ++ [false]). split; [now rewrite <- app_assoc|].
      apply elem_of_app. right. left.
  - destruct Hcase as ([e|] & Hce & Hnew).
    + destruct Hnew as (-> & _). split; [auto|]. split; [auto|discriminate].
    + destruct Hnew as (-> & _). split; [auto|]. split.
      * intros Hs.
        destruct (hashmap_create_entry_granted k v s1 (Htail Hs)) as (s2 & Hce2 & _).
        congruence.
      * intros _. apply hashmap_create_entry_refused in Hce as (c2 & -> & Hc2).
        exists (c1 ++ c2). split; [now rewrite app_assoc|].
        apply elem_of_app. now right.
Qed.

Lemma insert_fails_only_on_refusal_witness :
  exists rc m' s',
    hashmap_insert (Some two_pairs) (Some key_42) val_world [true; false] =
      Done (rc, Some m') s' /\
    (rc = 0 \/ rc = -1) /\
    (all_granted [true; false] -> rc = 0) /\
    (rc = -1 -> refused_during [true; false] s').
Proof.
  apply insert_fails_only_on_refusal.
  - apply two_pairs_valid.
  - discriminate.
Defined.

(** ** Removing a key *)

(** X7: on a valid map, [hashmap_remove] of a key that has an entry returns
    1 and asks for no memory; exactly that entry is gone, [size] is one less
    (modulo 2^64), the capacity is the same, and afterwards [hashmap_get] of
    the key returns 0 and a second [hashmap_remove] returns 0 and changes
    nothing. *)
Theorem remove_present_key m (K : buffer) s :
  valid m -> K <> [] -> present m K ->
  exists m' e,
    hashmap_remove (Some m) (Some K) s = Done (1, Some m') s /\
    hashmap_lookup m K = Some e /\
    entries m ≡ₚ e :: entries m' /\
    size m' = wrap64 (size m - 1) /\ capacity m' = capacity m /\
    (forall ov os s0,
       hashmap_get (Some m') (Some K) ov os s0 =
       Done {| status := 0; out_val := None; out_size := None |} s0) /\
    (forall s0, hashmap_remove (Some m') (Some K) s0 = Done (0, Some m') s0).
Proof.
  intros Hv HK Hpres. pose proof Hv as (Hok & _).
  destruct (present_lookup m K Hv Hpres) as (e & Hlk).
  pose proof (nonempty_len K HK) as Hlen.
  destruct (hashmap_remove_spec m K s Hok Hlen)
    as (rc & m' & Hr & _ & Hcap & Hok' & Hcase).
  rewrite Hlk in Hcase. destruct Hcase as (-> & Hsz & Hperm).
  destruct (hashmap_remove_valid m K s Hv Hlen)
    as (rc0 & m0 & Hr0 & Hv' & _ & _ & Hgone).
  rewrite Hr in Hr0. injection Hr0 as <- <-.
  pose proof (Hgone eq_refl) as Hnone.
  exists m', e. repeat (split; [assumption|]). split.
  - intros ov os s0. now apply hashmap_get_absent.
  - intros s0.
    destruct (hashmap_remove_spec m' K s0 Hok' Hlen)
      as (rc2 & m2 & Hr2 & _ & _ & _ & Hcase2).
    rewrite Hnone in Hcase2. destruct Hcase2 as [-> ->]. exact Hr2.
Qed.

Lemma remove_present_key_witness :
  exists m' e,
    hashmap_remove (Some two_pairs) (Some key_42) [false] = Done (1, Some m') [false] /\
    hashmap_lookup two_pairs key_42 = Some e /\
    entries two_pairs ≡ₚ e :: entries m' /\
    size m' = wrap64 (size two_pairs - 1) /\ capacity m' = capacity two_pairs /\
    (forall ov os s0,
       hashmap_get (Some m') (Some key_42) ov os s0 =
       Done {| status := 0; out_val := None; out_size := None |} s0) /\
    (forall s0, hashmap_remove (Some m') (Some key_42) s0 = Done (0, Some m') s0).
Proof.
  apply remove_present_key.
  - exact two_pairs_valid.
  - discriminate.
  - exists {| key := key_42; value := Some val_pi; value_size := 8 |}.
    split; [vm_compute; do 2 constructor | vm_compute; reflexivity].
Defined.

(** X8: a [hashmap_remove] for the key [K] on a valid map never asks for
    memory and never changes the capacity (the table does not shrink), it
    returns -1, 0 or 1, and it leaves the answer of [hashmap_get] for every
    key that does not compare equal to [K] as it was. *)
Theorem remove_leaves_other_keys m (K K' : buffer) s rc m' s' :
  valid m ->
  hashmap_remove (Some m) (Some K) s = Done (rc, Some m') s' ->
  same_key m K' K = false ->
  s' = s /\ capacity m' = capacity m /\ (rc = -1 \/ rc = 0 \/ rc = 1) /\
  forall ov os s0,
    hashmap_get (Some m') (Some K') ov os s0 =
    hashmap_get (Some m) (Some K') ov os s0.
Proof.
  intros Hv Hrem Hne. pose proof Hv as (Hok & _).
  destruct (decide (K = [])) as [->|HK].
  { injection Hrem as <- <- <-. auto. }
  pose proof (nonempty_len K HK) as Hlen.
  destruct (hashmap_remove_spec m K s Hok Hlen)
    as (rc1 & m1 & Hr1 & _ & Hcap & _ & Hcase).
  destruct (hashmap_remove_valid m K s Hv Hlen)
    as (rc0 & m0 & Hr0 & Hv' & Hf & Hfr & _).
  rewrite Hrem in Hr0, Hr1. injection Hr0 as <- <- <-. injection Hr1 as <- <-.
  split; [reflexivity|]. split; [exact Hcap|]. split.
  - destruct (hashmap_lookup m K); destruct Hcase as (-> & _); auto.
  - intros ov os s0. apply hashmap_get_same_key; auto. apply Hv'.
Qed.

Lemma remove_leaves_other_keys_witness :
  [] = ([] : script) /\
  capacity (after_remove two_pairs key_42) = capacity two_pairs /\
  (1 = -1 \/ 1 = 0 \/ 1 = 1) /\
  forall ov os s0,
    hashmap_get (Some (after_remove two_pairs key_42)) (Some key_hello) ov os s0 =
    hashmap_get (Some two_pairs) (Some key_hello) ov os s0.
Proof.
  apply (remove_leaves_other_keys two_pairs key_42 key_hello [] 1 _ []).
  - exact two_pairs_valid.
  - apply after_remove_eq. vm_compute. reflexivity.
  - vm_compute. reflexivity.
Defined.

(** ** Insert, then remove *)

(** X9: on a valid map, inserting a key that has no entry and then removing
    it gives back the map it started from, up to the growth the insert may
    have caused: the remove returns 1, the entries are those of before (as a
    multiset), [size] is the one of before when [size + 1] fits [size_t], and
    every [hashmap_get] answers as before. *)
Theorem insert_remove_round_trip m (K V : buffer) s m1 s1 :
  valid m -> K <> [] -> absent m K -> size m + 1 < 2 ^ 64 -> 0 <= size m ->
  hashmap_insert (Some m) (Some K) V s = Done (0, Some m1) s1 ->
  exists m2,
    hashmap_remove (Some m1) (Some K) s1 = Done (1, Some m2) s1 /\
    entries m2 ≡ₚ entries m /\ size m2 = size m /\
    (forall key_data ov os s0,
       hashmap_get (Some m2) key_data ov os s0 =
       hashmap_get (Some m) key_data ov os s0).
Proof.
  intros Hv HK Habs Hfit Hpos Hins. pose proof Hv as (Hok & _).
  pose proof (nonempty_len K HK) as Hlen.
  destruct (hashmap_insert_valid m K V s 0 m1 s1 Hv Hins) as [Hv1 Hf1].
  pose proof Hv1 as (Hok1 & _).
  destruct (hashmap_insert_inv m K V s 0 m1 s1 Hok HK Hins)
    as (mg & sg & Hg & Hp).
  destruct (insert_grow_valid m s Hv)
    as (mg' & sg' & Hg' & Hvg & Hfg & Hszg & Hpermg & Hlkg).
  rewrite Hg in Hg'. injection Hg' as <- <-.
  pose proof Hvg as (Hokg & _).
  destruct (insert_place_spec mg K V sg Hokg)
    as (rc & m0 & s0 & Hp0 & _ & _ & _ & Hcase).
  rewrite Hp in Hp0. injection Hp0 as <- <- <-.
  rewrite Hlkg, (absent_lookup m K Habs) in Hcase.
  destruct Hcase as ([e|] & _ & Hnew); [|destruct Hnew; discriminate].
  destruct Hnew as (_ & -> & Hsz1 & Hperm1).
  destruct (insert_place_valid mg K V sg 0 m1 s1 Hvg Hp) as (_ & _ & _ & Hget).
  destruct (Hget eq_refl) as (e & He & Hval & Hvs & Hkey).
  rewrite Hlkg, (absent_lookup m K Habs) in Hkey.
  assert (e = {| key := K; value := Some V; value_size := len V |}) as ->.
  { destruct e as [ek ev es]. simpl in Hval, Hvs, Hkey. congruence. }
  destruct (hashmap_remove_spec m1 K s1 Hok1 Hlen)
    as (rc & m2 & Hr & _ & _ & Hok2 & Hcase).
  rewrite He in Hcase. destruct Hcase as (-> & Hsz2 & Hperm2).
  destruct (hashmap_remove_valid m1 K s1 Hv1 Hlen)
    as (rc0 & m0 & Hr0 & Hv2 & Hf2 & _).
  rewrite Hr in Hr0. injection Hr0 as <- <-.
  assert (entries m2 ≡ₚ entries m) as Hperm.
  { rewrite Hperm1, Hpermg in Hperm2. symmetry.
    eapply Permutation_cons_inv. exact Hperm2. }
  assert (same_funcs m m2) as Hf by eauto using same_funcs_trans.
  exists m2. split; [exact Hr|]. split; [exact Hperm|]. split.
  - rewrite Hsz2, Hsz1, Hszg. unfold wrap64.
    rewrite (Z.mod_small (size m + 1)) by lia.
    rewrite Z.mod_small by lia. lia.
  - intros key_data ov os s0. apply hashmap_get_same; auto.
    intros k. now apply hashmap_lookup_perm.
Qed.

Lemma insert_remove_round_trip_witness :
  exists m2,
    hashmap_remove (Some (after_insert one_pair key_hello val_world []))
      (Some key_hello) [] = Done (1, Some m2) [] /\
    entries m2 ≡ₚ entries one_pair /\ size m2 = size one_pair /\
    (forall key_data ov os s0,
       hashmap_get (Some m2) key_data ov os s0 =
       hashmap_get (Some one_pair) key_data ov os s0).
Proof.
  apply (insert_remove_round_trip one_pair key_hello val_world []).
  - exact one_pair_valid.
  - discriminate.
  - intros e He. vm_compute in He.
    apply list_elem_of_singleton in He as ->. vm_compute. reflexivity.
  - vm_compute. reflexivity.
  - vm_compute. discriminate.
  - apply after_insert_eq; vm_compute; reflexivity.
Defined.

(** ** Values that can be read back *)

Lemma values_ok_perm m m' :
  entries m' ≡ₚ entries m -> values_ok m -> values_ok m'.
Proof. intros Hp Hv e He. apply Hv. now rewrite <- Hp. Qed.

Lemma absent_perm m m' (k : buffer) :
  same_funcs m m' -> entries m' ≡ₚ entries m -> absent m k -> absent m' k.
Proof.
  intros Hf Hp Habs e He. rewrite (keys_match_funcs m m') by exact Hf.
  apply Habs. now rewrite <- Hp.
Qed.

(** What [hashmap_insert] does to the entries: it adds nothing, or the new
    pair, or it replaces an entry that matches the key by its update. *)
Lemma hashmap_insert_entries m (k : buffer) v s rc m' s' :
  table_ok m -> k <> [] ->
  hashmap_insert (Some m) (Some k) v s = Done (rc, Some m') s' ->
  table_ok m' /\ same_funcs m m' /\
  ((rc = -1 /\ entries m' ≡ₚ entries m) \/
   (rc = 0 /\
    entries m' ≡ₚ {| key := k; value := Some v; value_size := len v |}
                  :: entries m) \/
   (exists e (granted : bool) rest,
      keys_match m e k = true /\ rc = (if granted then 0 else -1) /\
      entries m ≡ₚ e :: rest /\ entries m' ≡ₚ updated e v granted :: rest)).
Proof.
  intros Hok Hk Hins.
  destruct (hashmap_insert_inv m k v s rc m' s' Hok Hk Hins)
    as (m1 & s1 & Hg & Hp).
  destruct (insert_grow_spec m s Hok)
    as (m1' & s1' & Hg' & Hf1 & _ & Hok1 & Hperm1 & _).
  rewrite Hg in Hg'. injection Hg' as <- <-.
  destruct (insert_place_spec m1 k v s1 Hok1)
    as (rc0 & m0 & s0 & Hp0 & Hf2 & _ & Hok' & Hcase).
  rewrite Hp in Hp0. injection Hp0 as <- <- <-.
  split; [exact Hok'|]. split; [eauto using same_funcs_trans|].
  destruct (hashmap_lookup m1 k) as [e0|] eqn:Hlk.
  - destruct Hcase as (granted & rest & _ & -> & _ & Hperm & Hperm').
    right. right. exists e0, granted, rest.
    apply hashmap_lookup_match in Hlk.
    rewrite (keys_match_funcs m m1) in Hlk by exact Hf1.
    split; [exact Hlk|]. split; [reflexivity|].
    split; [now rewrite <- Hperm1|exact Hperm'].
  - destruct Hcase as ([e|] & _ & Hnew).
    + destruct Hnew as (-> & -> & _ & Hperm). right. left.
      split; [reflexivity|]. now rewrite Hperm, Hperm1.
    + destruct Hnew as (-> & ->). left. auto.
Qed.

Lemma hashmap_insert_values_ok m (k : buffer) v s rc m' s' :
  table_ok m -> values_ok m ->
  hashmap_insert (Some m) (Some k) v s = Done (rc, Some m') s' ->
  rc = 0 \/ absent m k ->
  values_ok m'.
Proof.
  intros Hok Hval Hins Hcond.
  destruct (decide (k = [])) as [->|Hk]; [now injection Hins as <- <- <-|].
  destruct (hashmap_insert_entries m k v s rc m' s' Hok Hk Hins)
    as (_ & _ & [(_ & Hp)|[(_ & Hp)|(e0 & granted & rest & Hm & Hrc & Hp & Hp')]]).
  - now apply (values_ok_perm m).
  - intros e He. rewrite Hp in He. apply elem_of_cons in He as [->|He]; [|auto].
    simpl. eauto.
  - assert (granted = true) as ->.
    { destruct Hcond as [->|Habs]; [destruct granted; [reflexivity|discriminate]|].
      rewrite Habs in Hm; [discriminate|]. rewrite Hp. left. }
    intros e He. rewrite Hp' in He. apply elem_of_cons in He as [->|He].
    + simpl. eauto.
    + apply Hval. rewrite Hp. now right.
Qed.

Lemma hashmap_remove_values_ok m key_data s rc m' s' :
  table_ok m -> values_ok m ->
  hashmap_remove (Some m) key_data s = Done (rc, Some m') s' ->
  values_ok m'.
Proof.
  intros Hok Hval Hrem. destruct key_data as [k|];
    [|now injection Hrem as <- <- <-].
  destruct (decide (k = [])) as [->|Hk]; [now injection Hrem as <- <- <-|].
  destruct (hashmap_remove_spec m k s Hok (nonempty_len k Hk))
    as (rc0 & m0 & Hr0 & _ & _ & _ & Hcase).
  rewrite Hrem in Hr0. injection Hr0 as <- <-.
  destruct (hashmap_lookup m k) as [e0|].
  - destruct Hcase as (_ & _ & Hp). intros e He. apply Hval. rewrite Hp.
    now right.
  - now destruct Hcase as (_ & ->).
Qed.

Lemma hashmap_resize_values_ok m n s rc m' s' :
  table_ok m -> values_ok m ->
  hashmap_resize m n s = Done (rc, m') s' ->
  values_ok m'.
Proof.
  intros Hok Hval Hr.
  destruct (hashmap_resize_spec m n s Hok) as (rc0 & m0 & s0 & Hr0 & Hcase).
  rewrite Hr in Hr0. injection Hr0 as <- <- <-.
  destruct Hcase as [(_ & -> & _)|(_ & _ & _ & _ & _ & _ & _ & Hp)];
    [exact Hval | now apply (values_ok_perm m)].
Qed.

(** What [hashmap_get] answers, by the entry the key resolves to. *)
Lemma hashmap_get_cases m (k : buffer) ov os s :
  table_ok m -> values_ok m -> k <> [] ->
  match hashmap_lookup m k with
  | None =>
      hashmap_get (Some m) (Some k) ov os s =
      Done {| status := 0; out_val := None; out_size := None |} s
  | Some e =>
      exists v,
        value e = Some v /\ value_size e = len v /\
        hashmap_get (Some m) (Some k) ov os s =
        if ov && os
        then
          match malloc s with
          | Done true s' =>
              Done {| status := 1; out_val := Some (Some v);
                      out_size := Some (len v) |} s'
          | Done false s' =>
              Done {| status := -1; out_val := Some None; out_size := None |} s'
          | Fault => Fault
          end
        else Done {| status := 1; out_val := None; out_size := None |} s
  end.
Proof.
  intros Hok Hval Hk.
  rewrite (hashmap_get_lookup m k ov os s Hok (nonempty_len k Hk)).
  destruct (hashmap_lookup m k) as [e|] eqn:Hlk; [|reflexivity].
  pose proof (hashmap_lookup_match m k e Hlk) as Hm.
  apply hashmap_lookup_elem in Hlk as [He _].
  destruct (Hval e He) as (v & Hv & Hs). exists v.
  split; [exact Hv|]. split; [exact Hs|].
  destruct (ov && os).
  - now apply get_walk_value.
  - now apply get_walk_no_out.
Qed.

(** X10: every entry keeps a value buffer of the length its [value_size]
    says: a successful [hashmap_init] starts with it, and [hashmap_insert]
    keeps it when it returns 0 or when the key had no entry, as do
    [hashmap_remove] and [hashmap_resize] whatever they return. (Only an
    update whose buffer is refused leaves an entry without value.) *)
Theorem values_stay_readable :
  (forall old cap hf ef lf s m s',
     0 <= cap ->
     hashmap_init (Some old) cap hf ef lf s = Done (0, Some m) s' ->
     values_ok m) /\
  (forall m (k : buffer) v s rc m' s',
     table_ok m -> values_ok m ->
     hashmap_insert (Some m) (Some k) v s = Done (rc, Some m') s' ->
     rc = 0 \/ absent m k ->
     values_ok m') /\
  (forall m key_data s rc m' s',
     table_ok m -> values_ok m ->
     hashmap_remove (Some m) key_data s = Done (rc, Some m') s' ->
     values_ok m') /\
  (forall m n s rc m' s',
     table_ok m -> values_ok m ->
     hashmap_resize m n s = Done (rc, m') s' ->
     values_ok m').
Proof.
  split; [|split; [|split]].
  - intros old cap hf ef lf s m s' Hcap Hinit.
    destruct (hashmap_init_ok old cap hf ef lf s m s' Hcap Hinit)
      as (_ & _ & Hnil & _).
    intros e He. rewrite Hnil in He. inversion He.
  - exact hashmap_insert_values_ok.
  - exact hashmap_remove_values_ok.
  - exact hashmap_resize_values_ok.
Qed.

Lemma fresh_values_ok cap : 1 <= cap -> values_ok (fresh cap).
Proof.
  intros Hcap e He. destruct (fresh_valid cap Hcap) as [_ Hnil].
  rewrite Hnil in He. inversion He.
Qed.

Lemma values_stay_readable_witness :
  length (entries two_pairs) = 2%nat /\
  values_ok (after_insert (fresh 2) key_42 val_pi []) /\
  values_ok two_pairs /\
  values_ok (after_insert two_pairs key_42 val_world []) /\
  values_ok (after_insert two_pairs key_point val_a_point [true; false]) /\
  values_ok (after_remove two_pairs key_42) /\
  values_ok (after_resize two_pairs 5 []).
Proof.
  destruct values_stay_readable as (Hinit & Hins & Hrem & Hres).
  assert (values_ok (fresh 2)) as Hval0.
  { apply (Hinit (fresh 16) 2 None None float_zero [] (fresh 2) []);
      [lia | reflexivity]. }
  assert (table_ok (fresh 2)) as Hok0 by (apply fresh_valid; lia).
  assert (table_ok (after_insert (fresh 2) key_42 val_pi [])) as Hok1
    by (apply after_insert_valid, fresh_valid; lia).
  assert (table_ok two_pairs) as Hok2 by apply two_pairs_valid.
  assert (values_ok (after_insert (fresh 2) key_42 val_pi [])) as Hval1.
  { apply (Hins (fresh 2) key_42 val_pi [] 0 _ []);
      [exact Hok0 | exact Hval0 | | now left].
    apply after_insert_eq; vm_compute; reflexivity. }
  assert (values_ok two_pairs) as Hval2.
  { apply (Hins (after_insert (fresh 2) key_42 val_pi []) key_hello val_world
             [] 0 _ []); [exact Hok1 | exact Hval1 | | now left].
    apply after_insert_eq; vm_compute; reflexivity. }
  split; [vm_compute; reflexivity|].
  split; [exact Hval1|]. split; [exact Hval2|]. split; [|split; [|split]].
  - apply (Hins two_pairs key_42 val_world [] 0 _ []);
      [exact Hok2 | exact Hval2 | | now left].
    apply after_insert_eq; vm_compute; reflexivity.
  - apply (Hins two_pairs key_point val_a_point [true; false] (-1) _ []);
      [exact Hok2 | exact Hval2 | |].
    + apply after_insert_eq; vm_compute; reflexivity.
    + right. intros e He.
      assert (entries two_pairs =
              [{| key := key_hello; value := Some val_world; value_size := 6 |};
               {| key := key_42; value := Some val_pi; value_size := 8 |}])
        as Hall by (vm_compute; reflexivity).
      rewrite Hall in He.
      repeat (apply elem_of_cons in He as [->|He]);
        [vm_compute; reflexivity | vm_compute; reflexivity | inversion He].
  - apply (Hrem two_pairs (Some key_42) [] 1 _ []); [exact Hok2 | exact Hval2 |].
    apply after_remove_eq. vm_compute. reflexivity.
  - apply (Hres two_pairs 5 [] 0 _ []); [exact Hok2 | exact Hval2 |].
    apply after_resize_eq; vm_compute; reflexivity.
Defined.

(** X11: on an initialized map whose entries all have their value,
    [hashmap_get] for a key of non-zero length always returns: 0 with nothing
    written when no entry matches the key; 1 with nothing written and no
    request when an entry matches and an output pointer is missing; and, with
    both pointers, 1 with a copy of the value of the entry and its length
    when the buffer of the copy is granted, -1 with [NULL] written to
    [out_val] when it is refused. *)
Theorem hashmap_get_outcomes m (k : buffer) ov os s :
  table_ok m -> values_ok m -> k <> [] ->
  match hashmap_lookup m k with
  | None =>
      hashmap_get (Some m) (Some k) ov os s =
      Done {| status := 0; out_val := None; out_size := None |} s
  | Some e =>
      exists v,
        value e = Some v /\ value_size e = len v /\
        hashmap_get (Some m) (Some k) ov os s =
        if ov && os
        then
          match malloc s with
          | Done true s' =>
              Done {| status := 1; out_val := Some (Some v);
                      out_size := Some (len v) |} s'
          | Done false s' =>
              Done {| status := -1; out_val := Some None; out_size := None |} s'
          | Fault => Fault
          end
        else Done {| status := 1; out_val := None; out_size := None |} s
  end.
Proof. exact (hashmap_get_cases m k ov os s). Qed.

Lemma two_pairs_values_ok : values_ok two_pairs.
Proof.
  assert (table_ok (fresh 2)) as Hok0 by (apply fresh_valid; lia).
  assert (values_ok (after_insert (fresh 2) key_42 val_pi [])) as Hval1.
  { apply (hashmap_insert_values_ok (fresh 2) key_42 val_pi [] 0 _ []);
      [exact Hok0 | apply fresh_values_ok; lia | | now left].
    apply after_insert_eq; vm_compute; reflexivity. }
  apply (hashmap_insert_values_ok (after_insert (fresh 2) key_42 val_pi [])
           key_hello val_world [] 0 _ []); [| exact Hval1 | | now left].
  - apply after_insert_valid, fresh_valid. lia.
  - apply after_insert_eq; vm_compute; reflexivity.
Qed.

Lemma hashmap_get_outcomes_witness :
  match hashmap_lookup two_pairs key_42 with
  | None =>
      hashmap_get (Some two_pairs) (Some key_42) true true [false] =
      Done {| status := 0; out_val := None; out_size := None |} [false]
  | Some e =>
      exists v,
        value e = Some v /\ value_size e = len v /\
        hashmap_get (Some two_pairs) (Some key_42) true true [false] =
        if true && true
        then
          match malloc [false] with
          | Done true s' =>
              Done {| status := 1; out_val := Some (Some v);
                      out_size := Some (len v) |} s'
          | Done false s' =>
              Done {| status := -1; out_val := Some None; out_size := None |} s'
          | Fault => Fault
          end
        else Done {| status := 1; out_val := None; out_size := None |} [false]
  end.
Proof.
  apply hashmap_get_outcomes.
  - apply two_pairs_valid.
  - exact two_pairs_values_ok.
  - discriminate.
Defined.

(** ** hashmap_destroy *)

Lemma destroy_chain_flat c :
  destroy_chain c = flat_map (fun e => hashmap_free_entry (Some e)) c.
Proof. induction c as [|e c IH]; simpl; [reflexivity|]. now rewrite IH. Qed.

Lemma destroy_buckets_run bs :
  forall todo i s,
    (i + todo = length bs)%nat ->
    destroy_buckets (Some bs) (Z.of_nat i) todo s =
    Done (flat_map (fun e => hashmap_free_entry (Some e)) (concat (drop i bs))) s.
Proof.
  induction todo as [|todo IH]; intros i s Hlen; simpl.
  - rewrite drop_ge by lia. reflexivity.
  - destruct (lookup_lt_is_Some_2 bs i) as [c Hc]; [lia|].
    unfold bind.
    rewrite (bucket_at_ok bs (Z.of_nat i) c) by now rewrite Nat2Z.id.
    replace (Z.of_nat i + 1) with (Z.of_nat (S i)) by lia.
    rewrite IH by lia. unfold ret.
    rewrite (drop_S bs c i Hc). simpl. rewrite flat_map_app.
    now rewrite destroy_chain_flat.
Qed.

Lemma freed_entries_free l :
  freed_entries (flat_map (fun e => hashmap_free_entry (Some e)) l) = l.
Proof.
  unfold freed_entries. induction l as [|e l IH]; [reflexivity|].
  simpl. destruct (value e); simpl; f_equal; exact IH.
Qed.

Lemma hashmap_destroy_run m s :
  table_ok m ->
  exists bs,
    buckets m = Some bs /\
    hashmap_destroy (Some (memory_of m)) s =
    Done (Some destroyed,
          flat_map (fun e => hashmap_free_entry (Some e)) (entries m)
          ++ [BucketBlock bs]) s.
Proof.
  intros (bs & Hb & Hlen & Hcap & _). exists bs. split; [exact Hb|].
  unfold hashmap_destroy, memory_of. simpl. rewrite Hb. unfold bind.
  change 0 with (Z.of_nat 0).
  rewrite (destroy_buckets_run bs (Z.to_nat (capacity m)) 0%nat) by (simpl; lia).
  rewrite drop_0. unfold entries. rewrite Hb. reflexivity.
Qed.

(** X12: [hashmap_destroy] on an initialized map returns, frees the key
    buffer, the value buffer (when there is one) and the node of every entry,
    entry by entry in bucket and chain order, each node exactly once, then
    the bucket array, and leaves the struct zeroed with [NULL] pointers; on
    that struct, or on a [NULL] map, a further [hashmap_destroy] frees nothing
    and changes nothing. *)
Theorem destroy_frees_everything_once m s :
  table_ok m ->
  exists bs freed,
    buckets m = Some bs /\
    hashmap_destroy (Some (memory_of m)) s =
      Done (Some destroyed, freed ++ [BucketBlock bs]) s /\
    freed = flat_map (fun e => hashmap_free_entry (Some e)) (entries m) /\
    freed_entries (freed ++ [BucketBlock bs]) = entries m /\
    hashmap_destroy (Some destroyed) s = Done (Some destroyed, []) s /\
    hashmap_destroy None s = Done (None, []) s.
Proof.
  intros Hok. destruct (hashmap_destroy_run m s Hok) as (bs & Hb & Hd).
  exists bs, (flat_map (fun e => hashmap_free_entry (Some e)) (entries m)).
  split; [exact Hb|]. split; [exact Hd|]. split; [reflexivity|].
  split; [|split; reflexivity].
  unfold freed_entries. rewrite omap_app. simpl. rewrite app_nil_r.
  apply freed_entries_free.
Qed.

Lemma destroy_frees_everything_once_witness :
  exists bs freed,
    buckets two_pairs = Some bs /\
    hashmap_destroy (Some (memory_of two_pairs)) [] =
      Done (Some destroyed, freed ++ [BucketBlock bs]) [] /\
    freed = flat_map (fun e => hashmap_free_entry (Some e)) (entries two_pairs) /\
    freed_entries (freed ++ [BucketBlock bs]) = entries two_pairs /\
    hashmap_destroy (Some destroyed) [] = Done (Some destroyed, []) [] /\
    hashmap_destroy None [] = Done (None, []) [].
Proof. apply destroy_frees_everything_once. apply two_pairs_valid. Defined.

(** ** The demonstration program *)

Lemma main_init_cases old s :
  (exists s', malloc s = Done true s' /\
              hashmap_init (Some old) 0 None None float_zero s =
              Done (0, Some (fresh 16)) s') \/
  (exists m s', s = false :: s' /\
                hashmap_init (Some old) 0 None None float_zero s =
                Done (-1, Some m) s').
Proof.
  unfold hashmap_init, bind.
  change (calloc (if 0 =? 0 then DEFAULT_INITIAL_CAPACITY else 0) sizeof_ptr s)
    with (malloc s).
  destruct (malloc s) as [[|] s'|] eqn:E.
  - left. exists s'. split; reflexivity.
  - right. apply malloc_refused in E. eexists _, s'. split; [exact E|reflexivity].
  - destruct (malloc_total s) as (? & ? & ?). congruence.
Qed.

Lemma hashmap_insert_granted m (k : buffer) v s rc m' s' :
  table_ok m -> k <> [] -> all_granted s ->
  hashmap_insert (Some m) (Some k) v s = Done (rc, Some m') s' ->
  rc = 0 /\ all_granted s'.
Proof.
  intros Hok Hk Hs Hins.
  destruct (hashmap_insert_inv m k v s rc m' s' Hok Hk Hins)
    as (m1 & s1 & Hg & Hp).
  destruct (insert_grow_consumes m s m1 s1 Hok Hg) as (c1 & ->).
  destruct (insert_grow_spec m (c1 ++ s1) Hok)
    as (m1' & s1' & Hg' & _ & _ & Hok1 & _).
  rewrite Hg in Hg'. injection Hg' as <- <-.
  destruct (insert_place_spec m1 k v s1 Hok1)
    as (rc0 & m0 & s0 & Hp0 & _ & _ & _ & Hcase).
  rewrite Hp in Hp0. injection Hp0 as <- <- <-.
  assert (all_granted s1) as Hs1.
  { unfold all_granted in *. rewrite Forall_app in Hs. tauto. }
  destruct (hashmap_lookup m1 k) as [e0|].
  - destruct Hcase as (granted & rest & Hm & -> & _).
    destruct (malloc_granted s1 Hs1) as (s2 & Hm2 & Hs2).
    rewrite Hm2 in Hm. injection Hm as <- <-. auto.
  - destruct Hcase as (new_entry & Hce & Hnew).
    destruct (hashmap_create_entry_granted k v s1 Hs1) as (s2 & Hce2 & Hs2).
    rewrite Hce2 in Hce. injection Hce as <- <-. destruct Hnew as (-> & _). auto.
Qed.

Lemma main_insert_step m l (k v : buffer) s :
  valid m -> same_funcs (fresh 16) m -> values_ok m -> only_entries m l ->
  k <> [] ->
  forallb (fun e => negb (keys_match (fresh 16) e k)) l = true ->
  exists rc m' s',
    hashmap_insert (Some m) (Some k) v s = Done (rc, Some m') s' /\
    valid m' /\ same_funcs (fresh 16) m' /\ values_ok m' /\
    only_entries m' (l ++ [{| key := k; value := Some v; value_size := len v |}]) /\
    (forall e, e ∈ entries m -> e ∈ entries m') /\
    (all_granted s ->
     all_granted s' /\
     {| key := k; value := Some v; value_size := len v |} ∈ entries m').
Proof.
  intros Hv Hf Hval Honly Hk Hnew. pose proof Hv as (Hok & _).
  assert (absent m k) as Habs.
  { intros e He. rewrite (keys_match_funcs (fresh 16) m) by exact Hf.
    rewrite forallb_forall in Hnew.
    specialize (Hnew e). rewrite <- list_elem_of_In in Hnew.
    apply negb_true_iff, Hnew, Honly, He. }
  destruct (hashmap_insert_total m (Some k) v s Hok) as (rc & m' & s' & Hins).
  exists rc, m', s'. split; [exact Hins|].
  destruct (hashmap_insert_valid m k v s rc m' s' Hv Hins) as [Hv' Hf'].
  split; [exact Hv'|]. split; [eauto using same_funcs_trans|]. split.
  { apply (hashmap_insert_values_ok m k v s rc m' s'); auto. }
  destruct (hashmap_insert_entries m k v s rc m' s' Hok Hk Hins)
    as (_ & _ & [(Hrc & Hp)|[(_ & Hp)|(e0 & granted & rest & Hm & _ & Hp & _)]]).
  - split; [|split].
    + intros e He. rewrite Hp in He. apply elem_of_app. left. auto.
    + intros e He. now rewrite Hp.
    + intros Hs.
      destruct (hashmap_insert_granted m k v s rc m' s' Hok Hk Hs Hins). lia.
  - split; [|split].
    + intros e He. rewrite Hp in He. apply elem_of_app.
      apply elem_of_cons in He as [->|He]; [right; left | left; auto].
    + intros e He. rewrite Hp. now right.
    + intros Hs.
      destruct (hashmap_insert_granted m k v s rc m' s' Hok Hk Hs Hins).
      split; [assumption|]. rewrite Hp. left.
  - rewrite Habs in Hm; [discriminate|]. rewrite Hp. left.
Qed.

Lemma main_inserts_run s :
  exists m s',
    main_inserts (Some (fresh 16)) s = Done (Some m) s' /\
    valid m /\ same_funcs (fresh 16) m /\ values_ok m /\
    only_entries m main_pairs /\
    (all_granted s ->
     all_granted s' /\ forall e, e ∈ main_pairs -> e ∈ entries m).
Proof.
  assert (valid (fresh 16)) as Hv0 by (apply fresh_valid; lia).
  assert (only_entries (fresh 16) []) as Ho0.
  { intros e He. destruct (fresh_valid 16 ltac:(lia)) as [_ Hnil].
    now rewrite Hnil in He. }
  destruct (main_insert_step (fresh 16) [] key_42 val_pi s Hv0
              (same_funcs_refl _) (fresh_values_ok 16 ltac:(lia)) Ho0)
    as (rc1 & m1 & s1 & Hi1 & Hv1 & Hf1 & Hval1 & Ho1 & Hk1 & Hg1);
    [discriminate | reflexivity|].
  destruct (main_insert_step m1 _ key_hello val_world s1 Hv1 Hf1 Hval1 Ho1)
    as (rc2 & m2 & s2 & Hi2 & Hv2 & Hf2 & Hval2 & Ho2 & Hk2 & Hg2);
    [discriminate | vm_compute; reflexivity|].
  destruct (main_insert_step m2 _ key_point val_a_point s2 Hv2 Hf2 Hval2 Ho2)
    as (rc3 & m3 & s3 & Hi3 & Hv3 & Hf3 & Hval3 & Ho3 & Hk3 & Hg3);
    [discriminate | vm_compute; reflexivity|].
  exists m3, s3. unfold main_inserts, bind. rewrite Hi1. cbn [snd].
  rewrite Hi2. cbn [snd]. rewrite Hi3. cbn [snd]. unfold ret.
  repeat (split; [auto; fail|]).
  intros Hs. destruct (Hg1 Hs) as [Hs1 He1]. destruct (Hg2 Hs1) as [Hs2 He2].
  destruct (Hg3 Hs2) as [Hs3 He3]. split; [exact Hs3|].
  intros e He. unfold main_pairs in He.
  repeat (apply elem_of_cons in He as [->|He]); [auto | auto | auto | inversion He].
Qed.

Lemma main_get_int_cases m s :
  valid m -> same_funcs (fresh 16) m -> values_ok m ->
  only_entries m main_pairs ->
  exists events s',
    main_get_int (Some m) s = Done events s' /\
    (events = [] \/ events = [RetrievedDouble val_pi]) /\
    (hashmap_lookup m key_42 <> None -> all_granted s ->
     events = [RetrievedDouble val_pi] /\ all_granted s').
Proof.
  intros Hv Hf Hval Honly. pose proof Hv as (Hok & _).
  pose proof (hashmap_get_cases m key_42 true true s Hok Hval ltac:(discriminate))
    as Hget.
  unfold main_get_int, bind.
  destruct (hashmap_lookup m key_42) as [e|] eqn:Hlk.
  - destruct Hget as (v & Hvalue & _ & ->). simpl.
    apply hashmap_lookup_elem in Hlk as [He Hm].
    rewrite (keys_match_funcs (fresh 16) m) in Hm by exact Hf.
    assert (v = val_pi) as ->.
    { apply Honly in He. unfold main_pairs in He.
      repeat (apply elem_of_cons in He as [->|He]);
        [simpl in Hvalue; congruence | vm_compute in Hm; discriminate
        | vm_compute in Hm; discriminate | inversion He]. }
    destruct (malloc s) as [[|] s'|] eqn:E.
    + exists [RetrievedDouble val_pi], s'.
      pose proof (memcpy_whole val_pi s') as Hcopy.
      change (len val_pi) with 8 in Hcopy.
      cbv beta iota. cbn [status out_val andb default]. 
      change (1 =? 1) with true. cbv beta iota. unfold id. rewrite Hcopy.
      split; [reflexivity|]. split; [auto|]. intros _ Hs. split; [reflexivity|].
      destruct (malloc_granted s Hs) as (s2 & Hm2 & Hs2). congruence.
    + exists [], s'. simpl. split; [reflexivity|]. split; [auto|].
      intros _ Hs. destruct (malloc_granted s Hs) as (s2 & Hm2 & _). congruence.
    + destruct (malloc_total s) as (? & ? & ?). congruence.
  - rewrite Hget. simpl. exists [], s. split; [reflexivity|].
    split; [auto|]. intros H. congruence.
Qed.

Lemma main_get_string_cases m s :
  valid m -> same_funcs (fresh 16) m -> values_ok m ->
  only_entries m main_pairs ->
  exists events s',
    main_get_string (Some m) s = Done events s' /\
    (events = [] \/ events = [RetrievedString text_world]) /\
    (hashmap_lookup m key_hello <> None -> all_granted s ->
     events = [RetrievedString text_world] /\ all_granted s').
Proof.
  intros Hv Hf Hval Honly. pose proof Hv as (Hok & _).
  pose proof (hashmap_get_cases m key_hello true true s Hok Hval
                ltac:(discriminate)) as Hget.
  unfold main_get_string, bind.
  destruct (hashmap_lookup m key_hello) as [e|] eqn:Hlk.
  - destruct Hget as (v & Hvalue & _ & ->). simpl.
    apply hashmap_lookup_elem in Hlk as [He Hm].
    rewrite (keys_match_funcs (fresh 16) m) in Hm by exact Hf.
    assert (v = val_world) as ->.
    { apply Honly in He. unfold main_pairs in He.
      repeat (apply elem_of_cons in He as [->|He]);
        [vm_compute in Hm; discriminate | simpl in Hvalue; congruence
        | vm_compute in Hm; discriminate | inversion He]. }
    destruct (malloc s) as [[|] s'|] eqn:E.
    + exists [RetrievedString text_world], s'. simpl.
      split; [reflexivity|]. split; [auto|]. intros _ Hs. split; [reflexivity|].
      destruct (malloc_granted s Hs) as (s2 & Hm2 & Hs2). congruence.
    + exists [], s'. simpl. split; [reflexivity|]. split; [auto|].
      intros _ Hs. destruct (malloc_granted s Hs) as (s2 & Hm2 & _). congruence.
    + destruct (malloc_total s) as (? & ? & ?). congruence.
  - rewrite Hget. simpl. exists [], s. split; [reflexivity|].
    split; [auto|]. intros H. congruence.
Qed.

(** ** main *)

(** X13: the demonstration program never faults and never reads a value the
    map does not hold.  It returns 1 with the failure message exactly when the
    bucket array is refused at initialization.  Otherwise it returns 0; it
    prints the double it stored under 42 or nothing, then the string stored
    under "hello" or nothing, then the outcome of the removal.  When every
    allocation is granted it prints both values and reports the removal as
    done. *)
Theorem main_never_faults old s :
  exists code events s',
    main old s = Done (code, events) s' /\
    ((code = 1 /\ events = [FailedToInitialize] /\ exists rest, s = false :: rest) \/
     (code = 0 /\ (forall rest, s <> false :: rest) /\
      exists first second removed,
        events = first ++ second ++ [RemovedKey removed] /\
        (first = [] \/ first = [RetrievedDouble val_pi]) /\
        (second = [] \/ second = [RetrievedString text_world]))) /\
    (all_granted s ->
     code = 0 /\
     events = [RetrievedDouble val_pi; RetrievedString text_world;
               RemovedKey true]).
Proof.
  unfold main, bind.
  destruct (main_init_cases old s) as [(s0 & Hm0 & ->)|(m & s0 & -> & ->)].
  2:{ exists 1, [FailedToInitialize], s0. split; [reflexivity|]. split.
      - left. eauto.
      - intros Hs. inversion Hs; discriminate. }
  cbn [fst snd]. change (negb (0 =? 0)) with false. cbv iota.
  destruct (main_inserts_run s0)
    as (m & s1 & -> & Hv & Hf & Hval & Honly & Hgranted).
  pose proof Hv as (Hok & _).
  destruct (main_get_int_cases m s1 Hv Hf Hval Honly)
    as (first & s2 & -> & Hfirst & Hg1).
  destruct (main_get_string_cases m s2 Hv Hf Hval Honly)
    as (second & s3 & -> & Hsecond & Hg2).
  destruct (hashmap_remove_spec m key_42 s3 Hok ltac:(discriminate))
    as (rc & m' & -> & _ & _ & Hok' & Hcase).
  cbn [fst snd option_map].
  destruct (hashmap_destroy_run m' s3 Hok') as (bs & _ & ->).
  exists 0, (first ++ second ++ [RemovedKey (rc =? 1)]), s3.
  split; [reflexivity|]. split.
  - right. split; [reflexivity|]. split; [|eauto 6].
    intros rest ->. discriminate Hm0.
  - intros Hs. split; [reflexivity|].
    assert (all_granted s0) as Hs0.
    { destruct (malloc_granted s Hs) as (s' & Hm' & Hs'). congruence. }
    destruct (Hgranted Hs0) as [Hs1 Hall].
    assert (forall e (k : buffer), e ∈ main_pairs ->
              keys_match (fresh 16) e k = true -> hashmap_lookup m k <> None)
      as Hfound.
    { intros e k He Hm Hnone.
      pose proof (proj2 (hashmap_lookup_Some m k e Hv)) as Hlk.
      rewrite Hnone in Hlk. discriminate Hlk. split; [auto|].
      now rewrite (keys_match_funcs (fresh 16) m). }
    assert (hashmap_lookup m key_42 <> None) as H42.
    { eapply Hfound; [left|]. vm_compute. reflexivity. }
    assert (hashmap_lookup m key_hello <> None) as Hhello.
    { eapply Hfound; [right; left|]. vm_compute. reflexivity. }
    destruct (Hg1 H42 Hs1) as [-> Hs2]. destruct (Hg2 Hhello Hs2) as [-> _].
    destruct (hashmap_lookup m key_42); [|congruence].
    destruct Hcase as (-> & _). reflexivity.
Qed.

(** ** The map as a dictionary *)

Lemma all_granted_tail c s : all_granted (c ++ s) -> all_granted s.
Proof. unfold all_granted. rewrite Forall_app. tauto. Qed.

Lemma different_keys m (a b : buffer) :
  eq_func m = default_eq -> a <> b -> same_key m a b = false.
Proof.
  intros He Hab. destruct (same_key m a b) eqn:E; [|reflexivity].
  now apply (same_key_default m a b He) in E.
Qed.

Lemma run_op_dict o m s :
  valid m -> eq_func m = default_eq -> values_ok m -> all_granted s ->
  exists m' s',
    run_op o m s = Done m' s' /\
    valid m' /\ eq_func m' = default_eq /\ values_ok m' /\ all_granted s' /\
    forall K : buffer, K <> [] -> stored m' K = dict_op o (stored m) K.
Proof.
  intros Hv He Hval Hs. pose proof Hv as (Hok & _).
  destruct o as [k v|k|n]; unfold run_op, bind.
  - destruct (hashmap_insert_total m (Some k) v s Hok) as (rc & m' & s' & Hins).
    rewrite Hins. cbn [snd default from_option id]. exists m', s'.
    split; [reflexivity|].
    destruct (decide (k = [])) as [->|Hk].
    { injection Hins as <- <- <-. auto 10. }
    destruct (hashmap_insert_granted m k v s rc m' s' Hok Hk Hs Hins) as [-> Hs'].
    destruct (hashmap_insert_valid m k v s 0 m' s' Hv Hins) as [Hv' (_ & He' & _)].
    split; [exact Hv'|]. split; [congruence|]. split.
    { apply (hashmap_insert_values_ok m k v s 0 m' s'); auto. }
    split; [exact Hs'|].
    destruct (hashmap_insert_inv m k v s 0 m' s' Hok Hk Hins)
      as (m1 & s1 & Hg & Hp).
    destruct (insert_grow_valid m s Hv)
      as (m1' & s1' & Hg' & Hv1 & (_ & He1 & _) & _ & _ & Hlk1).
    rewrite Hg in Hg'. injection Hg' as <- <-.
    destruct (insert_place_valid m1 k v s1 0 m' s' Hv1 Hp)
      as (_ & _ & Hframe & Hnew).
    intros K HK.
    replace (dict_op (OpInsert k v) (stored m) K)
      with (if buffer_eq_dec K k then Some v else stored m K)
      by (destruct k; [contradiction|reflexivity]).
    unfold stored.
    destruct (buffer_eq_dec K k) as [->|Hne].
    + destruct (Hnew eq_refl) as (e & -> & Hvalue & _). exact Hvalue.
    + rewrite Hframe by (apply different_keys; congruence).
      now rewrite Hlk1.
  - destruct (decide (k = [])) as [->|Hk].
    { exists m, s. split; [reflexivity|]. repeat (split; [assumption|]).
      intros K HK. simpl. now destruct (buffer_eq_dec K []). }
    destruct (hashmap_remove_valid m k s Hv (nonempty_len k Hk))
      as (rc & m' & Hr & Hv' & (_ & He' & _) & Hframe & Hgone).
    rewrite Hr. cbn [snd default from_option id]. exists m', s.
    split; [reflexivity|]. split; [exact Hv'|]. split; [congruence|]. split.
    { apply (hashmap_remove_values_ok m (Some k) s rc m' s); auto. }
    split; [exact Hs|].
    intros K HK. unfold stored. simpl.
    destruct (buffer_eq_dec K k) as [->|Hne].
    + destruct (hashmap_remove_spec m k s Hok (nonempty_len k Hk))
        as (rc0 & m0 & Hr0 & _ & _ & _ & Hcase).
      rewrite Hr in Hr0. injection Hr0 as <- <-.
      destruct (hashmap_lookup m k) as [e|] eqn:Hlk.
      * destruct Hcase as (-> & _). now rewrite Hgone.
      * destruct Hcase as (_ & ->). now rewrite Hlk.
    + now rewrite Hframe by (apply different_keys; assumption).
  - destruct (hashmap_resize_spec m n s Hok) as (rc & m' & s' & Hr & Hcase).
    rewrite Hr. cbn [snd]. exists m', s'. split; [reflexivity|].
    destruct (hashmap_resize_valid m n s rc m' s' Hv Hr)
      as (Hv' & (_ & He' & _) & _ & _ & Hlk).
    split; [exact Hv'|]. split; [congruence|]. split.
    { apply (hashmap_resize_values_ok m n s rc m' s'); auto. }
    split.
    + destruct Hcase as [(_ & _ & [[_ ->]|[_ Hc]])|(_ & _ & Hc & _)];
        [exact Hs | |];
        apply calloc_consumes in Hc as (c & ->);
        now apply (all_granted_tail c).
    + intros K _. unfold stored. now rewrite Hlk.
Qed.

Lemma hashmap_get_stored m (K : buffer) s :
  valid m -> values_ok m -> K <> [] -> all_granted s ->
  match stored m K with
  | Some v =>
      exists s',
        hashmap_get (Some m) (Some K) true true s =
        Done {| status := 1; out_val := Some (Some v);
                out_size := Some (len v) |} s'
  | None =>
      hashmap_get (Some m) (Some K) true true s =
      Done {| status := 0; out_val := None; out_size := None |} s
  end.
Proof.
  intros (Hok & _) Hval HK Hs. unfold stored.
  destruct (hashmap_lookup m K) as [e|] eqn:Hlk.
  - pose proof Hlk as [He _]%hashmap_lookup_elem.
    destruct (Hval e He) as (v & Hvalue & Hsize). rewrite Hvalue.
    destruct (malloc_granted s Hs) as (s' & Hm & _). exists s'.
    rewrite (hashmap_get_value m K e v s Hok HK Hlk Hvalue Hsize).
    now rewrite Hm.
  - now apply hashmap_get_absent.
Qed.

(** X14: with the default comparison and every allocation granted, the map is
    a dictionary.  After any sequence of inserts, removes and resizes, a key
    of non-zero length holds the value of the last insert for exactly these
    bytes that no later remove of them followed, and [hashmap_get] returns 1
    with a copy of that value and its length; a key with no such insert is
    not found and [hashmap_get] returns 0. *)
Theorem behaves_as_dictionary ops m s :
  valid m -> eq_func m = default_eq -> values_ok m -> all_granted s ->
  exists m' s',
    run_ops ops m s = Done m' s' /\
    forall K : buffer, K <> [] ->
      stored m' K = dict_ops ops (stored m) K /\
      match dict_ops ops (stored m) K with
      | Some v =>
          exists s'',
            hashmap_get (Some m') (Some K) true true s' =
            Done {| status := 1; out_val := Some (Some v);
                    out_size := Some (len v) |} s''
      | None =>
          hashmap_get (Some m') (Some K) true true s' =
          Done {| status := 0; out_val := None; out_size := None |} s'
      end.
Proof.
  revert m s. induction ops as [|o ops IH]; intros m s Hv He Hval Hs.
  - exists m, s. split; [reflexivity|]. intros K HK. split; [reflexivity|].
    now apply hashmap_get_stored.
  - destruct (run_op_dict o m s Hv He Hval Hs)
      as (m1 & s1 & Hr & Hv1 & He1 & Hval1 & Hs1 & Hstep).
    destruct (IH m1 s1 Hv1 He1 Hval1 Hs1) as (m' & s' & Hrun & Hall).
    exists m', s'. split; [simpl; unfold bind; now rewrite Hr|].
    assert (forall K : buffer, K <> [] ->
              dict_ops (o :: ops) (stored m) K = dict_ops ops (stored m1) K)
      as Hsame.
    { intros K HK. simpl. clear -Hstep HK.
      assert (forall d d' : dictionary,
                (forall K : buffer, K <> [] -> d K = d' K) ->
                forall K : buffer, K <> [] ->
                  dict_ops ops d K = dict_ops ops d' K) as Hext.
      { clear. induction ops as [|o ops IH]; intros d d' Hd K HK; [auto|].
        simpl. apply IH; [|exact HK]. intros K' HK'.
        destruct o as [[|b k] v|k|n]; simpl; auto;
          destruct (buffer_eq_dec K' _); auto. }
      apply Hext; [|exact HK]. intros K' HK'. symmetry. now apply Hstep. }
    intros K HK. rewrite (Hsame K HK). now apply Hall.
Qed.

Lemma behaves_as_dictionary_witness :
  exists m' s',
    run_ops [OpInsert key_42 val_pi; OpInsert key_hello val_world;
             OpRemove key_42; OpResize 4; OpInsert key_hello val_pi]
            (fresh 2) [] = Done m' s' /\
    forall K : buffer, K <> [] ->
      stored m' K =
      dict_ops [OpInsert key_42 val_pi; OpInsert key_hello val_world;
                OpRemove key_42; OpResize 4; OpInsert key_hello val_pi]
               (stored (fresh 2)) K /\
      match dict_ops [OpInsert key_42 val_pi; OpInsert key_hello val_world;
                      OpRemove key_42; OpResize 4; OpInsert key_hello val_pi]
                     (stored (fresh 2)) K with
      | Some v =>
          exists s'',
            hashmap_get (Some m') (Some K) true true s' =
            Done {| status := 1; out_val := Some (Some v);
                    out_size := Some (len v) |} s''
      | None =>
          hashmap_get (Some m') (Some K) true true s' =
          Done {| status := 0; out_val := None; out_size := None |} s'
      end.
Proof.
  apply (behaves_as_dictionary _ (fresh 2) []).
  - apply fresh_valid. lia.
  - reflexivity.
  - apply fresh_values_ok. lia.
  - constructor.
Defined.

(** ** The default hash *)

Lemma high_bits_clear x i : 0 <= x < 2 ^ 64 -> 64 <= i -> Z.testbit x i = false.
Proof.
  intros Hx Hi. destruct (decide (x = 0)) as [->|Hne]; [apply Z.bits_0|].
  apply Z.bits_above_log2; [lia|].
  assert (Z.log2 x < 64); [|lia]. apply Z.log2_lt_pow2; lia.
Qed.

Lemma xorshift_range x c :
  0 <= x < 2 ^ 64 -> 0 <= c -> 0 <= Z.lxor x (Z.shiftr x c) < 2 ^ 64.
Proof.
  intros Hx Hc.
  assert (0 <= Z.lxor x (Z.shiftr x c)) as Hnn.
  { apply Z.lxor_nonneg. rewrite Z.shiftr_nonneg. lia. }
  split; [exact Hnn|].
  destruct (decide (Z.lxor x (Z.shiftr x c) < 2 ^ 64)) as [|Hge]; [assumption|].
  exfalso.
  pose proof (Z.bit_log2 (Z.lxor x (Z.shiftr x c)) ltac:(lia)) as Hbit.
  assert (64 <= Z.log2 (Z.lxor x (Z.shiftr x c))) as Hlog.
  { apply Z.log2_le_pow2; lia. }
  rewrite Z.lxor_spec, Z.shiftr_spec in Hbit by lia.
  rewrite !high_bits_clear in Hbit by (auto; lia). discriminate.
Qed.

(** [hash ^= hash >> c] loses nothing. *)
Lemma xorshift_inj x y c :
  0 <= x < 2 ^ 64 -> 0 <= y < 2 ^ 64 -> 0 < c ->
  Z.lxor x (Z.shiftr x c) = Z.lxor y (Z.shiftr y c) -> x = y.
Proof.
  intros Hx Hy Hc Heq.
  assert (forall (n : nat) i, 64 - Z.of_nat n <= i ->
            Z.testbit x i = Z.testbit y i) as Hbits.
  { induction n as [|n IH]; intros i Hi.
    - rewrite !high_bits_clear by (auto; lia). reflexivity.
    - destruct (decide (64 - Z.of_nat n <= i)) as [|Hlow]; [now apply IH|].
      destruct (decide (0 <= i)) as [Hi0|];
        [|rewrite !Z.testbit_neg_r by lia; reflexivity].
      pose proof (f_equal (fun z => Z.testbit z i) Heq) as Hb. simpl in Hb.
      rewrite !Z.lxor_spec, !Z.shiftr_spec in Hb by lia.
      rewrite (IH (i + c)) in Hb by lia.
      now apply xorb_move_l_r_2 in Hb; rewrite Hb, xorb_assoc, xorb_nilpotent,
        xorb_false_r. }
  apply Z.bits_inj'. intros i Hi. apply (Hbits 64%nat). lia.
Qed.

(** [hash += hash << c] is a multiplication by an odd number, which has an
    inverse modulo [2 ^ 64]. *)
Lemma addshift_inj x y c inverse q :
  0 <= x < 2 ^ 64 -> 0 <= y < 2 ^ 64 -> 0 <= c ->
  (1 + 2 ^ c) * inverse = 1 + q * 2 ^ 64 ->
  wrap64 (x + Z.shiftl x c) = wrap64 (y + Z.shiftl y c) -> x = y.
Proof.
  intros Hx Hy Hc Hinv. unfold wrap64. rewrite !Z.shiftl_mul_pow2 by exact Hc.
  intros Heq.
  assert (forall z, 0 <= z < 2 ^ 64 ->
            ((z + z * 2 ^ c) mod 2 ^ 64 * inverse) mod 2 ^ 64 = z) as Hback.
  { intros z Hz. rewrite Z.mul_mod_idemp_l by lia.
    replace ((z + z * 2 ^ c) * inverse) with (z + (z * q) * 2 ^ 64)
      by (transitivity (z * ((1 + 2 ^ c) * inverse)); [rewrite Hinv|]; ring).
    rewrite Z.mod_add by lia. apply Z.mod_small. exact Hz. }
  rewrite <- (Hback x Hx), <- (Hback y Hy). now rewrite Heq.
Qed.

Lemma hash_state_range data h :
  0 <= h < 2 ^ 64 -> 0 <= fold_left hash_step data h < 2 ^ 64.
Proof.
  revert h. induction data as [|b data IH]; intros h Hh; [exact Hh|].
  simpl. apply IH. unfold hash_step. apply xorshift_range; [|lia].
  apply wrap64_range.
Qed.

Lemma hash_step_inj h a b :
  0 <= h < 2 ^ 64 -> hash_step h a = hash_step h b -> a = b.
Proof.
  intros Hh. unfold hash_step. intros Heq.
  apply xorshift_inj in Heq; [|apply wrap64_range..|lia].
  apply (addshift_inj _ _ 10 1151796703138937857 64) in Heq;
    [|apply wrap64_range..|lia|reflexivity].
  pose proof (Byte.to_N_bounded a) as Ha. pose proof (Byte.to_N_bounded b) as Hb.
  assert (Byte.to_N a = Byte.to_N b) as Hab.
  { unfold wrap64 in Heq.
    assert (((h + Z.of_N (Byte.to_N a)) - (h + Z.of_N (Byte.to_N b))) mod 2 ^ 64 = 0) as H0.
    { rewrite Zminus_mod, Heq, Z.sub_diag. reflexivity. }
    replace (h + Z.of_N (Byte.to_N a) - (h + Z.of_N (Byte.to_N b)))
      with (Z.of_N (Byte.to_N a) - Z.of_N (Byte.to_N b)) in H0 by ring.
    apply Z.mod_divide in H0 as [d Hd]; lia. }
  pose proof (Byte.of_to_N a) as Hoa. rewrite Hab, Byte.of_to_N in Hoa.
  congruence.
Qed.

(** X15: [default_hash] returns a 64-bit value, and two keys that differ only
    in their last byte never have the same hash: every step of the loop and
    of the final mixing can be undone. *)
Theorem default_hash_last_byte (k : buffer) a b :
  a <> b ->
  (default_hash (k ++ [a]) =? default_hash (k ++ [b])) = false /\
  0 <= default_hash k < 2 ^ 64.
Proof.
  intros Hab. split; [|apply wrap64_range].
  apply Z.eqb_neq. intros Heq. apply Hab. unfold default_hash in Heq.
  rewrite !fold_left_app in Heq. simpl in Heq.
  pose proof (hash_state_range k 0 ltac:(lia)) as Hk.
  assert (forall c, 0 <= hash_step (fold_left hash_step k 0) c < 2 ^ 64) as Hs.
  { intros c. apply (hash_state_range [c]). exact Hk. }
  apply (addshift_inj _ _ 15 1152886321308467201 2048) in Heq;
    [|apply xorshift_range; [apply wrap64_range|lia]..|lia|reflexivity].
  apply xorshift_inj in Heq; [|apply wrap64_range..|lia].
  apply (addshift_inj _ _ 3 10248191152060862009 5) in Heq;
    [|apply Hs..|lia|reflexivity].
  now apply hash_step_inj in Heq.
Qed.

Lemma default_hash_last_byte_witness :
  (default_hash ([x2a] ++ [x00]) =? default_hash ([x2a] ++ [x01])) = false /\
  0 <= default_hash [x2a] < 2 ^ 64.
Proof. apply default_hash_last_byte. discriminate. Defined.
